(** * A shallow embedding of the content-management data layer

    The development follows the repository's layout: JavaScript strings
    and the slug helpers of [models/content.js], the content collection,
    the settings store of [models/settings.js] and
    [models/schemas/Settings.js], the session schema and the user
    repository.  Each operation is a function over an explicit
    collection state (a list of documents in storage order); clock reads
    and generated identifiers are passed in as arguments. *)

From Stdlib Require Import List Bool Arith NArith ZArith Lia String Ascii.
From Stdlib Require Import DecimalString DecimalNat Decimal.
From Stdlib Require Import Permutation FinFun.
Import ListNotations.

Set Implicit Arguments.

(** ** JavaScript strings

    A JavaScript string is a sequence of UTF-16 code units. *)

Module JsString.

Definition jsstring := list N.

(** An ASCII literal as a JavaScript string. *)
Definition js (s : string) : jsstring :=
  map N_of_ascii (list_ascii_of_string s).

Fixpoint eqb (a b : jsstring) : bool :=
  match a, b with
  | [], [] => true
  | x :: a', y :: b' => N.eqb x y && eqb a' b'
  | _, _ => false
  end.

(** [s.length] *)
Definition length (s : jsstring) : nat := List.length s.

(** JavaScript truthiness of a string: only [''] is falsy. *)
Definition truthy (s : jsstring) : bool :=
  match s with [] => false | _ :: _ => true end.

(** Character classes of the regular expressions in [generateSlug]. *)
Definition hyphen : N := 45.
Definition is_hyphen (c : N) : bool := N.eqb c 45.
Definition is_lower_az (c : N) : bool := N.leb 97 c && N.leb c 122.
Definition is_upper_AZ (c : N) : bool := N.leb 65 c && N.leb c 90.
Definition is_digit (c : N) : bool := N.leb 48 c && N.leb c 57.

(** [\s]: the WhiteSpace and LineTerminator code units, which is also the
    set that [trim] removes. *)
Definition is_space (c : N) : bool :=
  (N.leb 9 c && N.leb c 13) || N.eqb c 32 || N.eqb c 160
  || N.eqb c 5760 || (N.leb 8192 c && N.leb c 8202)
  || N.eqb c 8232 || N.eqb c 8233 || N.eqb c 8239 || N.eqb c 8287
  || N.eqb c 12288 || N.eqb c 65279.

(** An ASCII letter or digit. *)
Definition is_alnum (c : N) : bool :=
  is_lower_az c || is_upper_AZ c || is_digit c.

(** [[a-z0-9-]] *)
Definition is_slug_char (c : N) : bool :=
  is_lower_az c || is_digit c || is_hyphen c.

(** [[a-z0-9\s-]], the complement of the class deleted first. *)
Definition is_kept (c : N) : bool :=
  is_lower_az c || is_digit c || is_space c || is_hyphen c.

(** [s.trim()] *)
Fixpoint trimStart (s : jsstring) : jsstring :=
  match s with
  | [] => []
  | c :: s' => if is_space c then trimStart s' else s
  end.

Fixpoint trimEnd (s : jsstring) : jsstring :=
  match s with
  | [] => []
  | c :: s' =>
      match trimEnd s' with
      | [] => if is_space c then [] else [c]
      | t => c :: t
      end
  end.

Definition trim (s : jsstring) : jsstring := trimEnd (trimStart s).

(** [s.replace(/X+/g, r)] for a character class [X]: every maximal run of
    [X] becomes the single unit [r].  [prev] records that the previous
    unit belonged to the run being replaced. *)
Fixpoint replace_runs (p : N -> bool) (r : N) (prev : bool) (s : jsstring)
  : jsstring :=
  match s with
  | [] => []
  | c :: s' =>
      if p c
      then if prev then replace_runs p r true s'
           else r :: replace_runs p r true s'
      else c :: replace_runs p r false s'
  end.

(** [s.replace(/^-|-$/g, '')]: one hyphen off the front, and one off the
    end of what is left. *)
Definition strip_leading (s : jsstring) : jsstring :=
  match s with
  | [] => []
  | c :: s' => if is_hyphen c then s' else s
  end.

Fixpoint strip_trailing (s : jsstring) : jsstring :=
  match s with
  | [] => []
  | c :: s' =>
      match s' with
      | [] => if is_hyphen c then [] else [c]
      | _ :: _ => c :: strip_trailing s'
      end
  end.

(** [String.prototype.toLowerCase] on strings of ASCII code units:
    [A]-[Z] go to [a]-[z], every other unit is unchanged. *)
Definition lower_unit (c : N) : N :=
  if is_upper_AZ c then (c + 32)%N else c.

Definition asciiLower (s : jsstring) : jsstring := map lower_unit s.

Definition is_ascii (s : jsstring) : Prop := Forall (fun c => (c < 128)%N) s.

(** What the development assumes of the host's [toLowerCase]: its value
    on ASCII strings.  Nothing is assumed on other strings. *)
Definition lowers_ascii (toLowerCase : jsstring -> jsstring) : Prop :=
  forall s, is_ascii s -> toLowerCase s = asciiLower s.

(** The decimal rendering of a counter inside a template literal. *)
Definition ofNat (n : nat) : jsstring :=
  js (NilEmpty.string_of_uint (Nat.to_uint n)).

End JsString.

Import JsString.

(** ** [generateSlug] (models/content.js) *)

Section Slug.

(** The host's [String.prototype.toLowerCase]. *)
Variable toLowerCase : jsstring -> jsstring.

Definition generateSlug (title : jsstring) : jsstring :=
  strip_trailing
    (strip_leading
       (replace_runs is_hyphen hyphen false
          (replace_runs is_space hyphen false
             (filter is_kept
                (trim (toLowerCase title)))))).

End Slug.

(** The output format the slug is meant to have. *)
Definition matches_slug_star (s : jsstring) : bool := forallb is_slug_char s.

Definition matches_slug_plus (s : jsstring) : bool :=
  truthy s && forallb is_slug_char s.

Fixpoint no_double_hyphen (s : jsstring) : bool :=
  match s with
  | [] => true
  | c :: t =>
      match t with
      | [] => true
      | d :: _ => negb (is_hyphen c && is_hyphen d) && no_double_hyphen t
      end
  end.

Definition head_not_hyphen (s : jsstring) : bool :=
  match s with [] => true | c :: _ => negb (is_hyphen c) end.

Fixpoint last_not_hyphen (s : jsstring) : bool :=
  match s with
  | [] => true
  | c :: t => match t with [] => negb (is_hyphen c) | _ :: _ => last_not_hyphen t end
  end.


(** ** Outcomes of repository calls

    Every repository method either resolves with a value or rejects with
    an error.  [OutOfFuel] is the third outcome of the fuelled model of
    the one unbounded loop, [ensureUniqueSlug]; it is shown below never
    to occur. *)

Inductive error :=
| TitleRequired                  (* 'Title is required' *)
| ValidationError (paths : list string) (* schema validators failed on [paths] *)
| DuplicateKey (path : string)    (* a unique index rejected the write *)
| DocumentNotFound                (* 'Document not found' *)
| SettingNotFound                 (* `Setting '${key}' not found` *)
| InvalidSettingValue             (* `Invalid value for setting '${key}'` *)
| InvalidRegExp                   (* [new RegExp(pattern)] threw *)
| TypeError.                      (* a property of [undefined] was used *)

Inductive outcome (A : Type) :=
| Ok (a : A)
| Throw (e : error)
| OutOfFuel.

Arguments Ok {A} a.
Arguments Throw {A} e.
Arguments OutOfFuel {A}.

Definition bind {A B} (m : outcome A) (k : A -> outcome B) : outcome B :=
  match m with
  | Ok a => k a
  | Throw e => Throw e
  | OutOfFuel => OutOfFuel
  end.

Notation "x <- m ;; k" := (bind m (fun x => k))
  (at level 61, m at next level, right associativity).

Definition succeeded {A} (m : outcome A) : bool :=
  match m with Ok _ => true | _ => false end.

Definition failed {A} (m : outcome A) : bool :=
  match m with Throw _ => true | _ => false end.

(** ** The content collection (models/schemas/Content.js, models/content.js,
    models/base.js) *)

Module Content.

Inductive ctype := page | blog | service | product | custom.
Inductive cstatus := draft | published | archived | scheduled.
Inductive cvisibility := vpublic | vprivate | vprotected.

Record Author := mkAuthor {
  author_id : jsstring;
  author_name : jsstring;
  author_email : jsstring }.

(** The [timestamps] sub-document; a date is its millisecond count and an
    unset date is [None]. *)
Record Timestamps := mkTimestamps {
  created_at : option Z;
  updated_at : option Z;
  published_at : option Z }.

(** A stored content document, restricted to the paths the repository
    methods below read or write.  A stored document has its [timestamps]
    sub-document: [insert] stores no document without one. *)
Record Doc := mkDoc {
  ID : jsstring;
  type : ctype;
  title : jsstring;
  slug : jsstring;
  content : option jsstring;
  status : cstatus;
  visibility : cvisibility;
  author : option Author;
  timestamps : Timestamps }.

Definition Collection := list Doc.

(** The object handed to [insert]: every property may be absent, also
    the [timestamps] object and each date in it.  [ID] is left to its
    schema default. *)
Record Data := mkData {
  d_type : option ctype;
  d_title : option jsstring;
  d_slug : option jsstring;
  d_content : option jsstring;
  d_status : option cstatus;
  d_visibility : option cvisibility;
  d_author : option Author;
  d_timestamps : option Timestamps }.

(** The [$set] object handed to [update]. *)
Record Patch := mkPatch {
  p_title : option jsstring;
  p_slug : option jsstring;
  p_status : option cstatus;
  p_published_at : option Z }.

Definition status_eqb (a b : cstatus) : bool :=
  match a, b with
  | draft, draft | published, published
  | archived, archived | scheduled, scheduled => true
  | _, _ => false
  end.

(** Truthiness of an optional string property ([!data.slug]). *)
Definition given (o : option jsstring) : bool :=
  match o with Some s => truthy s | None => false end.

Definition set_timestamps (d : Doc) (t : Timestamps) : Doc :=
  mkDoc (ID d) (type d) (title d) (slug d) (content d) (status d)
        (visibility d) (author d) t.

Definition set_status (d : Doc) (s : cstatus) : Doc :=
  mkDoc (ID d) (type d) (title d) (slug d) (content d) s
        (visibility d) (author d) (timestamps d).

Definition set_published_at (d : Doc) (t : option Z) : Doc :=
  set_timestamps d
    (mkTimestamps (created_at (timestamps d)) (updated_at (timestamps d)) t).

(** *** base.js: [findOne], [findById] *)

Definition findOne (q : Doc -> bool) (coll : Collection) : option Doc :=
  find q coll.

Definition findById (id : jsstring) (coll : Collection) : option Doc :=
  findOne (fun d => eqb (ID d) id) coll.

(** [`${baseSlug}-${counter}`] *)
Definition suffixed (baseSlug : jsstring) (counter : nat) : jsstring :=
  baseSlug ++ hyphen :: ofNat counter.

(** What is assumed of the host's [toLowerCase] where a base slug is
    arbitrary: a hyphen and decimal digits at the end of a string stay
    as they are and do not change how the rest is lowered. *)
Definition keeps_suffix (toLowerCase : jsstring -> jsstring) : Prop :=
  forall s n, toLowerCase (suffixed s n) = suffixed (toLowerCase s) n.

Section Host.

(** The host's [String.prototype.toLowerCase]; the schema's
    [lowercase: true] setter on [slug] applies it to a value assigned to
    the path and to the operand of a query on the path. *)
Variable toLowerCase : jsstring -> jsstring.

(** *** [ensureUniqueSlug]

    The query [{ slug }], extended by [ID: { $ne: excludeID }] when
    [excludeID] is truthy.  The stored slug is compared with the lowered
    operand. *)
Definition slug_query (s : jsstring) (excludeID : option jsstring) (d : Doc)
  : bool :=
  eqb (slug d) (toLowerCase s) &&
  (if given excludeID
   then match excludeID with Some id => negb (eqb (ID d) id) | None => true end
   else true).

(** The [while (true)] loop, one lookup per unit of fuel; the state is the
    pair of locals [slug] and [counter].  The counter is a natural
    number: a JavaScript number counts exactly far beyond the size of
    any collection. *)
Fixpoint ensureUniqueSlug_loop (fuel : nat) (coll : Collection)
  (baseSlug : jsstring) (excludeID : option jsstring)
  (slug : jsstring) (counter : nat) : outcome jsstring :=
  match fuel with
  | O => OutOfFuel
  | S fuel' =>
      match findOne (slug_query slug excludeID) coll with
      | None => Ok slug
      | Some _ =>
          ensureUniqueSlug_loop fuel' coll baseSlug excludeID
            (suffixed baseSlug counter) (S counter)
      end
  end.

(** One lookup more than there are documents suffices
    ([ensureUniqueSlug_terminates] below). *)
Definition ensureUniqueSlug (coll : Collection) (baseSlug : jsstring)
  (excludeID : option jsstring) : outcome jsstring :=
  ensureUniqueSlug_loop (S (List.length coll)) coll baseSlug excludeID
    baseSlug 1.

(** *** Schema validators and hooks (models/schemas/Content.js)

    [required] on a string path rejects the empty string; [match] is the
    pattern [^[a-z0-9-]+$]; the author sub-document requires its three
    paths.  All failing paths are reported together. *)

Definition check (ok : bool) (path : string) : list string :=
  if ok then [] else [path].

Definition author_errors (a : option Author) : list string :=
  match a with
  | None => ["author"%string]
  | Some au =>
      check (truthy (author_id au)) "author.id"
      ++ check (truthy (author_name au)) "author.name"
      ++ check (truthy (author_email au)) "author.email"
  end.

Definition validation_errors (d : Doc) : list string :=
  check (truthy (ID d)) "ID"
  ++ check (truthy (title d) && (JsString.length (title d) <=? 200)) "title"
  ++ check (matches_slug_plus (slug d)) "slug"
  ++ check (negb (status_eqb (status d) published) || given (content d))
       "content"
  ++ author_errors (author d).

Definition validate (d : Doc) : outcome unit :=
  match validation_errors d with
  | [] => Ok tt
  | paths => Throw (ValidationError paths)
  end.

(** [ContentSchema.pre('save')] *)
Definition pre_save (isNew : bool) (now : Z) (d : Doc) : Doc :=
  let t := timestamps d in
  set_timestamps d
    (mkTimestamps
       (if isNew then Some now else created_at t)
       (Some now)
       (match published_at t with
        | None => if status_eqb (status d) published then Some now else None
        | Some p => Some p
        end)).

Fixpoint replace_first (q : Doc -> bool) (f : Doc -> Doc) (coll : Collection)
  : Collection :=
  match coll with
  | [] => []
  | d :: rest => if q d then f d :: rest else d :: replace_first q f rest
  end.

(** *** base.js: [insert] is [new this.model(data)] then [save()]

    The new document has a [timestamps] sub-document only when [data]
    has one; its [created_at] and [updated_at] then default to the
    current time.  Validation, which looks at no path of [timestamps],
    comes first; the save hook follows and assigns to
    [this.timestamps.created_at], which throws when the sub-document is
    missing. *)

Definition or_now (now : Z) (o : option Z) : option Z :=
  match o with Some t => Some t | None => Some now end.

Definition base_insert (now : Z) (newID : jsstring) (coll : Collection)
  (ty : ctype) (ti sl : jsstring) (co : option jsstring) (st : cstatus)
  (vi : cvisibility) (au : option Author) (ts : option Timestamps)
  : outcome (Doc * Collection) :=
  let construct t := mkDoc newID ty ti (toLowerCase sl) co st vi au t in
  match ts with
  | None =>
      _ <- validate (construct (mkTimestamps None None None)) ;;
      Throw TypeError
  | Some t =>
      let d := construct (mkTimestamps (or_now now (created_at t))
                            (or_now now (updated_at t)) (published_at t)) in
      _ <- validate d ;;
      let d' := pre_save true now d in
      if existsb (fun e => eqb (ID e) (ID d')) coll
      then Throw (DuplicateKey "ID")
      else if existsb (fun e => eqb (slug e) (slug d')) coll
      then Throw (DuplicateKey "slug")
      else Ok (d', coll ++ [d'])
  end.

(** *** content.js: [insert] *)

Definition insert (now : Z) (newID : jsstring) (coll : Collection)
  (data : Data) : outcome (Doc * Collection) :=
  let ty := match d_type data with Some t => t | None => page end in
  let st := match d_status data with Some s => s | None => draft end in
  let vi := match d_visibility data with Some v => v | None => vpublic end in
  match d_title data with
  | None => Throw TitleRequired
  | Some ti =>
      if negb (truthy ti) then Throw TitleRequired
      else
        let slug0 :=
          match d_slug data with
          | Some s => if truthy s then s else generateSlug toLowerCase ti
          | None => generateSlug toLowerCase ti
          end in
        slug1 <- ensureUniqueSlug coll slug0 None ;;
        base_insert now newID coll ty ti slug1 (d_content data) st vi
          (d_author data) (d_timestamps data)
  end.

(** *** base.js: [update] is [findOneAndUpdate({ ID }, { $set: data },
    { new: true, runValidators: true })]

    The update validators run on the paths being set; no [save] hook
    runs. *)

Definition patch_errors (p : Patch) : list string :=
  match p_title p with
  | Some t => check (truthy t && (JsString.length t <=? 200)) "title"
  | None => []
  end
  ++ match p_slug p with
     | Some s => check (matches_slug_plus (toLowerCase s)) "slug"
     | None => []
     end.

Definition apply_patch (p : Patch) (d : Doc) : Doc :=
  mkDoc (ID d) (type d)
    (match p_title p with Some t => t | None => title d end)
    (match p_slug p with Some s => toLowerCase s | None => slug d end)
    (content d)
    (match p_status p with Some s => s | None => status d end)
    (visibility d) (author d)
    (mkTimestamps (created_at (timestamps d)) (updated_at (timestamps d))
       (match p_published_at p with
        | Some t => Some t
        | None => published_at (timestamps d)
        end)).

Definition base_update (coll : Collection) (id : jsstring) (p : Patch)
  : outcome (Doc * Collection) :=
  match patch_errors p with
  | (_ :: _) as paths => Throw (ValidationError paths)
  | [] =>
      match findById id coll with
      | None => Throw DocumentNotFound
      | Some d =>
          let d' := apply_patch p d in
          if match p_slug p with
             | Some _ =>
                 existsb (fun e => eqb (slug e) (slug d')
                                   && negb (eqb (ID e) id)) coll
             | None => false
             end
          then Throw (DuplicateKey "slug")
          else Ok (d', replace_first (fun e => eqb (ID e) id)
                         (fun _ => d') coll)
      end
  end.

(** *** content.js: [update] *)

Definition set_patch_slug (p : Patch) (s : option jsstring) : Patch :=
  mkPatch (p_title p) s (p_status p) (p_published_at p).

Definition update (coll : Collection) (id : jsstring) (p : Patch)
  : outcome (Doc * Collection) :=
  p1 <- (match p_slug p with
         | Some s =>
             if truthy s
             then s' <- ensureUniqueSlug coll s (Some id) ;;
                  Ok (set_patch_slug p (Some s'))
             else Ok p
         | None => Ok p
         end) ;;
  p2 <- (match p_title p1 with
         | Some t =>
             if truthy t && negb (given (p_slug p1))
             then match findById id coll with
                  | Some existing =>
                      if negb (truthy (slug existing))
                      then s' <- ensureUniqueSlug coll
                                   (generateSlug toLowerCase t) (Some id) ;;
                           Ok (set_patch_slug p1 (Some s'))
                      else Ok p1
                  | None => Ok p1
                  end
             else Ok p1
         | None => Ok p1
         end) ;;
  base_update coll id p2.

(** *** content.js: [publishContent] *)

Definition publishContent (now : Z) (coll : Collection) (id : jsstring)
  : outcome (Doc * Collection) :=
  update coll id (mkPatch None None (Some published) (Some now)).

End Host.

(** *** Content.js: the instance method [publish]

    [this.status = 'published'; this.timestamps.published_at = new Date();
    return this.save()] on a document [d] loaded from the collection. *)

Definition save (now : Z) (coll : Collection) (d : Doc)
  : outcome (Doc * Collection) :=
  _ <- validate d ;;
  let d' := pre_save false now d in
  Ok (d', replace_first (fun e => eqb (ID e) (ID d')) (fun _ => d') coll).

Definition publish (now : Z) (coll : Collection) (d : Doc)
  : outcome (Doc * Collection) :=
  save now coll (set_published_at (set_status d published) (Some now)).

(** *** Vocabulary for the slug properties

    A document other than the excluded one carries the slug [s]; the
    exclusion applies when [excludeID] is a non-empty string. *)
Definition carried (coll : Collection) (excludeID : option jsstring)
  (s : jsstring) : Prop :=
  exists d, In d coll /\ slug d = s
            /\ (forall id, excludeID = Some id -> id <> [] -> ID d <> id).

(** A probe is in use when its lookup finds a document, that is when its
    lowered form is carried. *)
Definition in_use (toLowerCase : jsstring -> jsstring) (coll : Collection)
  (excludeID : option jsstring) (s : jsstring) : Prop :=
  carried coll excludeID (toLowerCase s).

(** The reading under which [ensureUniqueSlug] answers the base slug as
    soon as no other document carries that very string. *)
Definition returns_base_when_not_carried
  (toLowerCase : jsstring -> jsstring) : Prop :=
  forall coll s excludeID,
    ~ carried coll excludeID s ->
    ensureUniqueSlug toLowerCase coll s excludeID = Ok s.

(** *** Vocabulary for the publishing properties

    The reading under which publishing keeps a publication date that is
    already there, for the repository method and for the instance
    method. *)
Definition publishContent_keeps_date (toLowerCase : jsstring -> jsstring)
  : Prop :=
  forall now coll d t d' c',
    findById (ID d) coll = Some d ->
    published_at (timestamps d) = Some t ->
    publishContent toLowerCase now coll (ID d) = Ok (d', c') ->
    published_at (timestamps d') = Some t.

Definition publish_keeps_date : Prop :=
  forall now coll d t d' c',
    published_at (timestamps d) = Some t ->
    publish now coll d = Ok (d', c') ->
    published_at (timestamps d') = Some t.

Definition stamped (now : Z) (d : Doc) : Doc :=
  set_published_at (set_status d published) (Some now).

(** The content of the insertion scenario: a blog draft titled
    ["Hello World!"], with the author that the schema requires and the
    [timestamps] object that the save hook requires. *)
Definition hello_world (au : Author) (ts : Timestamps) : Data :=
  mkData (Some blog) (Some (js "Hello World!")) None None (Some draft) None
    (Some au) (Some ts).

(** The scenario's object as the specification writes it:
    [{ title: "Hello World!", type: "blog", status: "draft" }]. *)
Definition hello_world_bare : Data :=
  mkData (Some blog) (Some (js "Hello World!")) None None (Some draft) None
    None None.

(** [timestamps: {}] *)
Definition no_dates : Timestamps := mkTimestamps None None None.

Definition ann : Author :=
  mkAuthor (js "u1") (js "Ann") (js "ann@example.org").

(** A blog post published at time [1000]. *)
Definition article : Doc :=
  mkDoc (js "c1") blog (js "Hello") (js "hello") (Some (js "text"))
    published vpublic (Some ann)
    (mkTimestamps (Some 1000%Z) (Some 1000%Z) (Some 1000%Z)).

(** The probe sequence [base], [base-1], [base-2], ... *)
Definition probe (baseSlug : jsstring) (k : nat) : jsstring :=
  match k with
  | O => baseSlug
  | S _ => suffixed baseSlug k
  end.

(** The probes of [b] are looked up under pairwise distinct slugs. *)
Definition distinct_lookups (toLowerCase : jsstring -> jsstring)
  (b : jsstring) : Prop :=
  forall j k, toLowerCase (probe b j) = toLowerCase (probe b k) -> j = k.

(** An author whose three paths are filled in. *)
Definition complete (au : Author) : Prop :=
  author_id au <> [] /\ author_name au <> [] /\ author_email au <> [].

End Content.

(** ** The settings store (models/schemas/Settings.js, models/settings.js) *)

Module Settings.

(** A [Mixed] value.  Numbers are the integers the settings use; an object
    or array is known by its identity. *)
Inductive jsvalue :=
| VUndefined
| VNull
| VBool (b : bool)
| VNumber (z : Z)
| VString (s : jsstring)
| VObject (ref : nat).

Inductive stype := TString | TNumber | TBoolean | TObject | TArray.

Inductive category :=
| general | seo | social | email | security | appearance | analytics | custom.

Inductive access := public | admin | super_admin.

(** The [validation] sub-document.  [required] defaults to [false] and
    [options] to the empty array. *)
Record Validation := mkValidation {
  required : bool;
  min_length : option Z;
  max_length : option Z;
  pattern : option jsstring;
  options : list jsvalue }.

(** A setting record; the timestamps that the schema option
    [timestamps] maintains are not part of it. *)
Record Setting := mkSetting {
  key : jsstring;
  value : jsvalue;
  type : stype;
  cat : category;
  label : jsstring;
  description : option jsstring;
  default_value : option jsvalue;
  validation : option Validation;
  access_level : access;
  editable : bool;
  updated_by : option jsstring }.

Definition Collection := list Setting.

Definition stype_is_string (t : stype) : bool :=
  match t with TString => true | _ => false end.

Definition access_name (a : access) : jsstring :=
  match a with
  | public => js "public"
  | admin => js "admin"
  | super_admin => js "super_admin"
  end.

Definition category_name (c : category) : jsstring :=
  match c with
  | general => js "general" | seo => js "seo" | social => js "social"
  | email => js "email" | security => js "security"
  | appearance => js "appearance" | analytics => js "analytics"
  | custom => js "custom"
  end.

(** [value === null || value === undefined || value === ''] *)
Definition is_empty (v : jsvalue) : bool :=
  match v with
  | VNull | VUndefined => true
  | VString s => negb (truthy s)
  | _ => false
  end.

(** *** The comparison [==]

    [validation.options] is a Mongoose array, whose [includes] is
    [indexOf(obj) !== -1] and whose [indexOf] compares [obj == this[i]].
    The conversions that [==] applies to operands of different types
    belong to the host: [StringToNumber] gives the integer a string
    converts to ([None] when it converts to [NaN] or to a number that is
    not an integer), [ToPrimitive] the primitive value an object
    converts to. *)

Section LooseEquality.

Variable StringToNumber : jsstring -> option Z.
Variable ToPrimitive : nat -> jsvalue.

(** [ToNumber] of a boolean. *)
Definition bool_number (b : bool) : Z := if b then 1%Z else 0%Z.

(** A number against a primitive value. *)
Definition number_eq (x : Z) (p : jsvalue) : bool :=
  match p with
  | VNumber y => Z.eqb x y
  | VString s =>
      match StringToNumber s with Some y => Z.eqb x y | None => false end
  | VBool b => Z.eqb x (bool_number b)
  | VUndefined | VNull | VObject _ => false
  end.

(** [a == b] for primitive values: [null] and [undefined] equal each
    other and nothing else, strings compare unit by unit, and a number
    or a boolean on either side makes the comparison numeric. *)
Definition primitive_eq (a b : jsvalue) : bool :=
  match a, b with
  | (VUndefined | VNull), (VUndefined | VNull) => true
  | VNumber x, _ => number_eq x b
  | _, VNumber y => number_eq y a
  | VBool x, _ => number_eq (bool_number x) b
  | _, VBool y => number_eq (bool_number y) a
  | VString x, VString y => eqb x y
  | _, _ => false
  end.

(** [a == b]: two objects are equal when they are the same object; an
    object against [null] or [undefined] is not equal; an object
    against another primitive is converted first. *)
Definition loose_eq (a b : jsvalue) : bool :=
  match a, b with
  | VObject x, VObject y => Nat.eqb x y
  | VObject _, (VUndefined | VNull) | (VUndefined | VNull), VObject _ => false
  | VObject x, _ => primitive_eq (ToPrimitive x) b
  | _, VObject y => primitive_eq a (ToPrimitive y)
  | _, _ => primitive_eq a b
  end.

(** [options.includes(v)] *)
Definition includes (l : list jsvalue) (v : jsvalue) : bool :=
  existsb (fun o => loose_eq v o) l.

End LooseEquality.

(** Truthiness of an optional number: absent, or [0], is falsy. *)
Definition number_set (o : option Z) : bool :=
  match o with Some z => negb (Z.eqb z 0) | None => false end.

Definition findOne (k : jsstring) (coll : Collection) : option Setting :=
  find (fun s => eqb (key s) k) coll.

Section Host.

(** [new RegExp(pattern).test(value)]: [None] when the constructor throws
    on [pattern]. *)
Variable RegExp_test : jsstring -> jsstring -> option bool.

(** The conversions of [==]. *)
Variable StringToNumber : jsstring -> option Z.
Variable ToPrimitive : nat -> jsvalue.

(** *** [SettingsSchema.methods.validateValue] *)

Definition string_checks (val : Validation) (str : jsstring) : outcome bool :=
  let len := Z.of_nat (JsString.length str) in
  if number_set (min_length val)
     && match min_length val with Some m => Z.ltb len m | None => false end
  then Ok false
  else if number_set (max_length val)
     && match max_length val with Some m => Z.ltb m len | None => false end
  then Ok false
  else match pattern val with
       | Some pat =>
           if truthy pat
           then match RegExp_test pat str with
                | Some b => Ok b
                | None => Throw InvalidRegExp
                end
           else Ok true
       | None => Ok true
       end.

Definition validateValue (s : Setting) (v : jsvalue) : outcome bool :=
  match validation s with
  | None => Ok true
  | Some val =>
      if required val && is_empty v then Ok false
      else
        typed <- (match v with
                  | VString str =>
                      if stype_is_string (type s) then string_checks val str
                      else Ok true
                  | _ => Ok true
                  end) ;;
        if negb typed then Ok false
        else match options val with
             | [] => Ok true
             | (_ :: _) as opts =>
                 Ok (includes StringToNumber ToPrimitive opts v)
             end
  end.

(** *** settings.js: [getSetting], [setSetting] *)

Definition getSetting (coll : Collection) (k : jsstring) : jsvalue :=
  match findOne k coll with Some s => value s | None => VNull end.

(** What a path holds after an update that names it with the value [v]:
    a property whose value is [undefined] is left out of the update, so
    what was stored stays. *)
Definition written (v old : jsvalue) : jsvalue :=
  match v with VUndefined => old | _ => v end.

(** The update [{ value, updated_by: userId, updated_at }]; [updated_by]
    is [null] when no user is given. *)
Definition set_value (v : jsvalue) (userId : option jsstring) (s : Setting)
  : Setting :=
  mkSetting (key s) (written v (value s)) (type s) (cat s) (label s)
    (description s) (default_value s) (validation s) (access_level s)
    (editable s) userId.

Fixpoint update_first (k : jsstring) (f : Setting -> Setting)
  (coll : Collection) : Collection :=
  match coll with
  | [] => []
  | s :: rest =>
      if eqb (key s) k then f s :: rest else s :: update_first k f rest
  end.

Definition setSetting (coll : Collection) (k : jsstring) (v : jsvalue)
  (userId : option jsstring) : outcome (Setting * Collection) :=
  match findOne k coll with
  | None => Throw SettingNotFound
  | Some s =>
      ok <- validateValue s v ;;
      if negb ok then Throw InvalidSettingValue
      else Ok (set_value v userId s, update_first k (set_value v userId) coll)
  end.

End Host.

(** *** [SettingsSchema.statics.initializeDefaults] *)

Definition defaultSettings : list Setting :=
  [ mkSetting (js "site_title") (VString (js "My Website")) TString general
      (js "Site Title") (Some (js "The main title of your website")) None
      (Some (mkValidation true None (Some 100%Z) None [])) admin true None;
    mkSetting (js "site_description")
      (VString (js "A great website built with Express.js")) TString general
      (js "Site Description")
      (Some (js "A brief description of your website")) None
      (Some (mkValidation false None (Some 160%Z) None [])) admin true None;
    mkSetting (js "default_meta_description")
      (VString (js "Welcome to our website")) TString seo
      (js "Default Meta Description")
      (Some (js "Default meta description for pages without custom descriptions"))
      None
      (Some (mkValidation false None (Some 160%Z) None [])) admin true None;
    mkSetting (js "posts_per_page") (VNumber 10) TNumber general
      (js "Posts per Page")
      (Some (js "Number of posts to display per page"))
      (Some (VNumber 10))
      (Some (mkValidation true None None None [])) admin true None;
    mkSetting (js "enable_comments") (VBool true) TBoolean general
      (js "Enable Comments") (Some (js "Allow comments on blog posts"))
      (Some (VBool true)) None admin true None;
    mkSetting (js "smtp_settings") (VObject 0) TObject email
      (js "SMTP Settings") (Some (js "Email server configuration"))
      None None super_admin true None ].

(** [updateOne({ key }, { $setOnInsert: setting }, { upsert: true })] *)
Definition upsert_setOnInsert (coll : Collection) (s : Setting) : Collection :=
  match findOne (key s) coll with
  | Some _ => coll
  | None => coll ++ [s]
  end.

Definition initializeDefaults (coll : Collection) : Collection :=
  fold_left upsert_setOnInsert defaultSettings coll.

(** *** settings.js: [getSettingsByAccessLevel]

    [levels] is an object literal, so [levels[accessLevel]] also finds the
    members that every object inherits from [Object.prototype]; those are
    functions or objects, hence truthy, and the [|| ['public']] fallback
    is taken only when the lookup finds nothing at all. *)

Inductive property :=
| LevelArray (l : list jsstring)
| Inherited (name : jsstring).

Definition object_prototype_names : list jsstring :=
  map js [ "constructor"; "__proto__"; "hasOwnProperty"; "isPrototypeOf";
           "propertyIsEnumerable"; "toLocaleString"; "toString"; "valueOf";
           "__defineGetter__"; "__defineSetter__"; "__lookupGetter__";
           "__lookupSetter__" ]%string.

Definition levels_get (accessLevel : jsstring) : option property :=
  if eqb accessLevel (js "public") then Some (LevelArray [js "public"])
  else if eqb accessLevel (js "admin")
  then Some (LevelArray [js "public"; js "admin"])
  else if eqb accessLevel (js "super_admin")
  then Some (LevelArray [js "public"; js "admin"; js "super_admin"])
  else if existsb (eqb accessLevel) object_prototype_names
  then Some (Inherited accessLevel)
  else None.

Definition allowedLevels (accessLevel : jsstring) : property :=
  match levels_get accessLevel with
  | Some p => p
  | None => LevelArray [js "public"]
  end.

(** The filter [{ access_level: { $in: l } }]. *)
Definition level_in (l : list jsstring) (s : Setting) : bool :=
  existsb (eqb (access_name (access_level s))) l.

(** The order [{ category: 1, label: 1 }]: strings compare unit by unit. *)
Fixpoint str_leb (a b : jsstring) : bool :=
  match a, b with
  | [], _ => true
  | _ :: _, [] => false
  | x :: a', y :: b' =>
      if N.ltb x y then true
      else if N.eqb x y then str_leb a' b' else false
  end.

Definition setting_leb (s1 s2 : Setting) : bool :=
  let c1 := category_name (cat s1) in
  let c2 := category_name (cat s2) in
  if eqb c1 c2 then str_leb (label s1) (label s2) else str_leb c1 c2.

Fixpoint insert_sorted (s : Setting) (l : list Setting) : list Setting :=
  match l with
  | [] => [s]
  | h :: t => if setting_leb s h then s :: l else h :: insert_sorted s t
  end.

Definition sort (l : list Setting) : list Setting :=
  fold_right insert_sorted [] l.

Section Driver.

(** What the database layer answers when the [$in] operand is not an
    array; the source does not decide it. *)
Variable find_in_non_array : jsstring -> Collection -> outcome (list Setting).

Definition getSettingsByAccessLevel (coll : Collection)
  (accessLevel : jsstring) : outcome (list Setting) :=
  match allowedLevels accessLevel with
  | LevelArray l => Ok (sort (filter (level_in l) coll))
  | Inherited name => find_in_non_array name coll
  end.

End Driver.

(** *** The acceptance rule as the specification words it

    Accept when no validation record is attached; otherwise the value is
    non-empty whenever [required] is set, for a string-typed setting it
    satisfies [min_length], [max_length] and the pattern when those are
    given, and it is in [options] whenever that list is not empty.  A
    bound is read as given as soon as it is present in the record;
    containment is that of the array's own [includes]. *)
Definition spec_accepts (RegExp_test : jsstring -> jsstring -> option bool)
  (StringToNumber : jsstring -> option Z) (ToPrimitive : nat -> jsvalue)
  (s : Setting) (v : jsvalue) : Prop :=
  match validation s with
  | None => True
  | Some val =>
      (required val = true -> is_empty v = false)
      /\ (stype_is_string (type s) = true ->
          forall str, v = VString str ->
            (forall m, min_length val = Some m ->
               (m <= Z.of_nat (JsString.length str))%Z)
            /\ (forall m, max_length val = Some m ->
               (Z.of_nat (JsString.length str) <= m)%Z)
            /\ (forall pat, pattern val = Some pat ->
               RegExp_test pat str = Some true))
      /\ (options val <> [] ->
          includes StringToNumber ToPrimitive (options val) v = true)
  end.

(** The same rule with the guards the code has: a bound counts when it is
    present and not [0], a pattern when it is not the empty string. *)
Definition code_accepts (RegExp_test : jsstring -> jsstring -> option bool)
  (StringToNumber : jsstring -> option Z) (ToPrimitive : nat -> jsvalue)
  (s : Setting) (v : jsvalue) : Prop :=
  match validation s with
  | None => True
  | Some val =>
      (required val = true -> is_empty v = false)
      /\ (stype_is_string (type s) = true ->
          forall str, v = VString str ->
            (forall m, min_length val = Some m -> m <> 0%Z ->
               (m <= Z.of_nat (JsString.length str))%Z)
            /\ (forall m, max_length val = Some m -> m <> 0%Z ->
               (Z.of_nat (JsString.length str) <= m)%Z)
            /\ (forall pat, pattern val = Some pat -> pat <> [] ->
               RegExp_test pat str = Some true))
      /\ (options val <> [] ->
          includes StringToNumber ToPrimitive (options val) v = true)
  end.

(** The claim that ties [setSetting] to the rule as worded: on an
    existing key, the call fails exactly when the rule rejects. *)
Definition fails_iff_spec_rejects
  (RegExp_test : jsstring -> jsstring -> option bool)
  (StringToNumber : jsstring -> option Z) (ToPrimitive : nat -> jsvalue)
  : Prop :=
  forall coll k s v userId,
    findOne k coll = Some s ->
    (failed (setSetting RegExp_test StringToNumber ToPrimitive coll k v
               userId) = true
     <-> ~ spec_accepts RegExp_test StringToNumber ToPrimitive s v).

(** The defaults that [initializeDefaults] has to add to [coll]. *)
Definition absentb (coll : Collection) (d : Setting) : bool :=
  match findOne (key d) coll with None => true | Some _ => false end.

(** Which records each access level is meant to see. *)
Definition is_public (s : Setting) : bool :=
  match access_level s with public => true | _ => false end.

Definition is_public_or_admin (s : Setting) : bool :=
  match access_level s with super_admin => false | _ => true end.

Definition recognised (accessLevel : jsstring) : bool :=
  eqb accessLevel (js "public") || eqb accessLevel (js "admin")
  || eqb accessLevel (js "super_admin").

(** Sample data: a regular-expression oracle under which every pattern
    matches; a conversion that reads a string of decimal digits (the
    host's reads more strings than these) and one under which every
    object converts to ["[object Object]"]; a string setting whose
    [max_length] is [0], a setting with a list of numeric options, a
    public setting, and a driver that matches no document when [$in] is
    given something that is not an array. *)
Definition always_matches (pat str : jsstring) : option bool := Some true.

Fixpoint digits_value (acc : Z) (s : jsstring) : option Z :=
  match s with
  | [] => Some acc
  | c :: t =>
      if is_digit c then digits_value (10 * acc + (Z.of_N c - 48)) t
      else None
  end.

Definition decimal_digits (s : jsstring) : option Z :=
  match s with [] => None | _ :: _ => digits_value 0 s end.

Definition plain_object (ref : nat) : jsvalue :=
  VString (js "[object Object]").

Definition choice : Setting :=
  mkSetting (js "choice") (VNumber 1) TNumber custom (js "Choice") None None
    (Some (mkValidation false None None None
             [VNumber 1; VNumber 2; VNumber 3])) admin true None.

Definition zero_max : Setting :=
  mkSetting (js "code") (VString []) TString custom (js "Code") None None
    (Some (mkValidation false None (Some 0%Z) None [])) admin true None.

Definition theme : Setting :=
  mkSetting (js "theme") (VString (js "light")) TString appearance
    (js "Theme") None None None public true None.

Definition matches_nothing (name : jsstring) (coll : Collection)
  : outcome (list Setting) := Ok [].

End Settings.

(** ** Sessions (models/schemas/Settings.js, second schema) *)

Module Sessions.

Record Session := mkSession {
  session_id : jsstring;
  user_id : jsstring;
  ip_address : jsstring;
  user_agent : jsstring;
  created_at : Z;
  last_accessed : Z;
  expires_at : Z;
  is_active : bool }.

Definition Collection := list Session.

(** The argument of [createSession]; [expires_in] is in seconds. *)
Record SessionData := mkSessionData {
  d_session_id : option jsstring;
  d_user_id : option jsstring;
  d_ip_address : option jsstring;
  d_user_agent : option jsstring;
  d_expires_in : option Z }.

Definition day_ms : Z := 24 * 60 * 60 * 1000.

(** [30 * 24 * 60 * 60 * 1000] *)
Definition maxLifetime : Z := 30 * 24 * 60 * 60 * 1000.

Definition set_expires_at (s : Session) (e : Z) : Session :=
  mkSession (session_id s) (user_id s) (ip_address s) (user_agent s)
    (created_at s) (last_accessed s) e (is_active s).

(** [SessionsSchema.pre('save')] *)
Definition pre_save (s : Session) : Session :=
  let maxExpiry := (created_at s + maxLifetime)%Z in
  if (maxExpiry <? expires_at s)%Z then set_expires_at s maxExpiry else s.

Definition str_or_empty (o : option jsstring) : jsstring :=
  match o with Some s => s | None => [] end.

Definition required_errors (d : SessionData) : list string :=
  Content.check (Content.given (d_session_id d)) "session_id"
  ++ Content.check (Content.given (d_user_id d)) "user_id"
  ++ Content.check (Content.given (d_ip_address d)) "ip_address"
  ++ Content.check (Content.given (d_user_agent d)) "user_agent".

(** [SessionsSchema.statics.createSession].  [t0] is the value of
    [Date.now()] read in the body; [t1] is the later read that fills in
    the schema defaults of [created_at] and [last_accessed] when
    [this.create] builds the document. *)
Definition createSession (t0 t1 : Z) (coll : Collection) (d : SessionData)
  : outcome (Session * Collection) :=
  let expires_in :=
    match d_expires_in d with Some e => e | None => 86400%Z end in
  let expires_at := (t0 + expires_in * 1000)%Z in
  match required_errors d with
  | (_ :: _) as paths => Throw (ValidationError paths)
  | [] =>
      let s := pre_save
                 (mkSession (str_or_empty (d_session_id d))
                    (str_or_empty (d_user_id d))
                    (str_or_empty (d_ip_address d))
                    (str_or_empty (d_user_agent d))
                    t1 t1 expires_at true) in
      if existsb (fun e => eqb (session_id e) (session_id s)) coll
      then Throw (DuplicateKey "session_id")
      else Ok (s, coll ++ [s])
  end.

(** The reading under which a lifetime of more than thirty days is cut
    to exactly [created_at] plus thirty days, and a shorter one is kept
    as requested. *)
Definition clamps_to_thirty_days : Prop :=
  forall t0 t1 e coll d s c',
    (t0 <= t1)%Z ->
    d_expires_in d = Some e ->
    createSession t0 t1 coll d = Ok (s, c') ->
    ((e * 1000 <= maxLifetime)%Z -> expires_at s = (t0 + e * 1000)%Z)
    /\ ((maxLifetime < e * 1000)%Z ->
        expires_at s = (created_at s + maxLifetime)%Z).

(** A request for a forty-day session, and one for thirty days and one
    second. *)
Definition forty_days : SessionData :=
  mkSessionData (Some (js "s1")) (Some (js "u1")) (Some (js "10.0.0.1"))
    (Some (js "curl")) (Some (40 * 24 * 3600)%Z).

Definition thirty_days_and_a_second : SessionData :=
  mkSessionData (Some (js "s1")) (Some (js "u1")) (Some (js "10.0.0.1"))
    (Some (js "curl")) (Some (30 * 24 * 3600 + 1)%Z).

End Sessions.

(** ** Users (models/user.js and the user schema) *)

Module Users.

Inductive ustatus := active | inactive | suspended | pending.

(** A user document, restricted to the paths that email verification
    reads or writes. *)
Record User := mkUser {
  ID : jsstring;
  username : jsstring;
  email : jsstring;
  status : ustatus;
  email_verified_at : option Z;
  email_verification_token : option jsstring }.

Definition Collection := list User.

Definition findById (id : jsstring) (coll : Collection) : option User :=
  find (fun u => eqb (ID u) id) coll.

Fixpoint update_first (id : jsstring) (f : User -> User) (coll : Collection)
  : Collection :=
  match coll with
  | [] => []
  | u :: rest =>
      if eqb (ID u) id then f u :: rest else u :: update_first id f rest
  end.

(** base.js [update] with the [$set] object of user.js [verifyEmail]:
    [{ email_verified_at: new Date(), email_verification_token: null,
       status: 'active' }]. *)
Definition set_verified_active (now : Z) (u : User) : User :=
  mkUser (ID u) (username u) (email u) active (Some now) None.

Definition verifyEmail (now : Z) (coll : Collection) (userId : jsstring)
  : outcome (User * Collection) :=
  match findById userId coll with
  | None => Throw DocumentNotFound
  | Some u =>
      Ok (set_verified_active now u,
          update_first userId (set_verified_active now) coll)
  end.

(** [UserSchema.methods.verifyEmail], on a loaded document. *)
Definition methods_verifyEmail (now : Z) (u : User) : User :=
  mkUser (ID u) (username u) (email u)
    (match status u with pending => active | s => s end)
    (Some now) None.

(** A suspended account with a verification token still pending. *)
Definition suspended_user : User :=
  mkUser (js "u9") (js "mallory") (js "mallory@example.org") suspended None
    (Some (js "token")).

End Users.

From Stdlib Require Sorted.

(** ** Further outcomes

    The remaining repository methods reject with messages of their own;
    [Base] carries the errors declared above. *)

Inductive failure :=
| Base (e : error)
| NoDefaultValue          (* `Setting '${key}' has no default value` *)
| SettingExists           (* `Setting '${key}' already exists` *)
| SettingFieldsRequired   (* 'Key, label, type, and category are required' *)
| OverwriteDisabled       (* 'Setting exists and overwrite disabled' *)
| CredentialsRequired     (* 'Username, email, and password are required' *)
| UsernameExists          (* 'Username already exists' *)
| EmailExists             (* 'Email already exists' *)
| NegativeSkip.           (* the database rejects a negative [skip] *)

Inductive attempt (A : Type) :=
| Done (a : A)
| Failed (f : failure).

Arguments Done {A} a.
Arguments Failed {A} f.

(** ** The generic repository (models/base.js) *)

Module Repository.

Section Generic.

Variable A : Type.

(** Insertion sort by a comparison, the order a [sort] option asks
    for. *)
Fixpoint insert_by (leb : A -> A -> bool) (x : A) (l : list A) : list A :=
  match l with
  | [] => [x]
  | h :: t => if leb x h then x :: l else h :: insert_by leb x t
  end.

Definition sort_by (leb : A -> A -> bool) (l : list A) : list A :=
  fold_right (insert_by leb) [] l.

(** [getlist(query, { sort, skip, limit })]: [skip] and [limit] are applied
    only when truthy, so [0] (like the default [null] of [limit]) leaves
    the list as it is. *)
Definition getlist (query : A -> bool) (sort : list A -> list A)
  (skip limit : nat) (coll : list A) : list A :=
  let r := sort (filter query coll) in
  let r := if skip =? 0 then r else skipn skip r in
  if limit =? 0 then r else firstn limit r.

(** [count(query)] *)
Definition count (query : A -> bool) (coll : list A) : nat :=
  List.length (filter query coll).

(** The [pagination] object.  [total_pages] is [None] when
    [Math.ceil(total / limit)] is not a finite number, that is when
    [limit] is [0]. *)
Record Pagination := mkPagination {
  current_page : nat;
  total_pages : option nat;
  total_documents : nat;
  per_page : nat;
  has_next_page : bool;
  has_prev_page : bool }.

(** [Math.ceil(total / limit)] for a positive [limit]. *)
Definition ceil_div (total limit : nat) : nat := (total + limit - 1) / limit.

(** [paginate(query, { page, limit, sort })].  [skip] is
    [(page - 1) * limit], which is negative for page [0] and a positive
    limit.  With limit [0] the quotient is [Infinity] for a non-empty
    result and [NaN] for an empty one, and [page < NaN] is false. *)
Definition paginate (query : A -> bool) (sort : list A -> list A)
  (page limit : nat) (coll : list A) : attempt (list A * Pagination) :=
  if (page =? 0) && negb (limit =? 0) then Failed NegativeSkip
  else
    let skip := (page - 1) * limit in
    let documents := getlist query sort skip limit coll in
    let total := count query coll in
    Done (documents,
          mkPagination page
            (if limit =? 0 then None else Some (ceil_div total limit))
            total limit
            (if limit =? 0 then negb (total =? 0)
             else page <? ceil_div total limit)
            (1 <? page)).

(** The [documents] of an answer of [paginate]. *)
Definition documents (r : attempt (list A * Pagination)) : list A :=
  match r with Done (d, _) => d | Failed _ => [] end.

End Generic.

End Repository.

(** ** More of the content repository (models/content.js) *)

Module ContentOps.
Import Content.

Definition type_eqb (a b : ctype) : bool :=
  match a, b with
  | page, page | blog, blog | service, service
  | product, product | custom, custom => true
  | _, _ => false
  end.

(** [findBySlug]: the operand of the query goes through the schema's
    [lowercase] setter. *)
Definition findBySlug (toLowerCase : jsstring -> jsstring)
  (coll : Collection) (s : jsstring) : option Doc :=
  findOne (fun d => eqb (slug d) (toLowerCase s)) coll.

(** [archiveContent] *)
Definition archiveContent (toLowerCase : jsstring -> jsstring)
  (coll : Collection) (id : jsstring) : outcome (Doc * Collection) :=
  update toLowerCase coll id (mkPatch None None (Some archived) None).

(** base.js [remove]: [findOneAndDelete({ ID })] *)
Fixpoint remove_first (q : Doc -> bool) (coll : Collection) : Collection :=
  match coll with
  | [] => []
  | d :: rest => if q d then rest else d :: remove_first q rest
  end.

Definition remove (coll : Collection) (id : jsstring)
  : outcome (Doc * Collection) :=
  match findById id coll with
  | None => Throw DocumentNotFound
  | Some d => Ok (d, remove_first (fun e => eqb (ID e) id) coll)
  end.

(** The virtual [url] *)
Definition url (d : Doc) : jsstring :=
  match type d with
  | blog => js "/blog/" ++ slug d
  | _ => js "/" ++ slug d
  end.

(** The order [{ 'timestamps.published_at': -1 }]: later dates first, an
    unset date after every date. *)
Definition date_geb (a b : option Z) : bool :=
  match a, b with
  | _, None => true
  | None, Some _ => false
  | Some x, Some y => (y <=? x)%Z
  end.

Definition newest_published_first (l : list Doc) : list Doc :=
  Repository.sort_by
    (fun a b => date_geb (published_at (timestamps a))
                  (published_at (timestamps b))) l.

Definition is_published (d : Doc) : bool := status_eqb (status d) published.

(** [findPublished], [findByType], with no options of the caller's. *)
Definition findPublished (coll : Collection) : list Doc :=
  Repository.getlist is_published newest_published_first 0 0 coll.

Definition findByType (ty : ctype) (coll : Collection) : list Doc :=
  Repository.getlist (fun d => type_eqb (type d) ty && is_published d)
    newest_published_first 0 0 coll.

(** [getPublishedPaginated], [getByTypePaginated] *)
Definition getPublishedPaginated (page limit : nat) (coll : Collection)
  : attempt (list Doc * Repository.Pagination) :=
  Repository.paginate is_published newest_published_first page limit coll.

Definition getByTypePaginated (ty : ctype) (page limit : nat)
  (coll : Collection) : attempt (list Doc * Repository.Pagination) :=
  Repository.paginate (fun d => type_eqb (type d) ty && is_published d)
    newest_published_first page limit coll.

(** What the unique indexes and the [slug] validators maintain. *)
Definition well_formed (coll : Collection) : Prop :=
  NoDup (map ID coll)
  /\ NoDup (map slug coll)
  /\ Forall (fun d => matches_slug_plus (slug d) = true) coll.

(** The slug format: only [[a-z0-9-]], no hyphen at either end, no two
    hyphens in a row. *)
Definition slug_shaped (s : jsstring) : bool :=
  forallb is_slug_char s && head_not_hyphen s && last_not_hyphen s
  && no_double_hyphen s.

(** Sample data: a draft page, two published pages with and without a
    publication date, and a blog post of another collection that has
    the slug of the article above. *)
Definition about_page : Doc :=
  mkDoc (js "c2") page (js "About") (js "about") None draft vpublic
    (Some ann) (mkTimestamps (Some 500%Z) (Some 500%Z) None).

Definition news_page : Doc :=
  mkDoc (js "c3") page (js "News") (js "news") (Some (js "text"))
    published vpublic (Some ann)
    (mkTimestamps (Some 600%Z) (Some 600%Z) (Some 2000%Z)).

Definition terms_page : Doc :=
  mkDoc (js "c4") page (js "Terms") (js "terms") (Some (js "text"))
    published vpublic (Some ann)
    (mkTimestamps (Some 700%Z) (Some 700%Z) None).

Definition reprint : Doc :=
  mkDoc (js "r1") blog (js "Hello again") (js "hello") (Some (js "more"))
    draft vprivate (Some ann)
    (mkTimestamps (Some 900%Z) (Some 900%Z) None).

End ContentOps.

(** ** More of the settings repository (models/settings.js) *)

Module SettingsOps.
Import Settings.

Definition category_eqb (a b : category) : bool :=
  eqb (category_name a) (category_name b).

(** A plain JavaScript object built by assignments [o[k] = v], as the
    list of its own properties in the order they were created.  An
    assignment to ["__proto__"] goes to the inherited setter and creates
    no own property. *)
Definition jsobject := list (jsstring * jsvalue).

Fixpoint obj_put (k : jsstring) (v : jsvalue) (o : jsobject) : jsobject :=
  match o with
  | [] => [(k, v)]
  | (k', v') :: rest =>
      if eqb k' k then (k', v) :: rest else (k', v') :: obj_put k v rest
  end.

Definition obj_set (k : jsstring) (v : jsvalue) (o : jsobject) : jsobject :=
  if eqb k (js "__proto__") then o else obj_put k v o.

(** The own property [k], if there is one. *)
Definition obj_own (k : jsstring) (o : jsobject) : option jsvalue :=
  match find (fun p => eqb (fst p) k) o with
  | Some p => Some (snd p)
  | None => None
  end.

(** [getPublicSettings] *)
Definition getPublicSettings (coll : Collection) : jsobject :=
  fold_left (fun o s => obj_set (key s) (value s) o)
    (Repository.getlist is_public sort 0 0 coll) [].

(** [resetSettingToDefault] *)
Definition set_only_value (v : jsvalue) (s : Setting) : Setting :=
  mkSetting (key s) v (type s) (cat s) (label s) (description s)
    (default_value s) (validation s) (access_level s) (editable s)
    (updated_by s).

Definition resetSettingToDefault (coll : Collection) (k : jsstring)
  : attempt (Setting * Collection) :=
  match findOne k coll with
  | None => Failed (Base SettingNotFound)
  | Some s =>
      match default_value s with
      | None | Some VUndefined => Failed NoDefaultValue
      | Some dv =>
          Done (set_only_value dv s, update_first k (set_only_value dv) coll)
      end
  end.

(** The argument of [createSetting] and the items of [importSettings]:
    an object whose [key] is a string and whose other properties may be
    absent. *)
Record SettingData := mkSettingData {
  sd_key : jsstring;
  sd_value : option jsvalue;
  sd_type : option stype;
  sd_category : option category;
  sd_label : option jsstring;
  sd_description : option jsstring;
  sd_default_value : option jsvalue;
  sd_validation : option Validation;
  sd_access_level : option access;
  sd_editable : option bool }.

(** [findOneAndUpdate({ key }, settingData)]: the properties that are
    present, and not [undefined], replace the stored ones; no validator
    or hook runs. *)
Definition overwrite_with (d : SettingData) (s : Setting) : Setting :=
  mkSetting (key s)
    (match sd_value d with
     | Some v => written v (value s)
     | None => value s
     end)
    (match sd_type d with Some t => t | None => type s end)
    (match sd_category d with Some c => c | None => cat s end)
    (match sd_label d with Some l => l | None => label s end)
    (match sd_description d with Some x => Some x | None => description s end)
    (match sd_default_value d with
     | Some VUndefined | None => default_value s
     | Some x => Some x
     end)
    (match sd_validation d with Some x => Some x | None => validation s end)
    (match sd_access_level d with Some a => a | None => access_level s end)
    (match sd_editable d with Some e => e | None => editable s end)
    (updated_by s).

(** One entry of the result lists of the batch operations. *)
Record BulkResult := mkBulkResult {
  br_key : jsstring;
  br_success : bool;
  br_result : option Setting;
  br_error : option error }.

Record ImportResult := mkImportResult {
  ir_key : jsstring;
  ir_success : bool;
  ir_error : option failure }.

(** The answer of [validateSettingValue]. *)
Record Verdict := mkVerdict {
  valid : bool;
  verdict_error : option error }.

Section Host.

Variable RegExp_test : jsstring -> jsstring -> option bool.
Variable StringToNumber : jsstring -> option Z.
Variable ToPrimitive : nat -> jsvalue.

(** [validateSettingValue]: never throws; an exception of
    [validateValue] is caught and reported. *)
Definition validateSettingValue (coll : Collection) (k : jsstring)
  (v : jsvalue) : Verdict :=
  match findOne k coll with
  | None => mkVerdict false (Some SettingNotFound)
  | Some s =>
      match validateValue RegExp_test StringToNumber ToPrimitive s v with
      | Ok isValid =>
          mkVerdict isValid
            (if isValid then None else Some InvalidSettingValue)
      | Throw e => mkVerdict false (Some e)
      | OutOfFuel => mkVerdict false None
      end
  end.

(** [bulkUpdateSettings]: the entries of [settingsData] in the order of
    [Object.entries], each tried on the store its predecessors left. *)
Fixpoint bulkUpdateSettings (coll : Collection)
  (entries : list (jsstring * jsvalue)) (userId : option jsstring)
  : list BulkResult * Collection :=
  match entries with
  | [] => ([], coll)
  | (k, v) :: rest =>
      match setSetting RegExp_test StringToNumber ToPrimitive coll k v
              userId with
      | Ok (s, coll') =>
          let (rs, c) := bulkUpdateSettings coll' rest userId in
          (mkBulkResult k true (Some s) None :: rs, c)
      | Throw e =>
          let (rs, c) := bulkUpdateSettings coll rest userId in
          (mkBulkResult k false None (Some e) :: rs, c)
      | OutOfFuel =>
          let (rs, c) := bulkUpdateSettings coll rest userId in
          (mkBulkResult k false None None :: rs, c)
      end
  end.

(** [createSetting]: the duplicate check, the required properties, then
    base.js [insert], whose save validates ([value] is required) and
    runs the [pre('save')] hook, which calls [validateValue] on the
    value. *)
Definition createSetting (coll : Collection) (d : SettingData)
  : attempt (Setting * Collection) :=
  match findOne (sd_key d) coll with
  | Some _ => Failed SettingExists
  | None =>
      match sd_label d, sd_type d, sd_category d with
      | Some l, Some t, Some c =>
          if negb (truthy (sd_key d)) || negb (truthy l)
          then Failed SettingFieldsRequired
          else
            match sd_value d with
            | None | Some VUndefined | Some VNull =>
                Failed (Base (ValidationError ["value"%string]))
            | Some v =>
                let s := mkSetting (sd_key d) v t c l (sd_description d)
                           (sd_default_value d) (sd_validation d)
                           (match sd_access_level d with
                            | Some a => a | None => admin end)
                           (match sd_editable d with
                            | Some e => e | None => true end)
                           None in
                match validateValue RegExp_test StringToNumber ToPrimitive
                        s v with
                | Ok true => Done (s, coll ++ [s])
                | Ok false => Failed (Base InvalidSettingValue)
                | Throw e => Failed (Base e)
                | OutOfFuel => Failed (Base InvalidSettingValue)
                end
            end
      | _, _, _ => Failed SettingFieldsRequired
      end
  end.

(** [importSettings] *)
Fixpoint importSettings (coll : Collection) (items : list SettingData)
  (overwriteExisting : bool) : list ImportResult * Collection :=
  match items with
  | [] => ([], coll)
  | d :: rest =>
      match findOne (sd_key d) coll with
      | Some _ =>
          if overwriteExisting
          then
            let (rs, c) :=
              importSettings
                (update_first (sd_key d) (overwrite_with d) coll) rest
                overwriteExisting in
            (mkImportResult (sd_key d) true None :: rs, c)
          else
            let (rs, c) := importSettings coll rest overwriteExisting in
            (mkImportResult (sd_key d) false (Some OverwriteDisabled) :: rs,
             c)
      | None =>
          match createSetting coll d with
          | Done (_, coll') =>
              let (rs, c) := importSettings coll' rest overwriteExisting in
              (mkImportResult (sd_key d) true None :: rs, c)
          | Failed f =>
              let (rs, c) := importSettings coll rest overwriteExisting in
              (mkImportResult (sd_key d) false (Some f) :: rs, c)
          end
      end
  end.

End Host.

(** [getSettingsGroupedByCategory]: the object [grouped], one array per
    category in the order the categories first occur. *)
Fixpoint group_push (s : Setting) (g : list (category * list Setting))
  : list (category * list Setting) :=
  match g with
  | [] => [(cat s, [s])]
  | (c, l) :: rest =>
      if category_eqb c (cat s) then (c, l ++ [s]) :: rest
      else (c, l) :: group_push s rest
  end.

Definition group_of (c : category) (g : list (category * list Setting))
  : option (list Setting) :=
  match find (fun p => category_eqb (fst p) c) g with
  | Some p => Some (snd p)
  | None => None
  end.

Definition getSettingsGroupedByCategory
  (driver : jsstring -> Collection -> outcome (list Setting))
  (coll : Collection) (accessLevel : jsstring)
  : outcome (list (category * list Setting)) :=
  settings <- getSettingsByAccessLevel driver coll accessLevel ;;
  Ok (fold_left (fun g s => group_push s g) settings []).

(** What the store keeps when every write goes through the checks: each
    value passes the validation of its own record. *)
Definition all_valid (RegExp_test : jsstring -> jsstring -> option bool)
  (StringToNumber : jsstring -> option Z) (ToPrimitive : nat -> jsvalue)
  (coll : Collection) : Prop :=
  Forall (fun s => validateValue RegExp_test StringToNumber ToPrimitive s
                     (value s) = Ok true) coll.

(** Sample data: a required setting whose default is the empty string,
    and a new setting to create. *)
Definition motto : Setting :=
  mkSetting (js "motto") (VString (js "hi")) TString general (js "Motto")
    None (Some (VString []))
    (Some (mkValidation true None None None [])) public true None.

End SettingsOps.

(** ** More of the session schema (models/schemas/Settings.js) *)

Module SessionOps.
Import Sessions.

Definition set_last_accessed (s : Session) (t : Z) : Session :=
  mkSession (session_id s) (user_id s) (ip_address s) (user_agent s)
    (created_at s) t (expires_at s) (is_active s).

Definition set_is_active (s : Session) (b : bool) : Session :=
  mkSession (session_id s) (user_id s) (ip_address s) (user_agent s)
    (created_at s) (last_accessed s) (expires_at s) b.

Fixpoint replace_first (sid : jsstring) (s' : Session) (coll : Collection)
  : Collection :=
  match coll with
  | [] => []
  | s :: rest =>
      if eqb (session_id s) sid then s' :: rest
      else s :: replace_first sid s' rest
  end.

(** [this.save()] on a loaded session: the [pre('save')] hook, then the
    write of the document. *)
Definition save (coll : Collection) (s : Session) : Session * Collection :=
  let s' := pre_save s in
  (s', replace_first (session_id s) s' coll).

(** The instance methods [touch], [destroy], [extend], [isExpired]. *)
Definition touch (now : Z) (coll : Collection) (s : Session)
  : Session * Collection :=
  save coll (set_last_accessed s now).

Definition destroy (coll : Collection) (s : Session) : Session * Collection :=
  save coll (set_is_active s false).

Definition extend (now additionalSeconds : Z) (coll : Collection)
  (s : Session) : Session * Collection :=
  save coll
    (set_last_accessed (set_expires_at s (now + additionalSeconds * 1000)%Z)
       now).

Definition isExpired (now : Z) (s : Session) : bool :=
  (expires_at s <? now)%Z.

(** The filter [{ is_active: true, expires_at: { $gt: new Date() } }] *)
Definition live (now : Z) (s : Session) : bool :=
  is_active s && (now <? expires_at s)%Z.

Definition recently_accessed_first (l : list Session) : list Session :=
  Repository.sort_by (fun a b => (last_accessed b <=? last_accessed a)%Z) l.

(** The static methods. *)
Definition findActiveByUser (now : Z) (coll : Collection) (userId : jsstring)
  : list Session :=
  recently_accessed_first
    (filter (fun s => eqb (user_id s) userId && live now s) coll).

Definition findBySessionId (now : Z) (coll : Collection)
  (sessionId : jsstring) : option Session :=
  find (fun s => eqb (session_id s) sessionId && live now s) coll.

Definition destroyAllUserSessions (coll : Collection) (userId : jsstring)
  : Collection :=
  map (fun s => if eqb (user_id s) userId && is_active s
                then set_is_active s false else s) coll.

Definition destroyExpiredSessions (now : Z) (coll : Collection) : Collection :=
  filter (fun s => negb (expires_at s <? now)%Z) coll.

Definition getUserSessionCount (now : Z) (coll : Collection)
  (userId : jsstring) : nat :=
  List.length (filter (fun s => eqb (user_id s) userId && live now s) coll).

Definition cleanupOldSessions (now olderThanDays : Z) (coll : Collection)
  : Collection :=
  let cutoffDate := (now - olderThanDays * 24 * 60 * 60 * 1000)%Z in
  filter (fun s => negb ((expires_at s <? now)%Z
                         || ((last_accessed s <? cutoffDate)%Z
                             && negb (is_active s)))) coll.

(** The application-level cap on a session's lifetime. *)
Definition capped (s : Session) : Prop :=
  (expires_at s <= created_at s + maxLifetime)%Z.

(** Sample data: a session created at [0] that expires at [5000]. *)
Definition short_session : Session :=
  mkSession (js "s1") (js "u1") (js "10.0.0.1") (js "curl") 0 0 5000 true.

End SessionOps.

(** ** More of the user repository (models/user.js) *)

Module UserOps.
Import Users.

(** The object handed to [insert].  [password_hash] and [salt] are
    checked for presence only; the stored document is the record
    [User]. *)
Record UserData := mkUserData {
  ud_username : option jsstring;
  ud_email : option jsstring;
  ud_password_hash : option jsstring;
  ud_salt : option jsstring;
  ud_status : option ustatus;
  ud_token : option jsstring }.

(** The schema validators of [username] and [email]. *)
Definition is_username_char (c : N) : bool := is_alnum c || N.eqb c 95.

Definition username_ok (s : jsstring) : bool :=
  (3 <=? JsString.length s) && (JsString.length s <=? 30)
  && forallb is_username_char s.

Definition is_at (c : N) : bool := N.eqb c 64.
Definition is_dot (c : N) : bool := N.eqb c 46.

(** [[^\s@]] *)
Definition is_address_char (c : N) : bool := negb (is_space c) && negb (is_at c).

Fixpoint before_at (s : jsstring) : jsstring :=
  match s with
  | [] => []
  | c :: t => if is_at c then [] else c :: before_at t
  end.

Fixpoint after_at (s : jsstring) : option jsstring :=
  match s with
  | [] => None
  | c :: t => if is_at c then Some t else after_at t
  end.

(** [/^[^\s@]+@[^\s@]+\.[^\s@]+$/]: one [@] with something before it, and
    after it a dot that is neither first nor last; no white space. *)
Definition email_ok (s : jsstring) : bool :=
  match after_at s with
  | None => false
  | Some domain =>
      truthy (before_at s)
      && forallb is_address_char (before_at s)
      && forallb is_address_char domain
      && match domain with
         | [] => false
         | _ :: t => existsb is_dot (removelast t)
         end
  end.

Definition user_validation_errors (u : User) (d : UserData) : list string :=
  Content.check (truthy (ID u)) "ID"
  ++ Content.check (username_ok (username u)) "username"
  ++ Content.check (email_ok (email u)) "email"
  ++ Content.check (Content.given (ud_password_hash d)) "password_hash"
  ++ Content.check (Content.given (ud_salt d)) "salt".

Definition str_or_empty (o : option jsstring) : jsstring :=
  match o with Some s => s | None => [] end.

Section Host.

Variable toLowerCase : jsstring -> jsstring.

(** What the [email] operand of a query is compared with: the operand
    after the schema's [lowercase] setter where Mongoose runs setters on
    query operands, the operand itself where it does not. *)
Variable emailOperand : jsstring -> jsstring.

(** user.js [insert].  [newID] and [newToken] are the random strings of
    the [ID] default and of the [pre('save')] hook. *)
Definition insert (newID newToken : jsstring) (coll : Collection)
  (d : UserData) : attempt (User * Collection) :=
  if negb (Content.given (ud_username d)) || negb (Content.given (ud_email d))
     || negb (Content.given (ud_password_hash d))
  then Failed CredentialsRequired
  else
    let un := str_or_empty (ud_username d) in
    let em := str_or_empty (ud_email d) in
    let conflict :=
      match find (fun u => eqb (username u) un
                           || eqb (email u) (emailOperand em)) coll with
      | Some existingUser =>
          if eqb (username existingUser) un then Some UsernameExists
          else if eqb (email existingUser) em then Some EmailExists
          else None
      | None => None
      end in
    match conflict with
    | Some f => Failed f
    | None =>
        let u := mkUser newID un (toLowerCase em)
                   (match ud_status d with Some s => s | None => pending end)
                   None (ud_token d) in
        match user_validation_errors u d with
        | (_ :: _) as paths => Failed (Base (ValidationError paths))
        | [] =>
            let u' := mkUser (ID u) (username u) (email u) (status u)
                        (email_verified_at u)
                        (if Content.given (ud_token d) then ud_token d
                         else Some newToken) in
            if existsb (fun e => eqb (ID e) (ID u')) coll
            then Failed (Base (DuplicateKey "ID"))
            else if existsb (fun e => eqb (username e) (username u')) coll
            then Failed (Base (DuplicateKey "username"))
            else if existsb (fun e => eqb (email e) (email u')) coll
            then Failed (Base (DuplicateKey "email"))
            else Done (u', coll ++ [u'])
        end
    end.

End Host.

(** base.js [update] with the [$set] object of
    [createEmailVerificationToken]. *)
Definition set_token (t : option jsstring) (u : User) : User :=
  mkUser (ID u) (username u) (email u) (status u) (email_verified_at u) t.

Definition base_update (coll : Collection) (userId : jsstring)
  (f : User -> User) : outcome (User * Collection) :=
  match findById userId coll with
  | None => Throw DocumentNotFound
  | Some u => Ok (f u, update_first userId f coll)
  end.

(** [createEmailVerificationToken]; [token] is the random string. *)
Definition createEmailVerificationToken (token : jsstring)
  (coll : Collection) (userId : jsstring) : outcome (jsstring * Collection) :=
  r <- base_update coll userId (set_token (Some token)) ;;
  Ok (token, snd r).

(** [findByEmailVerificationToken], for a string token. *)
Definition findByEmailVerificationToken (coll : Collection) (token : jsstring)
  : option User :=
  find (fun u => match email_verification_token u with
                 | Some t => eqb t token
                 | None => false
                 end) coll.

(** What the unique indexes maintain. *)
Definition unique_users (coll : Collection) : Prop :=
  NoDup (map ID coll) /\ NoDup (map username coll) /\ NoDup (map email coll).

(** Sample data. *)
Definition alice : User :=
  mkUser (js "u1") (js "alice") (js "alice@example.org") active (Some 10%Z)
    None.

End UserOps.

(** ** The media schema *)

Module Media.

Inductive usage_type :=
| featured_image | inline | attachment | gallery | thumbnail.

Inductive thumb_size := small | medium | large | xlarge.

(** The values of [processing.status]; [in_progress] is ['processing']. *)
Inductive processing_status := pending | in_progress | completed | failed.

Record Usage := mkUsage {
  content_id : jsstring;
  usage : usage_type }.

Record Thumbnail := mkThumbnail {
  size : thumb_size;
  thumb_url : jsstring }.

(** The [processing] sub-document.  Its [status] defaults to
    ['pending'] and is unset only when it was given as [null]. *)
Record Processing := mkProcessing {
  p_status : option processing_status;
  thumbnails : list Thumbnail;
  processed_at : option Z }.

(** A media document, restricted to the paths the methods below read or
    write.  The [processing] sub-document is there only when the
    document was given one. *)
Record Doc := mkDoc {
  filename : jsstring;
  file_extension : option jsstring;
  mime_type : jsstring;
  url : jsstring;
  used_in : list Usage;
  processing : option Processing }.

Definition usage_type_eqb (a b : usage_type) : bool :=
  match a, b with
  | featured_image, featured_image | inline, inline
  | attachment, attachment | gallery, gallery
  | thumbnail, thumbnail => true
  | _, _ => false
  end.

Definition size_eqb (a b : thumb_size) : bool :=
  match a, b with
  | small, small | medium, medium | large, large | xlarge, xlarge => true
  | _, _ => false
  end.

(** [usage.content_id === contentId && usage.usage_type === usageType] *)
Definition same_usage (contentId : jsstring) (usageType : usage_type)
  (u : Usage) : bool :=
  eqb (content_id u) contentId && usage_type_eqb (usage u) usageType.

Definition set_used_in (d : Doc) (l : list Usage) : Doc :=
  mkDoc (filename d) (file_extension d) (mime_type d) (url d) l
    (processing d).

Definition set_processing (d : Doc) (p : Processing) : Doc :=
  mkDoc (filename d) (file_extension d) (mime_type d) (url d) (used_in d)
    (Some p).

(** [addUsage] and [removeUsage], as the document they hand to [save],
    whose hook does not touch [used_in].  [usageType] ranges over the
    values of the schema's enum. *)
Definition addUsage (contentId : jsstring) (usageType : usage_type) (d : Doc)
  : Doc :=
  match find (same_usage contentId usageType) (used_in d) with
  | Some _ => d
  | None => set_used_in d (used_in d ++ [mkUsage contentId usageType])
  end.

Definition removeUsage (contentId : jsstring) (usageType : usage_type)
  (d : Doc) : Doc :=
  set_used_in d
    (filter (fun u => negb (same_usage contentId usageType u)) (used_in d)).

(** [s.startsWith(prefix)] *)
Fixpoint startsWith (s prefix : jsstring) : bool :=
  match prefix, s with
  | [], _ => true
  | p :: prefix', c :: s' => N.eqb c p && startsWith s' prefix'
  | _ :: _, [] => false
  end.

Definition isImage (d : Doc) : bool := startsWith (mime_type d) (js "image/").

(** [markProcessingComplete], as the document it hands to [save]: the
    first assignment, to [this.processing.status], throws when the
    document has no [processing]. *)
Definition markProcessingComplete (now : Z) (thumbs : list Thumbnail)
  (d : Doc) : outcome Doc :=
  match processing d with
  | None => Throw TypeError
  | Some _ =>
      Ok (set_processing d (mkProcessing (Some completed) thumbs (Some now)))
  end.

(** [getThumbnail]: [null] for a document that is not an image;
    otherwise [this.processing.thumbnails] is read, which throws when
    the document has no [processing]. *)
Definition getThumbnail (sz : thumb_size) (d : Doc)
  : outcome (option jsstring) :=
  if negb (isImage d) then Ok None
  else match processing d with
       | None => Throw TypeError
       | Some p =>
           match find (fun t => size_eqb (size t) sz) (thumbnails p) with
           | Some t => Ok (Some (thumb_url t))
           | None => Ok (Some (url d))
           end
       end.

(** [s.split('.')] and [Array.prototype.pop] on its result. *)
Fixpoint split_dots (s : jsstring) : list jsstring :=
  match s with
  | [] => [[]]
  | c :: t =>
      if N.eqb c 46 then [] :: split_dots t
      else match split_dots t with
           | seg :: rest => (c :: seg) :: rest
           | [] => [[c]]
           end
  end.

Definition pop (l : list jsstring) : jsstring := last l [].

(** [join('.')] *)
Fixpoint join_dots (l : list jsstring) : jsstring :=
  match l with
  | [] => []
  | [seg] => seg
  | seg :: rest => seg ++ 46%N :: join_dots rest
  end.

Section Host.

Variable toLowerCase : jsstring -> jsstring.

(** [MediaSchema.pre('save')].  Its first statement fills in
    [file_extension]; the assignment goes through the schema's
    [lowercase] setter, which lowers the value once more. *)
Definition derive_extension (d : Doc) : Doc :=
  if negb (Content.given (file_extension d)) && truthy (filename d)
  then
    let ext := pop (split_dots (filename d)) in
    if truthy ext && negb (eqb ext (filename d))
    then mkDoc (filename d) (Some (toLowerCase (toLowerCase ext)))
           (mime_type d) (url d) (used_in d) (processing d)
    else d
  else d.

(** Its second statement reads [this.processing.status] of a new image,
    which throws when the document has no [processing], and sets an
    unset status to ['pending']. *)
Definition pre_save (isNew : bool) (d : Doc) : outcome Doc :=
  let d1 := derive_extension d in
  if isNew && isImage d1
  then match processing d1 with
       | None => Throw TypeError
       | Some p =>
           match p_status p with
           | Some _ => Ok d1
           | None =>
               Ok (set_processing d1
                     (mkProcessing (Some pending) (thumbnails p)
                        (processed_at p)))
           end
       end
  else Ok d1.

End Host.

End Media.

(** * Properties *)

(** ** Strings *)

Lemma eqb_eq (a b : jsstring) : eqb a b = true <-> a = b.
Proof.
  revert b; induction a as [|x a IH]; intros [|y b]; simpl;
    try (split; [discriminate | intros [=]]); try tauto.
  rewrite andb_true_iff, N.eqb_eq, IH. split.
  - intros [-> ->]; reflexivity.
  - intros [= -> ->]; auto.
Qed.

Lemma eqb_refl (a : jsstring) : eqb a a = true.
Proof. apply eqb_eq; reflexivity. Qed.

Lemma eqb_neq (a b : jsstring) : eqb a b = false <-> a <> b.
Proof.
  destruct (eqb a b) eqn:E.
  - apply eqb_eq in E. split; [discriminate | contradiction].
  - split; auto. intros _ H. apply eqb_eq in H. congruence.
Qed.

Lemma is_hyphen_eq (c : N) : is_hyphen c = true <-> c = hyphen.
Proof. unfold is_hyphen, hyphen. apply N.eqb_eq. Qed.

Lemma js_inj (s t : string) : js s = js t -> s = t.
Proof.
  unfold js. intros H.
  rewrite <- (string_of_list_ascii_of_string s),
          <- (string_of_list_ascii_of_string t).
  f_equal.
  revert H. generalize (list_ascii_of_string s) (list_ascii_of_string t).
  induction l as [|a l IH]; intros [|b l']; simpl; intros [=]; auto.
  f_equal; auto.
  rewrite <- (ascii_N_embedding a), <- (ascii_N_embedding b). congruence.
Qed.

Lemma ofNat_inj (n m : nat) : ofNat n = ofNat m -> n = m.
Proof.
  unfold ofNat. intros H. apply js_inj in H.
  apply DecimalNat.Unsigned.to_uint_inj.
  assert (E : Some (Nat.to_uint n) = Some (Nat.to_uint m))
    by (rewrite <- !NilEmpty.usu, H; reflexivity).
  congruence.
Qed.

(** ** The format of generated slugs *)

Lemma slug_char_not_upper (c : N) :
  is_slug_char c = true -> is_upper_AZ c = false.
Proof.
  unfold is_slug_char, is_lower_az, is_digit, is_hyphen, is_upper_AZ.
  rewrite !orb_true_iff, !andb_true_iff, !N.leb_le, N.eqb_eq.
  intros H. apply andb_false_iff. rewrite !N.leb_gt. lia.
Qed.

Lemma kept_not_space_slug (c : N) :
  is_kept c = true -> is_space c = false -> is_slug_char c = true.
Proof.
  unfold is_kept, is_slug_char. intros H Hs. rewrite Hs in H.
  destruct (is_lower_az c), (is_digit c), (is_hyphen c); auto.
Qed.

Lemma filter_kept (s : jsstring) : forallb is_kept (filter is_kept s) = true.
Proof.
  induction s as [|c s IH]; simpl; auto.
  destruct (is_kept c) eqn:E; simpl; auto. rewrite E; auto.
Qed.

Lemma spaces_replaced_slug (s : jsstring) (prev : bool) :
  forallb is_kept s = true ->
  forallb is_slug_char (replace_runs is_space hyphen prev s) = true.
Proof.
  revert prev; induction s as [|c s IH]; intros prev H; simpl in *; auto.
  apply andb_true_iff in H as [Hc Hs].
  destruct (is_space c) eqn:E.
  - destruct prev; simpl; auto.
  - simpl. rewrite (kept_not_space_slug c Hc E); simpl; auto.
Qed.

Lemma hyphens_collapsed_slug (s : jsstring) (prev : bool) :
  forallb is_slug_char s = true ->
  forallb is_slug_char (replace_runs is_hyphen hyphen prev s) = true.
Proof.
  revert prev; induction s as [|c s IH]; intros prev H; simpl in *; auto.
  apply andb_true_iff in H as [Hc Hs].
  destruct (is_hyphen c) eqn:E.
  - destruct prev; simpl; auto.
  - simpl. rewrite Hc; simpl; auto.
Qed.

Lemma no_double_cons (x : N) (r : jsstring) :
  no_double_hyphen r = true ->
  is_hyphen x = false \/ head_not_hyphen r = true ->
  no_double_hyphen (x :: r) = true.
Proof.
  intros Hr H. destruct r as [|d r']; simpl in *; auto.
  rewrite Hr, andb_true_r. destruct H as [-> | H]; auto.
  rewrite negb_true_iff in H. rewrite H, andb_false_r. reflexivity.
Qed.

Lemma no_double_tail (x : N) (r : jsstring) :
  no_double_hyphen (x :: r) = true -> no_double_hyphen r = true.
Proof.
  destruct r as [|d r']; simpl; auto.
  intros H. apply andb_true_iff in H as [_ H]. exact H.
Qed.

Lemma hyphens_collapsed_no_double (s : jsstring) (prev : bool) :
  no_double_hyphen (replace_runs is_hyphen hyphen prev s) = true
  /\ (prev = true ->
      head_not_hyphen (replace_runs is_hyphen hyphen prev s) = true).
Proof.
  revert prev; induction s as [|c s IH]; intros prev; simpl; auto.
  destruct (is_hyphen c) eqn:E.
  - destruct prev.
    + apply IH.
    + split; [|discriminate].
      destruct (IH true) as [H1 H2]. apply no_double_cons; auto.
  - destruct (IH false) as [H1 _]. split.
    + apply no_double_cons; auto.
    + intros _. simpl. rewrite E. reflexivity.
Qed.

Lemma strip_leading_slug (s : jsstring) :
  forallb is_slug_char s = true -> forallb is_slug_char (strip_leading s) = true.
Proof.
  destruct s as [|c s]; simpl; auto.
  intros H. destruct (is_hyphen c); auto.
  apply andb_true_iff in H as [_ H]. exact H.
Qed.

Lemma strip_leading_no_double (s : jsstring) :
  no_double_hyphen s = true ->
  no_double_hyphen (strip_leading s) = true
  /\ head_not_hyphen (strip_leading s) = true.
Proof.
  destruct s as [|c s]; simpl strip_leading; auto.
  intros H. destruct (is_hyphen c) eqn:E.
  - split; [exact (no_double_tail _ _ H)|].
    destruct s as [|d s]; simpl in *; auto.
    rewrite E in H. simpl in H.
    apply andb_true_iff in H as [H _]. exact H.
  - split; auto. simpl. rewrite E. reflexivity.
Qed.

Lemma strip_trailing_slug (s : jsstring) :
  forallb is_slug_char s = true ->
  forallb is_slug_char (strip_trailing s) = true.
Proof.
  induction s as [|c s IH]; simpl; auto.
  intros H. apply andb_true_iff in H as [Hc Hs].
  destruct s as [|d s].
  - destruct (is_hyphen c); simpl; auto. rewrite Hc; auto.
  - change (forallb is_slug_char (c :: strip_trailing (d :: s)) = true).
    simpl forallb at 1. rewrite Hc. simpl. apply IH. exact Hs.
Qed.

Lemma strip_trailing_head (s : jsstring) :
  head_not_hyphen s = true -> head_not_hyphen (strip_trailing s) = true.
Proof.
  destruct s as [|c [|d s]]; simpl; auto.
  destruct (is_hyphen c) eqn:E; simpl; auto. rewrite E. auto.
Qed.

Lemma strip_trailing_no_double (s : jsstring) :
  no_double_hyphen s = true ->
  no_double_hyphen (strip_trailing s) = true
  /\ last_not_hyphen (strip_trailing s) = true.
Proof.
  induction s as [|c s IH]; simpl strip_trailing; auto.
  intros H. destruct s as [|d s].
  - destruct (is_hyphen c) eqn:E; simpl; auto. rewrite E; auto.
  - pose proof (no_double_tail _ _ H) as Ht.
    destruct (IH Ht) as [IH1 IH2].
    remember (strip_trailing (d :: s)) as r eqn:Er.
    destruct r as [|e r].
    + (* the tail was the single hyphen [d] *)
      destruct s as [|f s]; [|simpl in Er; discriminate].
      simpl in Er. destruct (is_hyphen d) eqn:Ed; [|discriminate].
      simpl in H. rewrite Ed, andb_true_r, andb_true_r in H.
      apply negb_true_iff in H. simpl. rewrite H. auto.
    + split; [|exact IH2].
      apply no_double_cons; auto.
      assert (e = d) as ->.
      { destruct s as [|f s]; simpl in Er.
        - destruct (is_hyphen d); inversion Er; reflexivity.
        - inversion Er; reflexivity. }
      simpl in H. apply andb_true_iff in H as [H _].
      apply negb_true_iff, andb_false_iff in H.
      destruct H as [H|H]; [left; exact H | right; simpl; rewrite H; auto].
Qed.

Lemma double_hyphen_detected (a b : jsstring) :
  no_double_hyphen (a ++ hyphen :: hyphen :: b) = false.
Proof.
  induction a as [|x a IH]; simpl.
  - reflexivity.
  - destruct (a ++ hyphen :: hyphen :: b) eqn:E.
    + destruct a; discriminate.
    + rewrite IH. apply andb_false_r.
Qed.

Lemma trailing_hyphen_detected (t : jsstring) :
  last_not_hyphen (t ++ [hyphen]) = false.
Proof.
  induction t as [|x t IH]; simpl; auto.
  destruct (t ++ [hyphen]) eqn:E; auto. destruct t; discriminate.
Qed.

Lemma slug_chars_lowercase (s : jsstring) :
  forallb is_slug_char s = true -> asciiLower s = s.
Proof.
  induction s as [|c s IH]; simpl; auto.
  intros H. apply andb_true_iff in H as [Hc Hs].
  unfold lower_unit. rewrite (slug_char_not_upper c Hc), IH; auto.
Qed.

(** C2.  For every title and whatever the host's [toLowerCase] does, the
    generated slug is lowercase (it has no unit in [A]-[Z] and lowering
    leaves it unchanged), matches [^[a-z0-9-]*$], does not begin with a
    hyphen, does not end with one, and has no two hyphens in a row. *)
Theorem generateSlug_format :
  forall (toLowerCase : jsstring -> jsstring) (T : jsstring),
    let s := generateSlug toLowerCase T in
    Forall (fun c => is_upper_AZ c = false) s
    /\ asciiLower s = s
    /\ matches_slug_star s = true
    /\ (forall t, s <> hyphen :: t)
    /\ (forall t, s <> t ++ [hyphen])
    /\ (forall a b, s <> a ++ hyphen :: hyphen :: b).
Proof.
  intros toLowerCase T s.
  set (s1 := filter is_kept (trim (toLowerCase T))).
  set (s2 := replace_runs is_space hyphen false s1).
  set (s3 := replace_runs is_hyphen hyphen false s2).
  assert (C3 : forallb is_slug_char s3 = true).
  { apply hyphens_collapsed_slug, spaces_replaced_slug, filter_kept. }
  assert (D3 : no_double_hyphen s3 = true)
    by apply (hyphens_collapsed_no_double s2 false).
  destruct (strip_leading_no_double s3 D3) as [D4 H4].
  pose proof (strip_leading_slug s3 C3) as C4.
  destruct (strip_trailing_no_double _ D4) as [D5 L5].
  pose proof (strip_trailing_head _ H4) as H5.
  pose proof (strip_trailing_slug _ C4) as C5.
  assert (Es : strip_trailing (strip_leading s3) = s) by reflexivity.
  rewrite Es in D5, L5, H5, C5.
  repeat split.
  - apply Forall_forall. intros c Hc. apply slug_char_not_upper.
    unfold matches_slug_star in *.
    rewrite forallb_forall in C5. auto.
  - apply slug_chars_lowercase; exact C5.
  - exact C5.
  - intros t E. rewrite E in H5. discriminate.
  - intros t E. rewrite E, trailing_hyphen_detected in L5. discriminate.
  - intros a b E. rewrite E, double_hyphen_detected in D5. discriminate.
Qed.

(** ** Slug uniqueness: the probing loop *)

Unset Implicit Arguments.

Module ContentFacts.
Import Content.

Lemma given_spec (o : option jsstring) :
  given o = true <-> exists id, o = Some id /\ id <> [].
Proof.
  destruct o as [[|c s]|]; simpl; split; intros H;
    try discriminate H; try reflexivity.
  - destruct H as (id & [= <-] & H). contradiction.
  - eexists; split; [reflexivity | discriminate].
  - destruct H as (id & [=] & _).
Qed.

Lemma probe_inj (b : jsstring) (j k : nat) : probe b j = probe b k -> j = k.
Proof.
  assert (L : forall n, b <> suffixed b (S n)).
  { intros n E. apply (f_equal (@List.length N)) in E.
    unfold suffixed in E. rewrite length_app in E. simpl in E. lia. }
  destruct j as [|j], k as [|k]; simpl; intros E; auto.
  - exfalso. exact (L _ E).
  - exfalso. exact (L _ (eq_sym E)).
  - unfold suffixed in E. apply app_inv_head in E.
    injection E as E. apply ofNat_inj. exact E.
Qed.

(** The decimal rendering of a counter consists of digits, which
    lowering leaves alone. *)
Lemma uint_digits (u : Decimal.uint) :
  Forall (fun c => is_digit c = true) (js (NilEmpty.string_of_uint u)).
Proof.
  induction u; simpl; constructor; try reflexivity; assumption.
Qed.

Lemma ofNat_digits (n : nat) : Forall (fun c => is_digit c = true) (ofNat n).
Proof. apply uint_digits. Qed.

Lemma digit_ascii (c : N) : is_digit c = true -> (c < 128)%N.
Proof.
  unfold is_digit. rewrite andb_true_iff, !N.leb_le. lia.
Qed.

Lemma digit_lower (c : N) : is_digit c = true -> lower_unit c = c.
Proof.
  unfold is_digit, lower_unit, is_upper_AZ.
  rewrite andb_true_iff, !N.leb_le. intros H.
  destruct (N.leb_spec 65 c); [|reflexivity].
  destruct (N.leb_spec c 90); [lia | reflexivity].
Qed.

Lemma asciiLower_suffixed (s : jsstring) (n : nat) :
  asciiLower (suffixed s n) = suffixed (asciiLower s) n.
Proof.
  unfold asciiLower, suffixed. rewrite map_app. simpl. do 2 f_equal.
  pose proof (ofNat_digits n) as D.
  induction D as [|c l Hc _ IH]; simpl; [reflexivity|].
  rewrite (digit_lower c Hc), IH. reflexivity.
Qed.

Lemma asciiLower_keeps_suffix : keeps_suffix asciiLower.
Proof. intros s n. apply asciiLower_suffixed. Qed.

Lemma suffixed_ascii (s : jsstring) (n : nat) :
  is_ascii s -> is_ascii (suffixed s n).
Proof.
  intros H. unfold is_ascii, suffixed. apply Forall_app. split; [exact H|].
  constructor; [reflexivity|].
  eapply Forall_impl; [|apply ofNat_digits]. apply digit_ascii.
Qed.

Lemma probe_ascii (s : jsstring) (k : nat) : is_ascii s -> is_ascii (probe s k).
Proof. destruct k; [auto | apply suffixed_ascii]. Qed.

Section Probing.

Variable toLowerCase : jsstring -> jsstring.

Lemma slug_query_spec (s : jsstring) (excl : option jsstring) (d : Doc) :
  slug_query toLowerCase s excl d = true <->
  slug d = toLowerCase s
  /\ (forall id, excl = Some id -> id <> [] -> ID d <> id).
Proof.
  unfold slug_query. rewrite andb_true_iff, eqb_eq.
  destruct (given excl) eqn:G.
  - apply given_spec in G as (id & -> & Hid).
    rewrite negb_true_iff, eqb_neq. split.
    + intros [E N]. split; auto. intros id' [= <-] _. exact N.
    + intros [E N]. split; auto.
  - split; intros [E _]; split; auto.
    intros id -> Hid. exfalso.
    assert (given (Some id) = true)
      by (apply given_spec; eexists; split; eauto).
    congruence.
Qed.

Lemma findOne_in_use (coll : Collection) (excl : option jsstring)
  (s : jsstring) :
  (exists d, findOne (slug_query toLowerCase s excl) coll = Some d)
  <-> in_use toLowerCase coll excl s.
Proof.
  unfold findOne, in_use, carried. split.
  - intros [d H]. apply find_some in H as [Hin Hq].
    exists d. split; auto. apply slug_query_spec; exact Hq.
  - intros (d & Hin & Hq).
    destruct (find (slug_query toLowerCase s excl) coll) as [e|] eqn:F;
      eauto.
    exfalso. pose proof (find_none _ _ F d Hin) as Hn.
    apply slug_query_spec in Hq. congruence.
Qed.

Lemma findOne_free (coll : Collection) (excl : option jsstring)
  (s : jsstring) :
  findOne (slug_query toLowerCase s excl) coll = None
  <-> ~ in_use toLowerCase coll excl s.
Proof.
  rewrite <- findOne_in_use.
  destruct (findOne (slug_query toLowerCase s excl) coll);
    split; try congruence.
  - intros H. exfalso. apply H. eauto.
  - intros _ [e [=]].
Qed.

Lemma in_use_dec (coll : Collection) (excl : option jsstring) (s : jsstring) :
  {in_use toLowerCase coll excl s} + {~ in_use toLowerCase coll excl s}.
Proof.
  destruct (findOne (slug_query toLowerCase s excl) coll) eqn:F.
  - left. apply findOne_in_use. eauto.
  - right. apply findOne_free. exact F.
Qed.

(** Pigeonhole: the first [n + 1] probes cannot all be in use in a
    collection of [n] documents. *)
Lemma probes_exceed_collection (coll : Collection) (excl : option jsstring)
  (b : jsstring) (n : nat) :
  distinct_lookups toLowerCase b ->
  (forall j, j <= n -> in_use toLowerCase coll excl (probe b j)) ->
  n < List.length coll.
Proof.
  intros Hinj H.
  assert (Hnd : NoDup (map (fun j => toLowerCase (probe b j))
                         (seq 0 (S n)))).
  { apply Finite.Injective_map_NoDup; [|apply seq_NoDup].
    intros j k. apply Hinj. }
  assert (Hincl : incl (map (fun j => toLowerCase (probe b j))
                          (seq 0 (S n))) (map slug coll)).
  { intros s Hs. apply in_map_iff in Hs as (j & <- & Hj).
    apply in_seq in Hj. destruct (H j) as (d & Hd & Es & _); [lia|].
    apply in_map_iff. eauto. }
  pose proof (NoDup_incl_length Hnd Hincl) as L.
  rewrite !length_map, length_seq in L. lia.
Qed.

Lemma least_free_upto (coll : Collection) (excl : option jsstring)
  (b : jsstring) (n : nat) :
  (exists k, k <= n /\ ~ in_use toLowerCase coll excl (probe b k)
             /\ forall j, j < k -> in_use toLowerCase coll excl (probe b j))
  \/ (forall j, j <= n -> in_use toLowerCase coll excl (probe b j)).
Proof.
  induction n as [|n IH].
  - destruct (in_use_dec coll excl (probe b 0)) as [U|F].
    + right. intros j Hj. replace j with 0 by lia. exact U.
    + left. exists 0. repeat split; auto. intros j Hj; lia.
  - destruct IH as [(k & Hk & F & L)|A].
    + left. exists k. repeat split; auto.
    + destruct (in_use_dec coll excl (probe b (S n))) as [U|F].
      * right. intros j Hj.
        destruct (Nat.eq_dec j (S n)) as [->|Hne]; auto. apply A; lia.
      * left. exists (S n). repeat split; auto.
        intros j Hj. apply A; lia.
Qed.

Lemma least_free_exists (coll : Collection) (excl : option jsstring)
  (b : jsstring) :
  distinct_lookups toLowerCase b ->
  exists k, k <= List.length coll
            /\ ~ in_use toLowerCase coll excl (probe b k)
            /\ forall j, j < k -> in_use toLowerCase coll excl (probe b j).
Proof.
  intros Hinj.
  destruct (least_free_upto coll excl b (List.length coll)) as [H|A]; auto.
  apply (probes_exceed_collection coll excl b _ Hinj) in A. lia.
Qed.

(** The loop, started in the state it has after [i] failed lookups. *)
Lemma loop_from (coll : Collection) (excl : option jsstring) (b : jsstring)
  (k : nat) :
  ~ in_use toLowerCase coll excl (probe b k) ->
  forall fuel i,
    i <= k ->
    (forall j, i <= j < k -> in_use toLowerCase coll excl (probe b j)) ->
    ensureUniqueSlug_loop toLowerCase fuel coll b excl (probe b i) (S i)
    = if k - i <? fuel then Ok (probe b k) else OutOfFuel.
Proof.
  intros F. induction fuel as [|fuel IH]; intros i Hi U;
    cbn [ensureUniqueSlug_loop].
  - reflexivity.
  - destruct (Nat.eq_dec i k) as [->|Hne].
    + apply findOne_free in F. rewrite F.
      replace (k - k) with 0 by lia. reflexivity.
    + assert (Ui : in_use toLowerCase coll excl (probe b i))
        by (apply U; lia).
      apply findOne_in_use in Ui as [d ->].
      change (suffixed b (S i)) with (probe b (S i)).
      rewrite IH; [|lia|intros j Hj; apply U; lia].
      assert (E : (k - S i <? fuel) = (k - i <? S fuel)).
      { destruct (k - S i <? fuel) eqn:E1; symmetry.
        - apply Nat.ltb_lt in E1. apply Nat.ltb_lt. lia.
        - apply Nat.ltb_ge in E1. apply Nat.ltb_ge. lia. }
      rewrite E. reflexivity.
Qed.

(** The loop returns the first free probe [k], after [k + 1] lookups. *)
Lemma loop_fuel_profile (coll : Collection) (b : jsstring)
  (excl : option jsstring) :
  distinct_lookups toLowerCase b ->
  exists k,
    k <= List.length coll
    /\ ~ in_use toLowerCase coll excl (probe b k)
    /\ (forall j, j < k -> in_use toLowerCase coll excl (probe b j))
    /\ (forall fuel,
          ensureUniqueSlug_loop toLowerCase fuel coll b excl b 1
          = if k <? fuel then Ok (probe b k) else OutOfFuel).
Proof.
  intros Hinj.
  destruct (least_free_exists coll excl b Hinj) as (k & Hk & F & U).
  exists k. repeat split; auto.
  intros fuel. change b with (probe b 0) at 2.
  rewrite (loop_from coll excl b k F fuel 0);
    [|lia|intros j Hj; apply U; lia].
  rewrite Nat.sub_0_r. reflexivity.
Qed.

Lemma ensureUniqueSlug_first_free (coll : Collection) (b : jsstring)
  (excl : option jsstring) :
  distinct_lookups toLowerCase b ->
  exists k,
    ensureUniqueSlug toLowerCase coll b excl = Ok (probe b k)
    /\ ~ in_use toLowerCase coll excl (probe b k)
    /\ (forall j, j < k -> in_use toLowerCase coll excl (probe b j)).
Proof.
  intros Hinj.
  destruct (loop_fuel_profile coll b excl Hinj) as (k & Hk & F & U & L).
  exists k. repeat split; auto.
  unfold ensureUniqueSlug. rewrite L.
  assert (E : (k <? S (List.length coll)) = true) by (apply Nat.ltb_lt; lia).
  rewrite E. reflexivity.
Qed.

(** A base slug whose own lookup finds nothing is returned at once. *)
Lemma ensureUniqueSlug_free (coll : Collection) (s : jsstring)
  (excl : option jsstring) :
  ~ in_use toLowerCase coll excl s ->
  ensureUniqueSlug toLowerCase coll s excl = Ok s.
Proof.
  intros F. unfold ensureUniqueSlug. cbn [ensureUniqueSlug_loop].
  apply findOne_free in F. rewrite F. reflexivity.
Qed.

Lemma ensureUniqueSlug_cases (coll : Collection) (s : jsstring)
  (excl : option jsstring) :
  distinct_lookups toLowerCase s ->
  (~ in_use toLowerCase coll excl s ->
   ensureUniqueSlug toLowerCase coll s excl = Ok s)
  /\ (in_use toLowerCase coll excl s ->
      exists n, 1 <= n
        /\ ensureUniqueSlug toLowerCase coll s excl = Ok (suffixed s n)
        /\ ~ in_use toLowerCase coll excl (suffixed s n)
        /\ forall m, 1 <= m < n ->
             in_use toLowerCase coll excl (suffixed s m)).
Proof.
  intros Hinj. split; [apply ensureUniqueSlug_free|].
  destruct (ensureUniqueSlug_first_free coll s excl Hinj) as (k & E & F & U).
  intros Hu. destruct k as [|k]; [contradiction|].
  exists (S k). repeat split; auto; try lia.
  intros m Hm. destruct m as [|m]; [lia|]. apply (U (S m)). lia.
Qed.

(** Where the lookups are distinct. *)
Lemma keeps_suffix_distinct (b : jsstring) :
  keeps_suffix toLowerCase -> distinct_lookups toLowerCase b.
Proof.
  intros K j k E. apply (probe_inj (toLowerCase b)).
  destruct j as [|j], k as [|k]; cbn [probe] in *;
    rewrite ?K in E; exact E.
Qed.

Lemma ascii_distinct (b : jsstring) :
  lowers_ascii toLowerCase -> is_ascii b -> distinct_lookups toLowerCase b.
Proof.
  intros L A j k E.
  rewrite !L in E by (apply probe_ascii; exact A).
  apply (probe_inj (asciiLower b)).
  destruct j as [|j], k as [|k]; cbn [probe] in *;
    rewrite ?asciiLower_suffixed in E; exact E.
Qed.

End Probing.

(** C10.  With a [toLowerCase] that leaves a numeric suffix alone, on
    every collection and for every base slug the loop ends: some probe
    among the first [length coll + 1] is free, that is its lookup finds
    no document; the loop returns the first free probe [k] after exactly
    [k + 1] lookups (less fuel runs out, more changes nothing), and
    [ensureUniqueSlug] returns it. *)
Theorem ensureUniqueSlug_terminates :
  forall toLowerCase : jsstring -> jsstring,
    keeps_suffix toLowerCase ->
    forall (coll : Collection) (baseSlug : jsstring)
           (excludeID : option jsstring),
    exists k,
      k <= List.length coll
      /\ ~ in_use toLowerCase coll excludeID (probe baseSlug k)
      /\ (forall j, j < k ->
            in_use toLowerCase coll excludeID (probe baseSlug j))
      /\ (forall fuel, k < fuel ->
            ensureUniqueSlug_loop toLowerCase fuel coll baseSlug excludeID
              baseSlug 1
            = Ok (probe baseSlug k))
      /\ (forall fuel, fuel <= k ->
            ensureUniqueSlug_loop toLowerCase fuel coll baseSlug excludeID
              baseSlug 1
            = OutOfFuel)
      /\ ensureUniqueSlug toLowerCase coll baseSlug excludeID
         = Ok (probe baseSlug k).
Proof.
  intros tl K coll b excl.
  destruct (loop_fuel_profile tl coll b excl (keeps_suffix_distinct tl b K))
    as (k & Hk & F & U & L).
  assert (E : (k <? S (List.length coll)) = true) by (apply Nat.ltb_lt; lia).
  exists k. repeat split; auto.
  - intros fuel Hf. rewrite L.
    apply Nat.ltb_lt in Hf. rewrite Hf. reflexivity.
  - intros fuel Hf. rewrite L.
    apply Nat.ltb_ge in Hf. rewrite Hf. reflexivity.
  - unfold ensureUniqueSlug. rewrite L, E. reflexivity.
Qed.

(** The base slug ["Hello"] against the stored slug ["hello"]: two
    lookups. *)
Lemma ensureUniqueSlug_terminates_witness :
  keeps_suffix asciiLower
  /\ exists k,
       k <= 1
       /\ ensureUniqueSlug_loop asciiLower (S k) [article] (js "Hello") None
            (js "Hello") 1
          = Ok (probe (js "Hello") k)
       /\ ensureUniqueSlug asciiLower [article] (js "Hello") None
          = Ok (probe (js "Hello") k).
Proof.
  split; [exact asciiLower_keeps_suffix|].
  destruct (ensureUniqueSlug_terminates asciiLower asciiLower_keeps_suffix
              [article] (js "Hello") None)
    as (k & Hk & _ & _ & L & _ & E).
  exists k. split; [exact Hk|]. split; [apply L; lia | exact E].
Defined.

(** ** Inserting content *)

Lemma is_ascii_check (s : jsstring) :
  forallb (fun c => N.ltb c 128) s = true -> is_ascii s.
Proof.
  intros H. apply Forall_forall. intros c Hc.
  rewrite forallb_forall in H. apply N.ltb_lt. auto.
Qed.

Lemma existsb_none {A} (P : A -> bool) (l : list A) :
  (forall x, In x l -> P x = false) -> existsb P l = false.
Proof.
  intros H. destruct (existsb P l) eqn:E; auto.
  apply existsb_exists in E as (x & Hx & Px). rewrite (H x Hx) in Px.
  discriminate.
Qed.

Lemma truthy_nonempty (s : jsstring) : s <> [] -> truthy s = true.
Proof. destruct s; [contradiction | reflexivity]. Qed.

Lemma author_errors_complete (au : Author) :
  complete au -> author_errors (Some au) = [].
Proof.
  intros (A & B & C). unfold author_errors.
  rewrite !truthy_nonempty by assumption. reflexivity.
Qed.

Lemma base_insert_ok (toLowerCase : jsstring -> jsstring) (now : Z)
  (newID : jsstring) (coll : Collection) (ty : ctype) (ti sl : jsstring)
  (co : option jsstring) (st : cstatus) (vi : cvisibility) (au : Author)
  (ts : Timestamps) :
  toLowerCase sl = sl ->
  truthy newID = true ->
  truthy ti = true ->
  (JsString.length ti <=? 200) = true ->
  matches_slug_plus sl = true ->
  negb (status_eqb st published) || given co = true ->
  complete au ->
  (forall d, In d coll -> ID d <> newID) ->
  (forall d, In d coll -> slug d <> sl) ->
  exists d,
    base_insert toLowerCase now newID coll ty ti sl co st vi (Some au)
      (Some ts)
    = Ok (d, coll ++ [d])
    /\ slug d = sl /\ ID d = newID.
Proof.
  intros Hl Hid Hti Hlen Hs Hc Hau Hfid Hfs.
  unfold base_insert. rewrite Hl.
  unfold validate, validation_errors.
  cbn [ID title slug content status author].
  rewrite Hid, Hti, Hlen, Hs, Hc, (author_errors_complete au Hau).
  cbn [andb check app bind].
  cbn [pre_save set_timestamps ID slug].
  rewrite (existsb_none (fun e => eqb (ID e) newID)),
          (existsb_none (fun e => eqb (slug e) sl)).
  - eexists. split; [reflexivity|]. split; reflexivity.
  - intros d Hd. apply eqb_neq. auto.
  - intros d Hd. apply eqb_neq. auto.
Qed.

Lemma validate_bad_path (d : Doc) (path : string) :
  In path (validation_errors d) ->
  exists paths, validate d = Throw (ValidationError paths) /\ In path paths.
Proof.
  intros H. unfold validate.
  destruct (validation_errors d) as [|p ps]; [contradiction|].
  exists (p :: ps). split; [reflexivity | exact H].
Qed.

Lemma base_insert_invalid (toLowerCase : jsstring -> jsstring) (now : Z)
  (newID : jsstring) (coll : Collection) (ty : ctype) (ti sl : jsstring)
  (co : option jsstring) (st : cstatus) (vi : cvisibility)
  (au : option Author) (ts : option Timestamps) (path : string) :
  (forall t, In path (validation_errors
                        (mkDoc newID ty ti (toLowerCase sl) co st vi au t))) ->
  exists paths,
    base_insert toLowerCase now newID coll ty ti sl co st vi au ts
    = Throw (ValidationError paths)
    /\ In path paths.
Proof.
  intros H. unfold base_insert. destruct ts as [t|].
  - destruct (validate_bad_path _ path (H (mkTimestamps
                 (or_now now (created_at t)) (or_now now (updated_at t))
                 (published_at t)))) as (paths & E & Hin).
    exists paths. rewrite E. split; [reflexivity | exact Hin].
  - destruct (validate_bad_path _ path (H (mkTimestamps None None None)))
      as (paths & E & Hin).
    exists paths. rewrite E. split; [reflexivity | exact Hin].
Qed.

Lemma base_insert_bad_slug (toLowerCase : jsstring -> jsstring) (now : Z)
  (newID : jsstring) (coll : Collection) (ty : ctype) (ti sl : jsstring)
  (co : option jsstring) (st : cstatus) (vi : cvisibility)
  (au : option Author) (ts : option Timestamps) :
  matches_slug_plus (toLowerCase sl) = false ->
  exists paths,
    base_insert toLowerCase now newID coll ty ti sl co st vi au ts
    = Throw (ValidationError paths)
    /\ In "slug"%string paths.
Proof.
  intros H. apply base_insert_invalid. intros t.
  unfold validation_errors. cbn [ID title slug content status author].
  rewrite H. apply in_or_app. right. apply in_or_app. right.
  simpl. left. reflexivity.
Qed.

Lemma base_insert_no_author (toLowerCase : jsstring -> jsstring) (now : Z)
  (newID : jsstring) (coll : Collection) (ty : ctype) (ti sl : jsstring)
  (co : option jsstring) (st : cstatus) (vi : cvisibility)
  (ts : option Timestamps) :
  exists paths,
    base_insert toLowerCase now newID coll ty ti sl co st vi None ts
    = Throw (ValidationError paths)
    /\ In "author"%string paths.
Proof.
  apply base_insert_invalid. intros t.
  unfold validation_errors. cbn [ID title slug content status author].
  do 4 (apply in_or_app; right). simpl. left. reflexivity.
Qed.

(** [base.js] [insert] of a document that passes validation, handed no
    [timestamps] object: the save hook throws. *)
Lemma base_insert_no_timestamps (toLowerCase : jsstring -> jsstring)
  (now : Z) (newID : jsstring) (coll : Collection) (ty : ctype)
  (ti sl : jsstring) (co : option jsstring) (st : cstatus)
  (vi : cvisibility) (au : option Author) :
  failed (base_insert toLowerCase now newID coll ty ti sl co st vi au None)
  = true.
Proof.
  unfold base_insert, validate.
  destruct (validation_errors _); reflexivity.
Qed.

Lemma free_no_slug (coll : Collection) (s : jsstring) :
  ~ carried coll None s -> forall d, In d coll -> slug d <> s.
Proof.
  intros H d Hd E. apply H. exists d. repeat split; auto.
  intros id [=].
Qed.

(** C1, the claim as stated fails: no document carries the slug
    ["Hello"], yet against the stored slug ["hello"] the lookup of
    ["Hello"] finds the article and the answer is ["Hello-1"]. *)
Lemma ensureUniqueSlug_suffixes_unlowered_base :
  ~ returns_base_when_not_carried asciiLower.
Proof.
  intros H.
  assert (C : ~ carried [article] None (js "Hello")).
  { intros (d & [<-|[]] & E & _). vm_compute in E. discriminate E. }
  specialize (H [article] (js "Hello") None C).
  vm_compute in H. discriminate H.
Qed.

(** C1, amended.  [ensureUniqueSlug] returns the base slug when no
    document other than the excluded one carries its lowered form, and
    otherwise [base-N] for the least [N >= 1] such that no such document
    carries the lowered form of [base-N].  For a base slug that
    lowering leaves as it is these are the base slug and the [base-N]
    themselves.  In particular two inserts of
    content titled ["Hello World!"], with a complete author and a
    [timestamps] object, into a collection that carries neither slug,
    store ["hello-world"] and then ["hello-world-1"]; the object without
    author and [timestamps] is rejected.  The host's [toLowerCase]
    enters through its value on ASCII strings and through leaving a
    numeric suffix alone. *)
Theorem ensureUniqueSlug_lowest_free :
  forall toLowerCase : jsstring -> jsstring,
    lowers_ascii toLowerCase ->
    keeps_suffix toLowerCase ->
    (forall (coll : Collection) (s : jsstring) (excludeID : option jsstring),
        (~ carried coll excludeID (toLowerCase s) ->
         ensureUniqueSlug toLowerCase coll s excludeID = Ok s)
        /\ (carried coll excludeID (toLowerCase s) ->
            exists n, 1 <= n
              /\ ensureUniqueSlug toLowerCase coll s excludeID
                 = Ok (suffixed s n)
              /\ ~ carried coll excludeID (suffixed (toLowerCase s) n)
              /\ forall m, 1 <= m < n ->
                   carried coll excludeID (suffixed (toLowerCase s) m)))
    /\ (forall (coll : Collection) (s : jsstring)
               (excludeID : option jsstring),
          toLowerCase s = s ->
          (~ carried coll excludeID s ->
           ensureUniqueSlug toLowerCase coll s excludeID = Ok s)
          /\ (carried coll excludeID s ->
              exists n, 1 <= n
                /\ ensureUniqueSlug toLowerCase coll s excludeID
                   = Ok (suffixed s n)
                /\ ~ carried coll excludeID (suffixed s n)
                /\ forall m, 1 <= m < n ->
                     carried coll excludeID (suffixed s m)))
    /\ (forall (coll : Collection) (au : Author) (ts : Timestamps)
               (now1 now2 : Z) (id1 id2 : jsstring),
          complete au ->
          ~ carried coll None (js "hello-world") ->
          ~ carried coll None (js "hello-world-1") ->
          id1 <> [] -> id2 <> [] -> id1 <> id2 ->
          (forall d, In d coll -> ID d <> id1 /\ ID d <> id2) ->
          exists d1 c1 d2 c2,
            insert toLowerCase now1 id1 coll (hello_world au ts)
            = Ok (d1, c1)
            /\ slug d1 = js "hello-world"
            /\ insert toLowerCase now2 id2 c1 (hello_world au ts)
               = Ok (d2, c2)
            /\ slug d2 = js "hello-world-1")
    /\ (forall (coll : Collection) (now : Z) (id : jsstring),
          exists paths,
            insert toLowerCase now id coll hello_world_bare
            = Throw (ValidationError paths)
            /\ In "author"%string paths).
Proof.
  intros toLowerCase Hlow K.
  assert (Gen : forall coll s excl,
             (~ carried coll excl (toLowerCase s) ->
              ensureUniqueSlug toLowerCase coll s excl = Ok s)
             /\ (carried coll excl (toLowerCase s) ->
                 exists n, 1 <= n
                   /\ ensureUniqueSlug toLowerCase coll s excl
                      = Ok (suffixed s n)
                   /\ ~ carried coll excl (suffixed (toLowerCase s) n)
                   /\ forall m, 1 <= m < n ->
                        carried coll excl (suffixed (toLowerCase s) m))).
  { intros coll s excl.
    destruct (ensureUniqueSlug_cases toLowerCase coll s excl
                (keeps_suffix_distinct toLowerCase s K)) as [F U].
    split; [exact F|]. intros C. destruct (U C) as (n & Hn & E & Fn & Un).
    exists n. unfold in_use in *. split; [exact Hn|]. split; [exact E|].
    split.
    - rewrite <- K. exact Fn.
    - intros m Hm. rewrite <- K. apply Un. exact Hm. }
  assert (Hgen : generateSlug toLowerCase (js "Hello World!")
                 = js "hello-world").
  { unfold generateSlug.
    rewrite (Hlow (js "Hello World!")) by (apply is_ascii_check; reflexivity).
    vm_compute. reflexivity. }
  assert (L0 : toLowerCase (js "hello-world") = js "hello-world").
  { rewrite Hlow by (apply is_ascii_check; reflexivity).
    vm_compute. reflexivity. }
  assert (L1 : toLowerCase (js "hello-world-1") = js "hello-world-1").
  { rewrite Hlow by (apply is_ascii_check; reflexivity).
    vm_compute. reflexivity. }
  split; [exact Gen|]. split; [|split].
  - intros coll s excl E. specialize (Gen coll s excl). rewrite E in Gen.
    exact Gen.
  - intros coll au ts now1 now2 id1 id2 Hau F0 F1 N1 N2 Nd Fresh.
    assert (Step : forall now id c,
               insert toLowerCase now id c (hello_world au ts)
               = slug1 <- ensureUniqueSlug toLowerCase c (js "hello-world")
                            None ;;
                 base_insert toLowerCase now id c blog (js "Hello World!")
                   slug1 None draft vpublic (Some au) (Some ts)).
    { intros now id c. unfold insert, hello_world.
      cbn [d_type d_title d_slug d_content d_status d_visibility d_author
           d_timestamps].
      change (truthy (js "Hello World!")) with true. cbn [negb].
      rewrite Hgen. reflexivity. }
    (* first insert *)
    destruct (base_insert_ok toLowerCase now1 id1 coll blog
                (js "Hello World!") (js "hello-world") None draft vpublic au
                ts L0 (truthy_nonempty _ N1) eq_refl eq_refl eq_refl eq_refl
                Hau)
      as (d1 & E1 & S1 & I1).
    { intros d Hd. apply Fresh; exact Hd. }
    { apply free_no_slug; exact F0. }
    (* second insert *)
    set (c1 := coll ++ [d1]) in *.
    assert (U0 : carried c1 None (js "hello-world")).
    { exists d1. repeat split; auto.
      - apply in_or_app. right. left. reflexivity.
      - intros id [=]. }
    assert (F1' : ~ carried c1 None (js "hello-world-1")).
    { intros (d & Hd & Sd & _). apply in_app_or in Hd as [Hd|[<-|[]]].
      - apply F1. exists d. repeat split; auto. intros id [=].
      - rewrite S1 in Sd. vm_compute in Sd. discriminate Sd. }
    pose proof (Gen c1 (js "hello-world") None) as G1. rewrite L0 in G1.
    destruct (proj2 G1 U0) as (n & Hn & En & _ & Un).
    assert (n = 1) as ->.
    { destruct (Nat.eq_dec n 1) as [|Hne]; auto.
      exfalso. apply F1'. apply (Un 1). lia. }
    change (suffixed (js "hello-world") 1) with (js "hello-world-1") in En.
    destruct (base_insert_ok toLowerCase now2 id2 c1 blog
                (js "Hello World!") (js "hello-world-1") None draft vpublic au
                ts L1 (truthy_nonempty _ N2) eq_refl eq_refl eq_refl eq_refl
                Hau)
      as (d2 & E2 & S2 & I2).
    { intros d Hd. apply in_app_or in Hd as [Hd|[<-|[]]].
      - apply Fresh; exact Hd.
      - rewrite I1. exact Nd. }
    { apply free_no_slug; exact F1'. }
    exists d1, c1, d2, (c1 ++ [d2]).
    pose proof (Gen coll (js "hello-world") None) as G0. rewrite L0 in G0.
    repeat split.
    + rewrite Step, (proj1 G0 F0). exact E1.
    + exact S1.
    + rewrite Step, En. exact E2.
    + exact S2.
  - intros coll now id. unfold insert, hello_world_bare.
    cbn [d_type d_title d_slug d_content d_status d_visibility d_author
         d_timestamps].
    change (truthy (js "Hello World!")) with true. cbn [negb].
    rewrite Hgen.
    destruct (ensureUniqueSlug_first_free toLowerCase coll
                (js "hello-world") None
                (keeps_suffix_distinct toLowerCase _ K)) as (k & -> & _).
    cbn [bind]. apply base_insert_no_author.
Qed.

(** The scenario on a collection that holds the article, with ASCII
    lowering as the host function. *)
Lemma ensureUniqueSlug_lowest_free_witness :
  lowers_ascii asciiLower
  /\ keeps_suffix asciiLower
  /\ ensureUniqueSlug asciiLower [article] (js "Hello") None
     = Ok (js "Hello-1")
  /\ exists d1 c1 d2 c2,
       insert asciiLower 10 (js "id1") [article] (hello_world ann no_dates)
       = Ok (d1, c1)
       /\ slug d1 = js "hello-world"
       /\ insert asciiLower 20 (js "id2") c1 (hello_world ann no_dates)
          = Ok (d2, c2)
       /\ slug d2 = js "hello-world-1".
Proof.
  assert (H : lowers_ascii asciiLower) by (intros s _; reflexivity).
  split; [exact H|]. split; [exact asciiLower_keeps_suffix|].
  split; [reflexivity|].
  apply (proj1 (proj2 (proj2
           (ensureUniqueSlug_lowest_free asciiLower H
              asciiLower_keeps_suffix)))).
  - repeat split; discriminate.
  - intros (d & [<-|[]] & E & _). discriminate E.
  - intros (d & [<-|[]] & E & _). discriminate E.
  - vm_compute. discriminate.
  - vm_compute. discriminate.
  - vm_compute. discriminate.
  - intros d [<-|[]]. split; discriminate.
Defined.

(** C9.  The title ["!!!"] is not empty and has no ASCII letter or digit,
    yet its generated slug is the empty string, which the schema pattern
    [^[a-z0-9-]+$] rejects.  On a collection whose stored slugs satisfy
    the schema, [insert] with that title and no slug of its own rejects
    with a validation error on the path [slug]; nothing is stored. *)
Theorem insert_symbol_title_fails :
  forall toLowerCase : jsstring -> jsstring,
    lowers_ascii toLowerCase ->
    exists T,
      T = js "!!!"
      /\ T <> []
      /\ Forall (fun c => is_alnum c = false) T
      /\ generateSlug toLowerCase T = []
      /\ matches_slug_plus [] = false
      /\ forall (now : Z) (newID : jsstring) (coll : Collection)
                (data : Data),
           d_title data = Some T ->
           given (d_slug data) = false ->
           (forall d, In d coll -> matches_slug_plus (slug d) = true) ->
           exists paths,
             insert toLowerCase now newID coll data
             = Throw (ValidationError paths)
             /\ In "slug"%string paths.
Proof.
  intros toLowerCase Hlow. exists (js "!!!").
  assert (Hgen : generateSlug toLowerCase (js "!!!") = []).
  { unfold generateSlug.
    rewrite (Hlow (js "!!!")) by (apply is_ascii_check; reflexivity).
    reflexivity. }
  assert (Lnil : toLowerCase [] = []) by (rewrite Hlow by constructor;
                                           reflexivity).
  repeat split; auto.
  - vm_compute. discriminate.
  - apply Forall_forall. intros c Hc. vm_compute in Hc.
    destruct Hc as [<-|[<-|[<-|[]]]]; reflexivity.
  - intros now newID coll data Ht Hs Hcoll.
    assert (Hfree : ~ in_use toLowerCase coll None []).
    { intros (d & Hd & Sd & _). specialize (Hcoll d Hd).
      rewrite Sd, Lnil in Hcoll. discriminate. }
    unfold insert. rewrite Ht.
    change (truthy (js "!!!")) with true. cbn [negb].
    assert (E : match d_slug data with
                | Some s => if truthy s then s
                            else generateSlug toLowerCase (js "!!!")
                | None => generateSlug toLowerCase (js "!!!")
                end = []).
    { destruct (d_slug data) as [[|c s]|]; simpl in Hs;
        try discriminate; exact Hgen. }
    rewrite E, (ensureUniqueSlug_free toLowerCase coll [] None Hfree).
    cbn [bind]. apply base_insert_bad_slug.
    rewrite Lnil. reflexivity.
Qed.

(** The insert of ["!!!"] into the empty collection. *)
Lemma insert_symbol_title_fails_witness :
  lowers_ascii asciiLower
  /\ exists paths,
       insert asciiLower 10 (js "id1") []
         (mkData None (Some (js "!!!")) None None None None (Some ann) None)
       = Throw (ValidationError paths)
       /\ In "slug"%string paths.
Proof.
  assert (H : lowers_ascii asciiLower) by (intros s _; reflexivity).
  split; [exact H|].
  destruct (insert_symbol_title_fails asciiLower H)
    as (T & -> & _ & _ & _ & _ & F).
  apply F.
  - reflexivity.
  - reflexivity.
  - intros d [].
Defined.

(** ** Publishing *)

Lemma publishContent_unfold (toLowerCase : jsstring -> jsstring) (now : Z)
  (coll : Collection) (id : jsstring) :
  publishContent toLowerCase now coll id
  = match findById id coll with
    | None => Throw DocumentNotFound
    | Some d =>
        Ok (stamped now d,
            replace_first (fun e => eqb (ID e) id) (fun _ => stamped now d)
              coll)
    end.
Proof.
  unfold publishContent, update, base_update. cbn.
  destruct (findById id coll); reflexivity.
Qed.

Lemma publish_unfold (now : Z) (coll : Collection) (d : Doc) :
  publish now coll d
  = match validation_errors (set_status d published) with
    | [] =>
        let d' := pre_save false now (stamped now d) in
        Ok (d', replace_first (fun e => eqb (ID e) (ID d)) (fun _ => d') coll)
    | paths => Throw (ValidationError paths)
    end.
Proof.
  unfold publish, save, validate.
  change (validation_errors (set_published_at (set_status d published)
                               (Some now)))
    with (validation_errors (set_status d published)).
  destruct (validation_errors (set_status d published)); reflexivity.
Qed.

(** C4, at the failing input and in general.  Publishing sets the status
    to published, but it also sets [timestamps.published_at] to the time
    of the call when a date is already there: [publishContent] does so
    for every document it finds, the instance method [publish] for every
    document that passes validation, so neither keeps an existing date,
    and the article published at [1000] and published again at [2000]
    carries [2000].  Only the save hook on its own stamps the date
    just when it is unset. *)
Theorem publish_overwrites_publication_date :
  (forall (toLowerCase : jsstring -> jsstring) (now : Z) (coll : Collection),
      (forall id d,
          findById id coll = Some d ->
          exists d' c',
            publishContent toLowerCase now coll id = Ok (d', c')
            /\ status d' = published
            /\ published_at (timestamps d') = Some now)
      /\ (forall id,
            findById id coll = None ->
            publishContent toLowerCase now coll id = Throw DocumentNotFound)
      /\ (forall d,
            validation_errors (set_status d published) = [] ->
            exists d' c',
              publish now coll d = Ok (d', c')
              /\ status d' = published
              /\ published_at (timestamps d') = Some now)
      /\ (forall d,
            validation_errors (set_status d published) <> [] ->
            failed (publish now coll d) = true)
      /\ (forall isNew d t,
            published_at (timestamps d) = Some t ->
            published_at (timestamps (pre_save isNew now d)) = Some t)
      /\ (forall isNew d,
            published_at (timestamps d) = None ->
            published_at (timestamps (pre_save isNew now d))
            = if status_eqb (status d) published then Some now else None))
  /\ ~ publishContent_keeps_date asciiLower
  /\ ~ publish_keeps_date
  /\ (exists d1 c1 d2 c2,
        published_at (timestamps article) = Some 1000%Z
        /\ publishContent asciiLower 2000 [article] (ID article)
           = Ok (d1, c1)
        /\ published_at (timestamps d1) = Some 2000%Z
        /\ publish 2000 [article] article = Ok (d2, c2)
        /\ published_at (timestamps d2) = Some 2000%Z).
Proof.
  split; [|split; [|split]].
  - intros toLowerCase now coll.
    split; [|split; [|split; [|split; [|split]]]].
    + intros id d H. rewrite publishContent_unfold, H.
      eexists; eexists. split; [reflexivity|]. split; reflexivity.
    + intros id H. rewrite publishContent_unfold, H. reflexivity.
    + intros d H. rewrite publish_unfold, H.
      eexists; eexists. split; [reflexivity|]. split; reflexivity.
    + intros d H. rewrite publish_unfold.
      destruct (validation_errors (set_status d published));
        [contradiction | reflexivity].
    + intros isNew d t H. unfold pre_save. cbn. rewrite H. reflexivity.
    + intros isNew d H. unfold pre_save. cbn. rewrite H. reflexivity.
  - intros H.
    epose proof (H 2000%Z [article] article 1000%Z _ _
                   eq_refl eq_refl eq_refl) as E.
    vm_compute in E. discriminate E.
  - intros H.
    epose proof (H 2000%Z [article] article 1000%Z _ _ eq_refl eq_refl) as E.
    vm_compute in E. discriminate E.
  - do 4 eexists. split; [reflexivity|]. split; [reflexivity|].
    split; [reflexivity|]. split; reflexivity.
Qed.

End ContentFacts.

(** ** Email verification *)

Module UserFacts.
Import Users.

(** C7, at the failing input and in general.  The repository method
    [verifyEmail] clears the token and sets the verification time, but it
    writes [status: 'active'] for every user it finds: the suspended
    account [suspended_user] comes out active.  The instance method of
    the schema promotes only a pending user and keeps every other
    status. *)
Theorem verifyEmail_activates_any_status :
  (forall now coll id u,
      findById id coll = Some u ->
      exists u' c',
        verifyEmail now coll id = Ok (u', c')
        /\ email_verification_token u' = None
        /\ email_verified_at u' = Some now
        /\ status u' = active)
  /\ (forall now u,
        email_verification_token (methods_verifyEmail now u) = None
        /\ email_verified_at (methods_verifyEmail now u) = Some now
        /\ status (methods_verifyEmail now u)
           = match status u with pending => active | s => s end)
  /\ (exists u' c',
        verifyEmail 5000 [suspended_user] (ID suspended_user) = Ok (u', c')
        /\ status suspended_user = suspended
        /\ status u' = active
        /\ status (methods_verifyEmail 5000 suspended_user) = suspended).
Proof.
  split; [|split].
  - intros now coll id u H. unfold verifyEmail. rewrite H.
    eexists; eexists. split; [reflexivity|]. repeat split.
  - intros now u. repeat split.
  - eexists; eexists. split; [reflexivity|]. repeat split.
Qed.

End UserFacts.

(** ** Session expiry *)

Module SessionFacts.
Import Sessions.

Lemma existsb_fresh (coll : Collection) (id : jsstring) :
  (forall x, In x coll -> session_id x <> id) ->
  existsb (fun e => eqb (session_id e) id) coll = false.
Proof.
  intros H. destruct (existsb _ coll) eqn:E; auto.
  apply existsb_exists in E as (x & Hx & Ex). apply eqb_eq in Ex.
  exfalso. exact (H x Hx Ex).
Qed.

(** C8, the claim as stated fails: a request for thirty days and one
    second, whose document is stamped two seconds after the body read
    the clock, is stored with the lifetime as requested, one second
    short of [created_at] plus thirty days. *)
Lemma createSession_misses_the_cap : ~ clamps_to_thirty_days.
Proof.
  intros H.
  assert (M : (0 <= 2000)%Z) by lia.
  destruct (H 0%Z 2000%Z (30 * 24 * 3600 + 1)%Z [] thirty_days_and_a_second
              _ _ M eq_refl eq_refl) as [_ C].
  assert (L : (maxLifetime < (30 * 24 * 3600 + 1) * 1000)%Z)
    by (unfold maxLifetime; lia).
  specialize (C L). vm_compute in C. discriminate C.
Qed.

(** C8, amended.  A session created with [expires_in = e] seconds, by a
    call that reads the clock at [t0] and whose document is stamped at
    [t1], is stored with [created_at = t1] and with [expires_at] the
    earlier of [t0] plus [e] seconds and [created_at] plus thirty days.
    So a lifetime of at most thirty days is kept as requested, a
    lifetime that exceeds thirty days by at least the distance of the
    two clock reads is cut to exactly [created_at] plus thirty days, as
    for forty days, and the expiry never lies beyond [created_at] plus
    thirty days. *)
Theorem createSession_expiry :
  forall (t0 t1 e : Z) (coll : Collection) (d : SessionData),
    required_errors d = [] ->
    d_expires_in d = Some e ->
    (forall x, In x coll -> session_id x <> str_or_empty (d_session_id d)) ->
    exists s,
      createSession t0 t1 coll d = Ok (s, coll ++ [s])
      /\ created_at s = t1
      /\ expires_at s
         = Z.min (t0 + e * 1000) (created_at s + maxLifetime)
      /\ ((t0 <= t1)%Z -> (e * 1000 <= maxLifetime)%Z ->
          expires_at s = (t0 + e * 1000)%Z)
      /\ ((t1 - t0 <= e * 1000 - maxLifetime)%Z ->
          expires_at s = (created_at s + maxLifetime)%Z)
      /\ (e = (40 * 24 * 3600)%Z -> (t1 - t0 <= 10 * day_ms)%Z ->
          expires_at s = (created_at s + 30 * day_ms)%Z)
      /\ (expires_at s <= created_at s + maxLifetime)%Z.
Proof.
  intros t0 t1 e coll d Hreq He Hfresh.
  unfold createSession. rewrite Hreq, He.
  set (s0 := mkSession _ _ _ _ t1 t1 (t0 + e * 1000)%Z true).
  assert (Hid : session_id (pre_save s0) = str_or_empty (d_session_id d)).
  { unfold pre_save. destruct (_ <? _)%Z; reflexivity. }
  rewrite Hid, (existsb_fresh coll _ Hfresh).
  exists (pre_save s0). split; [reflexivity|].
  unfold pre_save, maxLifetime, day_ms.
  cbn [created_at expires_at s0].
  destruct (Z.ltb_spec (t1 + 30 * 24 * 60 * 60 * 1000) (t0 + e * 1000));
    cbn [created_at expires_at s0 set_expires_at];
    repeat split; intros; lia.
Qed.

(** The forty-day request on an empty store, the clock reads two
    milliseconds apart. *)
Lemma createSession_expiry_witness :
  required_errors forty_days = []
  /\ d_expires_in forty_days = Some (40 * 24 * 3600)%Z
  /\ exists s,
       createSession 1000000 1000002 [] forty_days = Ok (s, [s])
       /\ created_at s = 1000002%Z
       /\ expires_at s = (1000002 + 30 * day_ms)%Z.
Proof.
  split; [reflexivity|]. split; [reflexivity|].
  destruct (createSession_expiry 1000000 1000002 (40 * 24 * 3600) []
              forty_days eq_refl eq_refl)
    as (s & E & C & _ & _ & _ & F & _).
  - intros x [].
  - exists s. split; [exact E|]. split; [exact C|].
    rewrite F; [rewrite C; reflexivity | reflexivity | unfold day_ms; lia].
Defined.

End SessionFacts.

(** ** Settings: validation *)

Module SettingsFacts.
Import Settings.

Section Validation.

Variable RegExp_test : jsstring -> jsstring -> option bool.
Variable StringToNumber : jsstring -> option Z.
Variable ToPrimitive : nat -> jsvalue.

Lemma string_checks_true (val : Validation) (str : jsstring) :
  string_checks RegExp_test val str = Ok true <->
  (forall m, min_length val = Some m -> m <> 0%Z ->
     (m <= Z.of_nat (JsString.length str))%Z)
  /\ (forall m, max_length val = Some m -> m <> 0%Z ->
     (Z.of_nat (JsString.length str) <= m)%Z)
  /\ (forall pat, pattern val = Some pat -> pat <> [] ->
     RegExp_test pat str = Some true).
Proof.
  unfold string_checks, number_set.
  set (len := Z.of_nat (JsString.length str)).
  destruct (min_length val) as [mn|], (max_length val) as [mx|],
           (pattern val) as [[|c pat]|]; cbn [truthy];
    repeat match goal with
           | |- context [Z.eqb ?a 0] =>
               destruct (Z.eqb_spec a 0); cbn [negb andb]
           | |- context [Z.ltb ?a ?b] =>
               destruct (Z.ltb_spec a b); cbn [negb andb]
           | |- context [RegExp_test ?a ?b] =>
               destruct (RegExp_test a b) as [[|]|] eqn:?
           end;
    (split;
     [ intros Hyp; try discriminate Hyp;
       (split; [|split]); intros ? Eq Nz; inversion Eq; subst;
       try lia; try congruence; auto
     | intros (G1 & G2 & G3); try reflexivity;
       try (specialize (G1 _ eq_refl); lia);
       try (specialize (G2 _ eq_refl); lia);
       try (specialize (G3 _ eq_refl); assert (c :: pat <> []) by discriminate;
            intuition congruence) ]).
Qed.

Lemma validateValue_true (s : Setting) (v : jsvalue) :
  validateValue RegExp_test StringToNumber ToPrimitive s v = Ok true
  <-> code_accepts RegExp_test StringToNumber ToPrimitive s v.
Proof.
  unfold validateValue, code_accepts.
  destruct (validation s) as [val|]; [|tauto].
  set (typed := match v with
                | VString str =>
                    if stype_is_string (type s)
                    then string_checks RegExp_test val str else Ok true
                | _ => Ok true
                end).
  set (T := stype_is_string (type s) = true ->
            forall str, v = VString str -> _).
  assert (HT : typed = Ok true <-> T).
  { unfold typed, T.
    destruct v as [| |b|z|str|r];
      try (split; [intros _ _ str' [=] | reflexivity]).
    destruct (stype_is_string (type s)).
    - rewrite string_checks_true. split.
      + intros H _ str' [= <-]. exact H.
      + intros H. exact (H eq_refl str eq_refl).
    - split; [intros _ [=] | reflexivity]. }
  destruct (required val && is_empty v) eqn:Hre.
  - split; [discriminate|]. intros (A & _).
    apply andb_true_iff in Hre as [Hr He].
    rewrite (A Hr) in He. discriminate.
  - assert (A : required val = true -> is_empty v = false).
    { intros Hr. rewrite Hr in Hre. exact Hre. }
    destruct typed as [[|]|e|]; cbn [bind negb].
    + destruct (options val) as [|o os].
      * split; [|reflexivity]. intros _.
        split; [exact A|]. split; [apply HT; reflexivity|].
        intros C. contradiction.
      * split.
        -- intros H. split; [exact A|].
           split; [apply HT; reflexivity|]. intros _. congruence.
        -- intros (_ & _ & C). rewrite C; [reflexivity | discriminate].
    + split; [discriminate|]. intros (_ & B & _).
      apply HT in B. discriminate.
    + split; [discriminate|]. intros (_ & B & _).
      apply HT in B. discriminate.
    + split; [discriminate|]. intros (_ & B & _).
      apply HT in B. discriminate.
Qed.

Lemma setSetting_outcome (coll : Collection) (k : jsstring) (s : Setting)
  (v : jsvalue) (userId : option jsstring) :
  findOne k coll = Some s ->
  setSetting RegExp_test StringToNumber ToPrimitive coll k v userId
  = match validateValue RegExp_test StringToNumber ToPrimitive s v with
    | Ok true =>
        Ok (set_value v userId s, update_first k (set_value v userId) coll)
    | Ok false => Throw InvalidSettingValue
    | Throw e => Throw e
    | OutOfFuel => OutOfFuel
    end.
Proof.
  intros H. unfold setSetting. rewrite H.
  destruct (validateValue RegExp_test StringToNumber ToPrimitive s v)
    as [[|]|e|]; reflexivity.
Qed.

Lemma validateValue_total (s : Setting) (v : jsvalue) :
  validateValue RegExp_test StringToNumber ToPrimitive s v <> OutOfFuel.
Proof.
  unfold validateValue. destruct (validation s) as [val|]; [|discriminate].
  destruct (required val && is_empty v); [discriminate|].
  assert (S : forall str, string_checks RegExp_test val str <> OutOfFuel).
  { intros str. unfold string_checks.
    repeat match goal with
           | |- context [if ?b then _ else _] => destruct b
           | |- context [match ?o with Some _ => _ | None => _ end] =>
               destruct o
           end; discriminate. }
  destruct v as [| |b|z|str|r]; cbn [bind negb];
    try (destruct (options val); discriminate).
  destruct (stype_is_string (type s)); cbn [bind negb];
    try (destruct (options val); discriminate).
  specialize (S str).
  destruct (string_checks RegExp_test val str) as [[|]|e|]; cbn [bind negb];
    try discriminate; try contradiction.
  destruct (options val); discriminate.
Qed.

End Validation.




(** ** Settings: seeding the defaults *)

Lemma findOne_app (k : jsstring) (c1 c2 : Collection) :
  findOne k (c1 ++ c2)
  = match findOne k c1 with Some s => Some s | None => findOne k c2 end.
Proof.
  unfold findOne. induction c1 as [|s c1 IH]; simpl; auto.
  destruct (eqb (key s) k); auto.
Qed.

Lemma findOne_key (k : jsstring) (c : Collection) (s : Setting) :
  findOne k c = Some s -> key s = k.
Proof.
  unfold findOne. intros H. apply find_some in H as [_ H].
  apply eqb_eq; exact H.
Qed.

Lemma findOne_none (k : jsstring) (c : Collection) :
  findOne k c = None -> forall s, In s c -> key s <> k.
Proof.
  unfold findOne. intros H s Hs. apply eqb_neq.
  exact (find_none _ _ H s Hs).
Qed.

Lemma findOne_filter_nodup (f : Setting -> bool) (l : list Setting)
  (d : Setting) :
  NoDup (map key l) -> In d (filter f l) ->
  findOne (key d) (filter f l) = Some d.
Proof.
  induction l as [|x l IH]; simpl; [contradiction|].
  intros Hnd Hin. inversion Hnd as [|? ? Hx Hl]; subst.
  destruct (f x) eqn:Fx.
  - destruct Hin as [->|Hin].
    + unfold findOne. simpl. rewrite eqb_refl. reflexivity.
    + unfold findOne. simpl. destruct (eqb (key x) (key d)) eqn:E.
      * apply eqb_eq in E. exfalso. apply Hx. rewrite E.
        apply in_map. apply filter_In in Hin. tauto.
      * apply IH; auto.
  - apply IH; auto.
Qed.

Lemma filter_none {A} (f : A -> bool) (l : list A) :
  (forall x, In x l -> f x = false) -> filter f l = [].
Proof.
  induction l as [|x l IH]; simpl; auto.
  intros H. rewrite (H x) by auto. apply IH. auto.
Qed.

Lemma fold_upsert (ds : list Setting) :
  NoDup (map key ds) ->
  forall coll,
    fold_left upsert_setOnInsert ds coll = coll ++ filter (absentb coll) ds.
Proof.
  induction ds as [|d ds IH]; intros Hnd coll; simpl.
  - rewrite app_nil_r. reflexivity.
  - inversion Hnd as [|? ? Hd Hds]; subst.
    rewrite (IH Hds). unfold upsert_setOnInsert, absentb at 2.
    destruct (findOne (key d) coll) eqn:F; [reflexivity|].
    rewrite <- app_assoc. simpl. do 2 f_equal.
    apply filter_ext_in. intros x Hx. unfold absentb.
    rewrite findOne_app. destruct (findOne (key x) coll); auto.
    unfold findOne. simpl. destruct (eqb (key d) (key x)) eqn:E; auto.
    apply eqb_eq in E. exfalso. apply Hd. rewrite E. apply in_map. exact Hx.
Qed.

Lemma default_keys_distinct : NoDup (map key defaultSettings).
Proof.
  vm_compute.
  repeat (constructor; [simpl; intuition discriminate|]). constructor.
Qed.

Lemma initializeDefaults_spec (coll : Collection) :
  initializeDefaults coll = coll ++ filter (absentb coll) defaultSettings.
Proof. apply fold_upsert, default_keys_distinct. Qed.

Lemma initializeDefaults_fixed (c : Collection) :
  (forall d, In d defaultSettings -> findOne (key d) c <> None) ->
  initializeDefaults c = c.
Proof.
  intros H. rewrite initializeDefaults_spec, filter_none.
  - apply app_nil_r.
  - intros d Hd. unfold absentb. specialize (H d Hd).
    destruct (findOne (key d) c); congruence.
Qed.

Lemma defaults_present_after (coll : Collection) (d : Setting) :
  In d defaultSettings ->
  findOne (key d) (initializeDefaults coll) <> None.
Proof.
  intros Hd. rewrite initializeDefaults_spec, findOne_app.
  destruct (findOne (key d) coll) eqn:F; [discriminate|].
  rewrite findOne_filter_nodup; [discriminate|apply default_keys_distinct|].
  apply filter_In. split; auto. unfold absentb. rewrite F. reflexivity.
Qed.

Lemma findOne_update_first (k k' : jsstring) (f : Setting -> Setting)
  (c : Collection) :
  (forall s, key (f s) = key s) ->
  findOne k' (update_first k f c)
  = if eqb k' k then option_map f (findOne k c) else findOne k' c.
Proof.
  intros Hf. unfold findOne. induction c as [|s c IH]; simpl.
  - destruct (eqb k' k); reflexivity.
  - destruct (eqb (key s) k) eqn:E1; simpl.
    + rewrite Hf. apply eqb_eq in E1. rewrite E1.
      destruct (eqb k' k) eqn:E2.
      * apply eqb_eq in E2. subst k'. rewrite eqb_refl. reflexivity.
      * assert (E3 : eqb k k' = false).
        { apply eqb_neq. intros ->. rewrite eqb_refl in E2. discriminate. }
        rewrite E3. reflexivity.
    + destruct (eqb (key s) k') eqn:E3.
      * destruct (eqb k' k) eqn:E2; auto.
        apply eqb_eq in E2, E3. subst. rewrite eqb_refl in E1. discriminate.
      * exact IH.
Qed.

(** C5.  [initializeDefaults] appends, after the records already there,
    exactly the defaults whose key is absent; a default whose key is
    absent is found under its key afterwards; every record found under a
    key before the call is found unchanged after it; running it a second
    time changes nothing; and after any successful [setSetting] on the
    seeded store a further run leaves the store as it is, so that the
    key reads as [setSetting] left it: as the new value, or as before
    when the new value was [undefined]. *)
Theorem initializeDefaults_insert_only :
  forall coll : Collection,
    initializeDefaults coll = coll ++ filter (absentb coll) defaultSettings
    /\ (forall d, In d defaultSettings -> findOne (key d) coll = None ->
          findOne (key d) (initializeDefaults coll) = Some d)
    /\ (forall k s, findOne k coll = Some s ->
          findOne k (initializeDefaults coll) = Some s
          /\ getSetting (initializeDefaults coll) k = value s)
    /\ initializeDefaults (initializeDefaults coll) = initializeDefaults coll
    /\ (forall RegExp_test StringToNumber ToPrimitive k v userId s' c',
          setSetting RegExp_test StringToNumber ToPrimitive
            (initializeDefaults coll) k v userId
          = Ok (s', c') ->
          initializeDefaults c' = c'
          /\ getSetting c' k
             = written v (getSetting (initializeDefaults coll) k)
          /\ getSetting (initializeDefaults c') k = getSetting c' k).
Proof.
  intros coll. split; [apply initializeDefaults_spec|].
  split; [|split; [|split]].
  - intros d Hd F. rewrite initializeDefaults_spec, findOne_app, F.
    apply findOne_filter_nodup; [apply default_keys_distinct|].
    apply filter_In. split; auto. unfold absentb. rewrite F. reflexivity.
  - intros k s F.
    assert (E : findOne k (initializeDefaults coll) = Some s)
      by (rewrite initializeDefaults_spec, findOne_app, F; reflexivity).
    split; [exact E|]. unfold getSetting. rewrite E. reflexivity.
  - apply initializeDefaults_fixed. intros d Hd.
    apply defaults_present_after; exact Hd.
  - intros R N P k v userId s' c' H. unfold setSetting in H.
    destruct (findOne k (initializeDefaults coll)) as [s|] eqn:F;
      [|discriminate].
    destruct (validateValue R N P s v) as [[|]|e|]; try discriminate.
    cbn [bind negb] in H. injection H as <- <-.
    assert (Fk : forall k',
               findOne k' (update_first k (set_value v userId)
                             (initializeDefaults coll))
               = if eqb k' k
                 then option_map (set_value v userId)
                        (findOne k (initializeDefaults coll))
                 else findOne k' (initializeDefaults coll))
      by (intros k'; apply findOne_update_first; reflexivity).
    assert (Fix : initializeDefaults
                    (update_first k (set_value v userId)
                       (initializeDefaults coll))
                  = update_first k (set_value v userId)
                      (initializeDefaults coll)).
    { apply initializeDefaults_fixed. intros d Hd. rewrite Fk.
      destruct (eqb (key d) k).
      - rewrite F. discriminate.
      - apply defaults_present_after; exact Hd. }
    split; [exact Fix|]. split; [|rewrite Fix; reflexivity].
    unfold getSetting. rewrite Fk, eqb_refl, F. reflexivity.
Qed.

(** ** Settings: access levels *)

Lemma insert_sorted_perm (s : Setting) (l : list Setting) :
  Permutation (insert_sorted s l) (s :: l).
Proof.
  induction l as [|h t IH]; simpl; auto.
  destruct (setting_leb s h); auto.
  rewrite IH. apply perm_swap.
Qed.

Lemma sort_perm (l : list Setting) : Permutation (sort l) l.
Proof.
  induction l as [|h t IH]; simpl; auto.
  rewrite insert_sorted_perm. constructor. exact IH.
Qed.

Lemma level_in_public (s : Setting) :
  level_in [js "public"] s = is_public s.
Proof. unfold level_in, is_public. destruct (access_level s); reflexivity. Qed.

Lemma level_in_admin (s : Setting) :
  level_in [js "public"; js "admin"] s = is_public_or_admin s.
Proof.
  unfold level_in, is_public_or_admin.
  destruct (access_level s); reflexivity.
Qed.

Lemma level_in_super_admin (s : Setting) :
  level_in [js "public"; js "admin"; js "super_admin"] s = true.
Proof. unfold level_in. destruct (access_level s); reflexivity. Qed.

Lemma filter_all {A} (f : A -> bool) (l : list A) :
  (forall x, f x = true) -> filter f l = l.
Proof.
  intros H. induction l as [|x l IH]; simpl; auto.
  rewrite H, IH. reflexivity.
Qed.

Lemma inherited_not_recognised (lvl : jsstring) :
  existsb (eqb lvl) object_prototype_names = true -> recognised lvl = false.
Proof.
  intros H. apply existsb_exists in H as (x & Hx & E).
  apply eqb_eq in E. subst x.
  unfold object_prototype_names in Hx. simpl in Hx.
  repeat (destruct Hx as [<-|Hx]; [reflexivity|]). contradiction.
Qed.

Lemma levels_get_unrecognised (lvl : jsstring) :
  recognised lvl = false ->
  levels_get lvl
  = if existsb (eqb lvl) object_prototype_names
    then Some (Inherited lvl) else None.
Proof.
  unfold recognised, levels_get. intros H.
  apply orb_false_iff in H as [H H3]. apply orb_false_iff in H as [H1 H2].
  rewrite H1, H2, H3. reflexivity.
Qed.

(** C6, at the failing input and in general.  The levels [public],
    [admin] and [super_admin] return exactly the public records, exactly
    the public and admin records (none of them super_admin), and all
    records; an unrecognised level that names no member of
    [Object.prototype] is answered as [public].  A level such as
    ["constructor"] is found on the prototype of [levels], so the
    fallback is not taken and the answer is whatever the driver makes of
    a [$in] operand that is not an array: with a driver that then matches
    no document, the store holding one public record answers
    ["constructor"] with nothing and ["public"] with that record. *)
Theorem getSettingsByAccessLevel_levels :
  forall (driver : jsstring -> Collection -> outcome (list Setting))
         (coll : Collection),
    (exists l, getSettingsByAccessLevel driver coll (js "public") = Ok l
               /\ Permutation l (filter is_public coll))
    /\ (exists l, getSettingsByAccessLevel driver coll (js "admin") = Ok l
                  /\ Permutation l (filter is_public_or_admin coll)
                  /\ Forall (fun s => access_level s <> super_admin) l)
    /\ (exists l, getSettingsByAccessLevel driver coll (js "super_admin")
                  = Ok l
                  /\ Permutation l coll)
    /\ (forall lvl,
          recognised lvl = false ->
          existsb (eqb lvl) object_prototype_names = false ->
          getSettingsByAccessLevel driver coll lvl
          = getSettingsByAccessLevel driver coll (js "public"))
    /\ (forall lvl,
          existsb (eqb lvl) object_prototype_names = true ->
          recognised lvl = false
          /\ allowedLevels lvl = Inherited lvl
          /\ getSettingsByAccessLevel driver coll lvl = driver lvl coll)
    /\ (getSettingsByAccessLevel matches_nothing [theme] (js "constructor")
        = Ok []
        /\ getSettingsByAccessLevel matches_nothing [theme] (js "public")
           = Ok [theme]).
Proof.
  intros driver coll.
  split; [|split; [|split; [|split; [|split]]]].
  - eexists. split; [reflexivity|]. rewrite sort_perm.
    rewrite (filter_ext _ _ level_in_public). reflexivity.
  - eexists. split; [reflexivity|].
    rewrite (filter_ext _ _ level_in_admin). split; [apply sort_perm|].
    apply Forall_forall. intros s Hs.
    apply (Permutation_in _ (sort_perm _)) in Hs.
    apply filter_In in Hs as [_ Hs]. unfold is_public_or_admin in Hs.
    destruct (access_level s); discriminate.
  - eexists. split; [reflexivity|]. rewrite sort_perm.
    rewrite (filter_all _ _ level_in_super_admin). reflexivity.
  - intros lvl Hr Hp. unfold getSettingsByAccessLevel, allowedLevels.
    rewrite (levels_get_unrecognised _ Hr), Hp. reflexivity.
  - intros lvl Hp. pose proof (inherited_not_recognised _ Hp) as Hr.
    split; [exact Hr|].
    unfold getSettingsByAccessLevel, allowedLevels.
    rewrite (levels_get_unrecognised _ Hr), Hp. split; reflexivity.
  - split; reflexivity.
Qed.

End SettingsFacts.


(** ** The generic repository: ordering and pagination *)

Module RepositoryFacts.
Import Repository.

Section Generic.

Variable A : Type.

Lemma insert_by_perm (leb : A -> A -> bool) (x : A) (l : list A) :
  Permutation (insert_by leb x l) (x :: l).
Proof.
  induction l as [|h t IH]; simpl; auto.
  destruct (leb x h); auto. rewrite IH. apply perm_swap.
Qed.

Lemma sort_by_perm (leb : A -> A -> bool) (l : list A) :
  Permutation (sort_by leb l) l.
Proof.
  induction l as [|h t IH]; simpl; auto.
  rewrite insert_by_perm. constructor. exact IH.
Qed.

Lemma sort_by_length (leb : A -> A -> bool) (l : list A) :
  List.length (sort_by leb l) = List.length l.
Proof. apply Permutation_length, sort_by_perm. Qed.

Lemma insert_by_sorted (leb : A -> A -> bool) (x : A) (l : list A) :
  (forall a b, leb a b = false -> leb b a = true) ->
  Sorted.Sorted (fun a b => leb a b = true) l ->
  Sorted.Sorted (fun a b => leb a b = true) (insert_by leb x l).
Proof.
  intros Htot. induction 1 as [|h t Hs IH Hh]; simpl.
  - repeat constructor.
  - destruct (leb x h) eqn:E.
    + constructor; [constructor; assumption|]. constructor. exact E.
    + constructor; [exact IH|].
      destruct t as [|h' t']; simpl.
      * constructor. apply Htot; exact E.
      * destruct (leb x h'); constructor.
        -- apply Htot; exact E.
        -- inversion Hh; assumption.
Qed.

Lemma sort_by_sorted (leb : A -> A -> bool) (l : list A) :
  (forall a b, leb a b = false -> leb b a = true) ->
  Sorted.Sorted (fun a b => leb a b = true) (sort_by leb l).
Proof.
  intros Htot. induction l as [|h t IH]; simpl.
  - constructor.
  - apply insert_by_sorted; assumption.
Qed.

Lemma ceil_div_spec (total limit : nat) :
  1 <= limit ->
  total <= ceil_div total limit * limit
  /\ (0 < total -> (ceil_div total limit - 1) * limit < total)
  /\ (total = 0 -> ceil_div total limit = 0).
Proof.
  intros Hl. unfold ceil_div.
  pose proof (Nat.div_mod_eq (total + limit - 1) limit) as E.
  pose proof (Nat.mod_upper_bound (total + limit - 1) limit) as B.
  set (q := (total + limit - 1) / limit) in *.
  set (r := (total + limit - 1) mod limit) in *.
  assert (Hr : r < limit) by (apply B; lia).
  repeat split.
  - nia.
  - intros Ht. destruct q as [|q]; [nia|]. simpl. nia.
  - intros ->. destruct q as [|q]; [reflexivity|]. exfalso. nia.
Qed.

Lemma firstn_add (a b : nat) (l : list A) :
  firstn (a + b) l = firstn a l ++ firstn b (skipn a l).
Proof.
  revert l. induction a as [|a IH]; intros [|x l]; simpl; auto.
  - destruct b; reflexivity.
  - f_equal. apply IH.
Qed.

Lemma pages_concat (l : list A) (n k : nat) :
  List.concat (map (fun p => firstn n (skipn ((p - 1) * n) l)) (seq 1 k))
  = firstn (k * n) l.
Proof.
  induction k as [|k IH].
  - reflexivity.
  - rewrite seq_S, map_app, List.concat_app, IH. simpl.
    rewrite app_nil_r. replace (k - 0) with k by lia.
    replace (n + k * n) with (k * n + n) by lia.
    symmetry. apply firstn_add.
Qed.

Lemma getlist_page (query : A -> bool) (sort : list A -> list A)
  (skip limit : nat) (coll : list A) :
  1 <= limit ->
  getlist query sort skip limit coll
  = firstn limit (skipn skip (sort (filter query coll))).
Proof.
  intros Hl. unfold getlist.
  destruct (Nat.eqb_spec limit 0) as [->|_]; [lia|].
  destruct (Nat.eqb_spec skip 0) as [->|_]; reflexivity.
Qed.

Lemma documents_page (query : A -> bool) (sort : list A -> list A)
  (p limit : nat) (coll : list A) :
  1 <= p -> 1 <= limit ->
  documents (paginate query sort p limit coll)
  = firstn limit (skipn ((p - 1) * limit) (sort (filter query coll))).
Proof.
  intros Hp Hl. unfold paginate.
  destruct (Nat.eqb_spec p 0) as [->|_]; [lia|].
  destruct (Nat.eqb_spec limit 0) as [->|_]; [lia|].
  cbn [andb documents]. apply getlist_page; exact Hl.
Qed.

Lemma pages_in_order (query : A -> bool) (sort : list A -> list A)
  (limit : nat) (coll : list A) :
  (forall l, List.length (sort l) = List.length l) ->
  1 <= limit ->
  List.concat (map (fun p => documents (paginate query sort p limit coll))
            (seq 1 (ceil_div (count query coll) limit)))
  = sort (filter query coll).
Proof.
  intros Hsort Hl.
  destruct (ceil_div_spec (count query coll) limit Hl) as (C1 & _ & _).
  rewrite (map_ext_in _ (fun p => firstn limit
            (skipn ((p - 1) * limit) (sort (filter query coll))))).
  - rewrite pages_concat. apply firstn_all2.
    rewrite Hsort. exact C1.
  - intros p Hin. apply in_seq in Hin. apply documents_page; lia.
Qed.

(** X1.  For a page number and a page size of at least one, and a sort
    that keeps the number of documents, [paginate] returns the slice of
    the sorted matches that starts after [(page - 1) * limit] documents
    and holds at most [limit] of them; [total_documents] is the number
    of matches, [total_pages] is the least number of pages that holds
    them all, [has_next_page] says exactly that matches remain after
    this page, and [has_prev_page] that the page is not the first. *)
Theorem paginate_slice :
  forall (query : A -> bool) (sort : list A -> list A) (page limit : nat)
         (coll : list A),
    (forall l, List.length (sort l) = List.length l) ->
    1 <= page -> 1 <= limit ->
    exists docs pg tp,
      paginate query sort page limit coll = Done (docs, pg)
      /\ docs
         = firstn limit
             (skipn ((page - 1) * limit) (sort (filter query coll)))
      /\ List.length docs
         = Nat.min limit (count query coll - (page - 1) * limit)
      /\ total_documents pg = count query coll
      /\ total_pages pg = Some tp
      /\ count query coll <= tp * limit
      /\ (0 < count query coll -> (tp - 1) * limit < count query coll)
      /\ (count query coll = 0 -> tp = 0)
      /\ (has_next_page pg = true <-> page * limit < count query coll)
      /\ (has_prev_page pg = true <-> 1 < page).
Proof.
  intros query sort page limit coll Hsort Hp Hl.
  unfold paginate.
  destruct (Nat.eqb_spec page 0) as [->|_]; [lia|].
  destruct (Nat.eqb_spec limit 0) as [->|_]; [lia|].
  cbn [andb].
  destruct (ceil_div_spec (count query coll) limit Hl) as (C1 & C2 & C3).
  eexists; eexists; exists (ceil_div (count query coll) limit).
  split; [reflexivity|].
  cbn [total_documents total_pages has_next_page has_prev_page].
  rewrite (getlist_page query sort _ limit coll Hl).
  split; [reflexivity|].
  split.
  { rewrite length_firstn, length_skipn, Hsort. reflexivity. }
  split; [reflexivity|]. split; [reflexivity|].
  split; [exact C1|]. split; [exact C2|]. split; [exact C3|].
  split.
  - rewrite Nat.ltb_lt. split; intros H.
    + destruct (Nat.eq_dec (count query coll) 0) as [E|E].
      * rewrite (C3 E) in H. lia.
      * assert (0 < count query coll) by lia. specialize (C2 H0). nia.
    + nia.
  - apply Nat.ltb_lt.
Qed.

(** X2.  Read one after the other, the pages [1] to [total_pages] give
    back every match exactly once, in sorted order; a page beyond the
    last one is empty. *)
Theorem paginate_covers :
  forall (query : A -> bool) (sort : list A -> list A) (limit : nat)
         (coll : list A),
    (forall l, List.length (sort l) = List.length l) ->
    1 <= limit ->
    List.concat (map (fun p => documents (paginate query sort p limit coll))
              (seq 1 (ceil_div (count query coll) limit)))
    = sort (filter query coll)
    /\ (forall p, ceil_div (count query coll) limit < p ->
          documents (paginate query sort p limit coll) = []).
Proof.
  intros query sort limit coll Hsort Hl.
  split.
  - apply pages_in_order; assumption.
  - intros p Hp. rewrite documents_page by lia.
    destruct (ceil_div_spec (count query coll) limit Hl) as (C1 & _ & _).
    rewrite skipn_all2; [destruct limit; reflexivity|].
    rewrite Hsort. unfold count in *. nia.
Qed.

End Generic.

(** Five documents, two to a page. *)
Lemma paginate_slice_witness :
  exists docs pg,
    paginate (fun _ : nat => true) (fun l => l) 2 2 [1; 2; 3; 4; 5]
    = Done (docs, pg)
    /\ docs = [3; 4]
    /\ total_pages pg = Some 3
    /\ has_next_page pg = true.
Proof.
  destruct (@paginate_slice nat (fun _ => true) (fun l => l) 2 2
              [1; 2; 3; 4; 5] (fun l => eq_refl) (le_S _ _ (le_n 1))
              (le_S _ _ (le_n 1)))
    as (docs & pg & tp & E & D & _ & _ & T & C1 & C2 & _ & N & _).
  exists docs, pg. split; [exact E|]. split; [exact D|].
  split.
  - rewrite T. f_equal. cbn in C1, C2.
    specialize
      (C2 (le_S _ _ (le_S _ _ (le_S _ _ (le_S _ _ (le_n 1)))))).
    lia.
  - apply N. cbn. lia.
Defined.

Lemma paginate_covers_witness :
  List.concat (map (fun p => documents
                          (paginate (fun _ : nat => true) (fun l => l) p 2
                             [1; 2; 3; 4; 5]))
            (seq 1 3))
  = [1; 2; 3; 4; 5].
Proof.
  exact (proj1 (@paginate_covers nat (fun _ => true) (fun l => l) 2
                  [1; 2; 3; 4; 5] (fun l => eq_refl) (le_S _ _ (le_n 1)))).
Defined.

End RepositoryFacts.

(** ** Slugs are stable under [generateSlug] *)

Module SlugFacts.
Import Content ContentOps.

Lemma slug_char_ascii (c : N) : is_slug_char c = true -> (c < 128)%N.
Proof.
  unfold is_slug_char, is_lower_az, is_digit, is_hyphen.
  rewrite !orb_true_iff, !andb_true_iff, !N.leb_le, N.eqb_eq. lia.
Qed.

Lemma slug_char_not_space (c : N) : is_slug_char c = true -> is_space c = false.
Proof.
  intros H. unfold is_space.
  unfold is_slug_char, is_lower_az, is_digit, is_hyphen in H.
  rewrite !orb_true_iff, !andb_true_iff, !N.leb_le, N.eqb_eq in H.
  repeat (apply orb_false_iff; split);
    try (apply N.eqb_neq; lia);
    apply andb_false_iff; rewrite !N.leb_gt; lia.
Qed.

Lemma slug_char_kept (c : N) : is_slug_char c = true -> is_kept c = true.
Proof.
  unfold is_slug_char, is_kept.
  destruct (is_lower_az c), (is_digit c), (is_hyphen c), (is_space c);
    simpl; auto.
Qed.

Lemma trimStart_no_space (s : jsstring) :
  forallb is_slug_char s = true -> trimStart s = s.
Proof.
  destruct s as [|c s]; simpl; auto.
  intros H. apply andb_true_iff in H as [Hc _].
  rewrite (slug_char_not_space c Hc). reflexivity.
Qed.

Lemma trimEnd_no_space (s : jsstring) :
  forallb is_slug_char s = true -> trimEnd s = s.
Proof.
  induction s as [|c s IH]; simpl; auto.
  intros H. apply andb_true_iff in H as [Hc Hs].
  rewrite (IH Hs). destruct s; auto.
  rewrite (slug_char_not_space c Hc). reflexivity.
Qed.

Lemma filter_kept_id (s : jsstring) :
  forallb is_slug_char s = true -> filter is_kept s = s.
Proof.
  induction s as [|c s IH]; simpl; auto.
  intros H. apply andb_true_iff in H as [Hc Hs].
  rewrite (slug_char_kept c Hc), (IH Hs). reflexivity.
Qed.

Lemma spaces_none (s : jsstring) (prev : bool) :
  forallb is_slug_char s = true -> replace_runs is_space hyphen prev s = s.
Proof.
  revert prev. induction s as [|c s IH]; intros prev H; simpl; auto.
  apply andb_true_iff in H as [Hc Hs].
  rewrite (slug_char_not_space c Hc), (IH false Hs). reflexivity.
Qed.

Lemma hyphens_single (s : jsstring) (prev : bool) :
  no_double_hyphen s = true ->
  (prev = true -> head_not_hyphen s = true) ->
  replace_runs is_hyphen hyphen prev s = s.
Proof.
  revert prev. induction s as [|c s IH]; intros prev Hd Hp; simpl; auto.
  pose proof (no_double_tail _ _ Hd) as Ht.
  destruct (is_hyphen c) eqn:E.
  - destruct prev.
    + specialize (Hp eq_refl). simpl in Hp. rewrite E in Hp. discriminate.
    + apply is_hyphen_eq in E as ->. f_equal. apply IH; auto.
      intros _. destruct s as [|d s]; simpl in *; auto.
      apply andb_true_iff in Hd as [Hd _].
      destruct (is_hyphen d); auto.
  - f_equal. apply IH; auto. discriminate.
Qed.

Lemma strip_leading_id (s : jsstring) :
  head_not_hyphen s = true -> strip_leading s = s.
Proof.
  destruct s as [|c s]; simpl; auto.
  intros H. apply negb_true_iff in H. rewrite H. reflexivity.
Qed.

Lemma strip_trailing_id (s : jsstring) :
  last_not_hyphen s = true -> strip_trailing s = s.
Proof.
  induction s as [|c s IH]; simpl; auto.
  destruct s as [|d s].
  - intros H. apply negb_true_iff in H. rewrite H. reflexivity.
  - intros H. f_equal. apply IH. exact H.
Qed.

Lemma generateSlug_shaped (toLowerCase : jsstring -> jsstring)
  (T : jsstring) :
  slug_shaped (generateSlug toLowerCase T) = true.
Proof.
  unfold generateSlug.
  set (s2 := replace_runs is_space hyphen false _).
  set (s3 := replace_runs is_hyphen hyphen false s2).
  assert (C3 : forallb is_slug_char s3 = true)
    by apply hyphens_collapsed_slug, spaces_replaced_slug, filter_kept.
  assert (D3 : no_double_hyphen s3 = true)
    by apply (hyphens_collapsed_no_double s2 false).
  destruct (strip_leading_no_double s3 D3) as [D4 H4].
  destruct (strip_trailing_no_double _ D4) as [D5 L5].
  unfold slug_shaped.
  rewrite (@strip_trailing_slug _ (@strip_leading_slug s3 C3)),
          (@strip_trailing_head _ H4), L5, D5.
  reflexivity.
Qed.

(** X3.  A string that already has the slug format is its own slug, so
    [generateSlug] applied to a generated slug changes nothing: slugs are
    stable when a title is set to an earlier slug.  The host's
    [toLowerCase] enters only through its value on ASCII strings. *)
Theorem generateSlug_fixed_point :
  forall toLowerCase : jsstring -> jsstring,
    lowers_ascii toLowerCase ->
    (forall s, slug_shaped s = true -> generateSlug toLowerCase s = s)
    /\ (forall T,
          generateSlug toLowerCase (generateSlug toLowerCase T)
          = generateSlug toLowerCase T).
Proof.
  intros toLowerCase Hlow.
  assert (F : forall s, slug_shaped s = true ->
                        generateSlug toLowerCase s = s).
  { intros s H. unfold slug_shaped in H.
    apply andb_true_iff in H as [H Hd].
    apply andb_true_iff in H as [H Hl].
    apply andb_true_iff in H as [Hc Hh].
    unfold generateSlug.
    rewrite Hlow
      by (apply Forall_forall; intros c Hin; apply slug_char_ascii;
          rewrite forallb_forall in Hc; auto).
    rewrite (@slug_chars_lowercase s Hc). unfold trim.
    rewrite (@trimStart_no_space s Hc), (@trimEnd_no_space s Hc),
            (@filter_kept_id s Hc), (@spaces_none s false Hc).
    rewrite (@hyphens_single s false Hd) by discriminate.
    rewrite (@strip_leading_id s Hh). apply strip_trailing_id; exact Hl. }
  split; [exact F|].
  intros T. apply F, generateSlug_shaped.
Qed.

Lemma generateSlug_fixed_point_witness :
  lowers_ascii asciiLower
  /\ generateSlug asciiLower (js "hello-world") = js "hello-world".
Proof.
  assert (H : lowers_ascii asciiLower) by (intros s _; reflexivity).
  split; [exact H|].
  apply (proj1 (generateSlug_fixed_point asciiLower H)). reflexivity.
Defined.

(** X4.  Among documents whose slugs satisfy the schema pattern, the
    virtual [url] tells documents apart: equal URLs mean equal slugs,
    and a blog URL is never the URL of a document of another type. *)
Theorem url_injective :
  forall d1 d2 : Doc,
    matches_slug_plus (slug d1) = true ->
    matches_slug_plus (slug d2) = true ->
    url d1 = url d2 ->
    slug d1 = slug d2 /\ (type d1 = blog <-> type d2 = blog).
Proof.
  intros d1 d2 H1 H2 E.
  assert (NoSlash : forall s t, matches_slug_plus s = true ->
                                s <> js "blog/" ++ t).
  { intros s t Hs ->. unfold matches_slug_plus in Hs.
    apply andb_true_iff in Hs as [_ Hs]. vm_compute in Hs.
    discriminate Hs. }
  unfold url in E.
  destruct (type d1) eqn:T1, (type d2) eqn:T2;
    try (apply app_inv_head in E; split; [exact E | tauto]);
    try (split; [|split; discriminate]);
    try (change (js "/blog/" ++ slug d1) with (js "/" ++ (js "blog/" ++ slug d1))
           in E; apply app_inv_head in E; exfalso;
         exact (NoSlash _ _ H2 (eq_sym E)));
    try (change (js "/blog/" ++ slug d2) with (js "/" ++ (js "blog/" ++ slug d2))
           in E; apply app_inv_head in E; exfalso;
         exact (NoSlash _ _ H1 E));
    try (apply app_inv_head in E; exact E).
Qed.

(** Two different blog posts with one URL have one slug; the article
    and the page ["about"] have different URLs. *)
Lemma url_injective_witness :
  article <> reprint
  /\ url article = url reprint
  /\ slug article = slug reprint
  /\ (type article = blog <-> type reprint = blog)
  /\ url article <> url about_page.
Proof.
  split; [discriminate|]. split; [reflexivity|].
  destruct (url_injective article reprint eq_refl eq_refl eq_refl) as [S T].
  split; [exact S|]. split; [exact T|].
  intros E.
  destruct (url_injective article about_page eq_refl eq_refl E) as [S' _].
  discriminate S'.
Defined.

End SlugFacts.

(** ** The content repository: what a stored document looks like *)

Module ContentOpsFacts.
Import Content ContentOps.

Lemma check_nil (b : bool) (p : string) : check b p = [] <-> b = true.
Proof. destruct b; simpl; split; auto; discriminate. Qed.

Lemma truthy_true (s : jsstring) : truthy s = true -> s <> [].
Proof. destruct s; [discriminate | discriminate]. Qed.

Lemma validation_passed (d : Doc) :
  validation_errors d = [] ->
  truthy (ID d) = true
  /\ truthy (title d) = true
  /\ matches_slug_plus (slug d) = true
  /\ (status d = published -> given (content d) = true)
  /\ exists au, author d = Some au /\ complete au.
Proof.
  unfold validation_errors. intros H.
  apply app_eq_nil in H as [H0 H]. apply app_eq_nil in H as [H1 H].
  apply app_eq_nil in H as [H2 H]. apply app_eq_nil in H as [H3 H].
  rewrite check_nil in *.
  split; [exact H0|]. split; [apply andb_true_iff in H1; tauto|].
  split; [exact H2|]. split.
  - intros E. rewrite E in H3. simpl in H3. exact H3.
  - unfold author_errors in H. destruct (author d) as [au|]; [|discriminate].
    apply app_eq_nil in H as [A H]. apply app_eq_nil in H as [B C].
    rewrite check_nil in *. exists au. split; [reflexivity|].
    repeat split; apply truthy_true; assumption.
Qed.

Lemma find_snoc {A} (q : A -> bool) (l : list A) (x : A) :
  existsb q l = false -> q x = true -> find q (l ++ [x]) = Some x.
Proof.
  induction l as [|h t IH]; simpl; intros E Q.
  - rewrite Q. reflexivity.
  - apply orb_false_iff in E as [-> E]. auto.
Qed.

Lemma existsb_false_all {A} (q : A -> bool) (l : list A) :
  existsb q l = false -> forall x, In x l -> q x = false.
Proof.
  intros E x Hx. destruct (q x) eqn:Q; auto.
  assert (existsb q l = true) by (apply existsb_exists; eauto). congruence.
Qed.

Lemma NoDup_snoc {A} (l : list A) (x : A) :
  NoDup l -> ~ In x l -> NoDup (l ++ [x]).
Proof.
  intros Hl Hx. apply (Permutation_NoDup (l := x :: l)).
  - apply Permutation_cons_append.
  - constructor; assumption.
Qed.

(** What a successful [insert] tells. *)
Lemma content_insert_inv (tl : jsstring -> jsstring) (now : Z)
  (newID : jsstring)
  (coll : Collection) (data : Data) (d : Doc) (c' : Collection) :
  insert tl now newID coll data = Ok (d, c') ->
  c' = coll ++ [d]
  /\ ID d = newID
  /\ d_title data = Some (title d)
  /\ matches_slug_plus (slug d) = true
  /\ (forall e, In e coll -> ID e <> ID d /\ slug e <> slug d)
  /\ (exists au, d_author data = Some au /\ author d = Some au
                 /\ complete au)
  /\ (exists ts, d_timestamps data = Some ts
                 /\ (status d <> published ->
                     published_at (timestamps d) = published_at ts))
  /\ created_at (timestamps d) = Some now
  /\ updated_at (timestamps d) = Some now
  /\ type d = match d_type data with Some t => t | None => page end
  /\ status d = match d_status data with Some s => s | None => draft end
  /\ (status d = published ->
      published_at (timestamps d) <> None /\ given (content d) = true)
  /\ findById (ID d) c' = Some d.
Proof.
  intros H. unfold insert in H.
  destruct (d_title data) as [ti|] eqn:Ht; [|discriminate].
  destruct (truthy ti); cbn [negb] in H; [|discriminate].
  match type of H with
  | context [ensureUniqueSlug tl coll ?s None] =>
      destruct (ensureUniqueSlug tl coll s None) as [s1| |]
  end; cbn [bind] in H; try discriminate.
  unfold base_insert in H.
  destruct (d_timestamps data) as [ts|] eqn:Hts;
    [|unfold validate in H; destruct (validation_errors _); discriminate].
  unfold validate in H.
  match type of H with
  | context [validation_errors ?x] =>
      set (d0 := x) in *; destruct (validation_errors d0) eqn:V
  end; cbn [bind] in H; [|discriminate].
  destruct (existsb _ coll) eqn:E1; [discriminate|].
  destruct (existsb _ coll) eqn:E2 in H; [discriminate|].
  injection H as <- <-.
  destruct (validation_passed d0 V) as (V1 & V2 & V3 & V4 & au & V5 & V6).
  split; [reflexivity|]. split; [reflexivity|]. split; [reflexivity|].
  split; [exact V3|].
  split.
  { intros e He. split.
    - apply eqb_neq. exact (existsb_false_all _ _ E1 e He).
    - apply eqb_neq. exact (existsb_false_all _ _ E2 e He). }
  split; [exists au; split; [exact V5|split; [exact V5|exact V6]]|].
  split.
  { exists ts. split; [reflexivity|]. intros Hs.
    change (status (pre_save true now d0)) with (status d0) in Hs.
    unfold pre_save. cbn [timestamps set_timestamps published_at].
    destruct (status d0); try contradiction;
      cbn [status_eqb]; unfold d0; cbn [timestamps published_at];
      destruct (published_at ts); reflexivity. }
  split; [reflexivity|]. split; [reflexivity|]. split; [reflexivity|].
  split; [reflexivity|].
  split.
  { intros Hs. split; [|exact (V4 Hs)].
    change (status (pre_save true now d0)) with (status d0) in Hs.
    unfold pre_save. cbn [timestamps set_timestamps published_at].
    rewrite Hs. destruct (published_at (timestamps d0)); discriminate. }
  unfold findById, findOne. apply find_snoc; [exact E1|apply eqb_refl].
Qed.

Lemma lowered_slug (tl : jsstring -> jsstring) (s : jsstring) :
  lowers_ascii tl -> matches_slug_plus s = true -> tl s = s.
Proof.
  intros Hlow H. unfold matches_slug_plus in H.
  apply andb_true_iff in H as [_ H].
  rewrite Hlow.
  - apply slug_chars_lowercase. exact H.
  - apply Forall_forall. intros c Hc. apply SlugFacts.slug_char_ascii.
    rewrite forallb_forall in H. auto.
Qed.

(** X5.  When [insert] succeeds the collection has grown by exactly the
    returned document, which carries the generated ID, the title that
    was passed, a slug that satisfies the schema pattern and that no
    earlier document has, the author that was passed, with its three
    paths filled in, both creation stamps at the time of the call, the
    default type and status unless given, and a publication date and a
    body when it is published; looking it up by its ID or, where
    [toLowerCase] lowers ASCII strings as usual, by its slug returns
    it.  An object without [timestamps] or without a complete author is
    never stored. *)
Theorem insert_stores :
  forall (toLowerCase : jsstring -> jsstring) (now : Z) (newID : jsstring)
         (coll : Collection) (data : Data) (d : Doc) (c' : Collection),
    insert toLowerCase now newID coll data = Ok (d, c') ->
    c' = coll ++ [d]
    /\ ID d = newID
    /\ d_title data = Some (title d)
    /\ matches_slug_plus (slug d) = true
    /\ (forall e, In e coll -> ID e <> ID d /\ slug e <> slug d)
    /\ (exists au, d_author data = Some au /\ author d = Some au
                   /\ author_id au <> [] /\ author_name au <> []
                   /\ author_email au <> [])
    /\ d_timestamps data <> None
    /\ created_at (timestamps d) = Some now
    /\ updated_at (timestamps d) = Some now
    /\ type d = match d_type data with Some t => t | None => page end
    /\ status d = match d_status data with Some s => s | None => draft end
    /\ (status d = published ->
        published_at (timestamps d) <> None /\ given (content d) = true)
    /\ findById (ID d) c' = Some d
    /\ (lowers_ascii toLowerCase ->
        findBySlug toLowerCase c' (slug d) = Some d).
Proof.
  intros tl now newID coll data d c' H.
  destruct (content_insert_inv tl now newID coll data d c' H)
    as (Ec & I & Ti & M & Fr & (au & A1 & A2 & A3 & A4 & A5) & (ts & T1 & _)
        & C & U & Ty & St & Pu & Fd).
  split; [exact Ec|]. split; [exact I|]. split; [exact Ti|].
  split; [exact M|]. split; [exact Fr|].
  split; [exists au; repeat split; assumption|].
  split; [congruence|].
  split; [exact C|]. split; [exact U|]. split; [exact Ty|].
  split; [exact St|]. split; [exact Pu|]. split; [exact Fd|].
  intros Hlow. subst c'. unfold findBySlug, findOne.
  rewrite (lowered_slug tl (slug d) Hlow M).
  apply find_snoc; [|apply eqb_refl].
  apply ContentFacts.existsb_none. intros e He. apply eqb_neq.
  exact (proj2 (Fr e He)).
Qed.

Lemma insert_stores_witness :
  exists d c',
    insert asciiLower 10 (js "id1") [article] (hello_world ann no_dates)
    = Ok (d, c')
    /\ c' = [article; d]
    /\ created_at (timestamps d) = Some 10%Z
    /\ findBySlug asciiLower c' (js "hello-world") = Some d.
Proof.
  eexists; eexists. split; [reflexivity|].
  destruct (insert_stores asciiLower 10 (js "id1") [article]
              (hello_world ann no_dates) _ _ eq_refl)
    as (C & _ & _ & _ & _ & _ & _ & T & _ & _ & _ & _ & _ & S).
  split; [exact C|]. split; [exact T|].
  apply S. intros s _. reflexivity.
Defined.

(** ** The content repository: invariants of the collection *)

Lemma replace_first_split (q : Doc -> bool) (f : Doc -> Doc)
  (coll : Collection) (d : Doc) :
  find q coll = Some d ->
  exists pre post,
    coll = pre ++ d :: post
    /\ (forall e, In e pre -> q e = false)
    /\ replace_first q f coll = pre ++ f d :: post
    /\ remove_first q coll = pre ++ post.
Proof.
  induction coll as [|h t IH]; simpl; [discriminate|].
  destruct (q h) eqn:Q.
  - intros [= <-]. exists [], t. repeat split; auto. intros e [].
  - intros F. destruct (IH F) as (pre & post & -> & Hpre & R1 & R2).
    exists (h :: pre), post. simpl. rewrite R1, R2. repeat split; auto.
    intros e [<-|He]; auto.
Qed.

Lemma findById_ID (id : jsstring) (coll : Collection) (d : Doc) :
  findById id coll = Some d -> ID d = id /\ In d coll.
Proof.
  unfold findById, findOne. intros H. apply find_some in H as [Hin H].
  apply eqb_eq in H. auto.
Qed.

Lemma NoDup_middle {A} (pre post : list A) (x y : A) :
  NoDup (pre ++ x :: post) -> ~ In y (pre ++ post) ->
  NoDup (pre ++ y :: post).
Proof.
  intros H Hy. apply NoDup_remove_1 in H.
  apply (Permutation_NoDup (l := y :: pre ++ post)).
  - apply Permutation_middle.
  - constructor; assumption.
Qed.

Lemma others_differ (pre post : Collection) (d e : Doc) :
  NoDup (map ID (pre ++ d :: post)) -> In e (pre ++ post) -> ID e <> ID d.
Proof.
  intros H He E. rewrite map_app in H. simpl in H.
  apply NoDup_remove_2 in H. apply H. rewrite <- map_app, <- E.
  apply in_map. exact He.
Qed.

Lemma base_update_well_formed (tl : jsstring -> jsstring)
  (coll : Collection) (id : jsstring) (p : Patch) (d' : Doc)
  (c' : Collection) :
  well_formed coll ->
  base_update tl coll id p = Ok (d', c') ->
  well_formed c'.
Proof.
  intros (Hid & Hslug & Hpat) H. unfold base_update in H.
  destruct (patch_errors tl p) eqn:PE; [|discriminate].
  destruct (findById id coll) as [d|] eqn:F; [|discriminate].
  match type of H with
  | context [if ?b then _ else _] => destruct b eqn:EX
  end; [discriminate|].
  injection H as <- <-.
  destruct (findById_ID _ _ _ F) as [Ed _].
  destruct (replace_first_split (fun e => eqb (ID e) id)
              (fun _ => apply_patch tl p d) coll d F)
    as (pre & post & -> & Hpre & R & _).
  rewrite R.
  assert (Hslug' : matches_slug_plus (slug (apply_patch tl p d)) = true
                   /\ ~ In (slug (apply_patch tl p d))
                        (map slug (pre ++ post))).
  { destruct (p_slug p) as [s|] eqn:Ps.
    - unfold patch_errors in PE. rewrite Ps in PE.
      apply app_eq_nil in PE as [_ PE]. apply check_nil in PE.
      cbn [apply_patch slug]. rewrite Ps. split; [exact PE|].
      intros Hin. apply in_map_iff in Hin as (e & Es & He).
      assert (In e (pre ++ d :: post))
        by (apply in_app_or in He as [He|He]; apply in_or_app;
            [left|right; right]; exact He).
      pose proof (existsb_false_all _ _ EX e H) as X.
      cbn [apply_patch slug] in X. rewrite Ps, Es, eqb_refl in X.
      simpl in X. apply negb_false_iff, eqb_eq in X.
      apply (others_differ pre post d e Hid He). congruence.
    - cbn [apply_patch slug]. rewrite Ps. split.
      + rewrite Forall_forall in Hpat. apply Hpat.
        apply in_or_app. right. left. reflexivity.
      + rewrite map_app in Hslug. simpl in Hslug.
        apply NoDup_remove_2 in Hslug. rewrite map_app. exact Hslug. }
  destruct Hslug' as [Hm Hn].
  repeat split.
  - rewrite map_app in *. exact Hid.
  - rewrite map_app in *. simpl in *.
    apply (NoDup_middle _ _ (slug d) _ Hslug). exact Hn.
  - apply Forall_app in Hpat as [H1 H2]. inversion H2; subst.
    apply Forall_app. split; [exact H1|]. constructor; assumption.
Qed.

Lemma update_via_base (tl : jsstring -> jsstring) (coll : Collection)
  (id : jsstring) (p : Patch) (r : Doc * Collection) :
  update tl coll id p = Ok r ->
  exists p2, base_update tl coll id p2 = Ok r
             /\ p_status p2 = p_status p
             /\ p_published_at p2 = p_published_at p
             /\ p_title p2 = p_title p.
Proof.
  unfold update. intros H.
  match type of H with
  | bind ?m _ = _ => destruct m as [p1| |] eqn:E1
  end; cbn [bind] in H; try discriminate.
  match type of H with
  | bind ?m _ = _ => destruct m as [p2| |] eqn:E2
  end; cbn [bind] in H; try discriminate.
  exists p2.
  assert (S1 : p_status p1 = p_status p /\ p_published_at p1 = p_published_at p
               /\ p_title p1 = p_title p).
  { unfold bind in E1.
    repeat match type of E1 with
           | context [match ?x with _ => _ end] => destruct x eqn:?
           end; try discriminate; injection E1 as <-;
      cbn; repeat split; congruence. }
  assert (S2 : p_status p2 = p_status p1
               /\ p_published_at p2 = p_published_at p1
               /\ p_title p2 = p_title p1).
  { unfold bind in E2.
    repeat match type of E2 with
           | context [match ?x with _ => _ end] => destruct x eqn:?
           end; try discriminate; injection E2 as <-;
      cbn; repeat split; congruence. }
  split; [exact H|]. intuition congruence.
Qed.

(** X6.  The slug and ID indexes hold on every collection the repository
    produces: if IDs are distinct, slugs are distinct and every slug
    matches the schema pattern, the same is true after a successful
    [insert], [update], [publishContent], [archiveContent] or
    [remove]. *)
Theorem well_formed_kept :
  forall (toLowerCase : jsstring -> jsstring) (coll : Collection),
    well_formed coll ->
    (forall now newID data d c',
        insert toLowerCase now newID coll data = Ok (d, c') ->
        well_formed c')
    /\ (forall id p d c',
          update toLowerCase coll id p = Ok (d, c') -> well_formed c')
    /\ (forall now id d c',
          publishContent toLowerCase now coll id = Ok (d, c') ->
          well_formed c')
    /\ (forall id d c',
          archiveContent toLowerCase coll id = Ok (d, c') -> well_formed c')
    /\ (forall id d c', remove coll id = Ok (d, c') -> well_formed c').
Proof.
  intros tl coll W.
  assert (U : forall id p d c',
             update tl coll id p = Ok (d, c') -> well_formed c').
  { intros id p d c' H. apply update_via_base in H as (p2 & H & _).
    exact (base_update_well_formed tl coll id p2 d c' W H). }
  split; [|split; [exact U|split; [|split]]].
  - intros now newID data d c' H.
    destruct (content_insert_inv _ _ _ _ _ _ _ H)
      as (-> & _ & _ & Hm & Hf & _).
    destruct W as (Hid & Hslug & Hpat).
    repeat split.
    + rewrite map_app. simpl. apply NoDup_snoc; auto.
      intros Hin. apply in_map_iff in Hin as (e & Ee & He).
      apply (proj1 (Hf e He)). exact Ee.
    + rewrite map_app. simpl. apply NoDup_snoc; auto.
      intros Hin. apply in_map_iff in Hin as (e & Ee & He).
      apply (proj2 (Hf e He)). exact Ee.
    + apply Forall_app. split; auto.
  - intros now id d c' H. unfold publishContent in H. exact (U _ _ _ _ H).
  - intros id d c' H. unfold archiveContent in H. exact (U _ _ _ _ H).
  - intros id d c' H. unfold remove in H.
    destruct (findById id coll) as [x|] eqn:F; [|discriminate].
    injection H as <- <-.
    destruct (replace_first_split (fun e => eqb (ID e) id) (fun e => e)
                coll x F) as (pre & post & -> & _ & _ & R).
    rewrite R. destruct W as (Hid & Hslug & Hpat).
    unfold well_formed. rewrite !map_app in *. simpl in *.
    repeat split.
    + exact (NoDup_remove_1 _ _ _ Hid).
    + exact (NoDup_remove_1 _ _ _ Hslug).
    + apply Forall_app in Hpat as [H1 H2]. inversion H2; subst.
      apply Forall_app. split; assumption.
Qed.

Lemma well_formed_kept_witness :
  well_formed [article; about_page]
  /\ forall now id d c',
       publishContent asciiLower now [article; about_page] id = Ok (d, c') ->
       well_formed c'.
Proof.
  assert (W : well_formed [article; about_page]).
  { repeat split.
    - repeat constructor; simpl; intuition discriminate.
    - repeat constructor; simpl; intuition discriminate.
    - repeat constructor. }
  split; [exact W|].
  exact (proj1 (proj2 (proj2 (well_formed_kept asciiLower _ W)))).
Defined.

(** ** The content repository: updates, archiving, removal, finders *)

Lemma nodup_map_inj {A B} (f : A -> B) (l : list A) (a b : A) :
  NoDup (map f l) -> In a l -> In b l -> f a = f b -> a = b.
Proof.
  induction l as [|h t IH]; simpl; [contradiction|].
  intros Hnd Ha Hb E. inversion Hnd as [|? ? Hh Ht]; subst.
  destruct Ha as [<-|Ha], Hb as [<-|Hb]; auto.
  - exfalso. apply Hh. rewrite E. apply in_map. exact Hb.
  - exfalso. apply Hh. rewrite <- E. apply in_map. exact Ha.
Qed.

Lemma apply_patch_own_slug (tl : jsstring -> jsstring) (d : Doc) :
  tl (slug d) = slug d ->
  apply_patch tl (mkPatch None (Some (slug d)) None None) d = d.
Proof.
  intros E. destruct d as [i ty ti sl co st vi au [c u p]].
  unfold apply_patch. cbn in *. rewrite E. reflexivity.
Qed.

(** X7.  Setting a document's slug to the slug it already has changes
    nothing: the uniqueness probe leaves the document itself out, so no
    suffix is added and the collection stays as it is.  The same slug
    offered by a new document would get a numeric suffix. *)
Theorem update_keeps_own_slug :
  forall (toLowerCase : jsstring -> jsstring) (coll : Collection)
         (id : jsstring) (d : Doc),
    lowers_ascii toLowerCase ->
    well_formed coll ->
    findById id coll = Some d ->
    id <> [] ->
    update toLowerCase coll id (mkPatch None (Some (slug d)) None None)
    = Ok (d, coll)
    /\ exists n, 1 <= n
         /\ ensureUniqueSlug toLowerCase coll (slug d) None
            = Ok (suffixed (slug d) n).
Proof.
  intros tl coll id d Hlow (Hid & Hslug & Hpat) F Hne.
  destruct (findById_ID _ _ _ F) as [Ed Hin].
  assert (Hm : matches_slug_plus (slug d) = true)
    by (rewrite Forall_forall in Hpat; auto).
  assert (Hl : tl (slug d) = slug d) by (apply lowered_slug; assumption).
  assert (Ht : truthy (slug d) = true)
    by (unfold matches_slug_plus in Hm; apply andb_true_iff in Hm; tauto).
  assert (Same : forall e, In e coll -> slug e = slug d -> e = d)
    by (intros e He Es; exact (nodup_map_inj slug coll e d Hslug He Hin Es)).
  split.
  - assert (Free : ~ in_use tl coll (Some id) (slug d)).
    { intros (e & He & Es & Hex). rewrite Hl in Es.
      apply (Hex id eq_refl Hne).
      rewrite (Same e He Es). exact Ed. }
    unfold update. cbn [p_slug p_title]. rewrite Ht.
    rewrite (ContentFacts.ensureUniqueSlug_free tl coll (slug d)
               (Some id) Free).
    cbn [bind]. unfold set_patch_slug.
    cbn [bind p_title p_slug p_status p_published_at].
    unfold base_update, patch_errors. cbn [p_title p_slug app].
    rewrite Hl, Hm. cbn [check]. rewrite F.
    rewrite (apply_patch_own_slug tl d Hl).
    rewrite (ContentFacts.existsb_none
               (fun e => eqb (slug e) (slug d) && negb (eqb (ID e) id)) coll).
    + destruct (replace_first_split (fun e => eqb (ID e) id) (fun _ => d)
                  coll d F) as (pre & post & E & _ & R & _).
      rewrite R, <- E. reflexivity.
    + intros e He. destruct (eqb (slug e) (slug d)) eqn:Es; auto.
      apply eqb_eq in Es. rewrite (Same e He Es), Ed, eqb_refl. reflexivity.
  - assert (U : in_use tl coll None (slug d)).
    { exists d. rewrite Hl. repeat split; auto. intros i [=]. }
    assert (A : is_ascii (slug d)).
    { unfold matches_slug_plus in Hm. apply andb_true_iff in Hm as [_ Hm].
      apply Forall_forall. intros c Hc. apply SlugFacts.slug_char_ascii.
      rewrite forallb_forall in Hm. auto. }
    destruct (proj2 (ContentFacts.ensureUniqueSlug_cases tl coll (slug d)
                       None (ContentFacts.ascii_distinct tl (slug d) Hlow A))
                U)
      as (n & Hn & E & _).
    exists n. auto.
Qed.

Lemma update_keeps_own_slug_witness :
  lowers_ascii asciiLower
  /\ update asciiLower [article; about_page] (js "c2")
       (mkPatch None (Some (js "about")) None None)
     = Ok (about_page, [article; about_page]).
Proof.
  assert (H : lowers_ascii asciiLower) by (intros s _; reflexivity).
  split; [exact H|].
  refine (proj1 (update_keeps_own_slug asciiLower [article; about_page]
                   (js "c2") about_page H _ eq_refl _)).
  - repeat split.
    + repeat constructor; simpl; intuition discriminate.
    + repeat constructor; simpl; intuition discriminate.
    + repeat constructor.
  - vm_compute. discriminate.
Defined.

Lemma archiveContent_unfold (tl : jsstring -> jsstring) (coll : Collection)
  (id : jsstring) :
  archiveContent tl coll id
  = match findById id coll with
    | None => Throw DocumentNotFound
    | Some d =>
        Ok (set_status d archived,
            replace_first (fun e => eqb (ID e) id)
              (fun _ => set_status d archived) coll)
    end.
Proof.
  unfold archiveContent, update, base_update. cbn.
  destruct (findById id coll) as [d|]; [|reflexivity].
  destruct d as [i ty ti sl co st vi au [c u p]]. reflexivity.
Qed.

Lemma findById_replace_first (id id' : jsstring) (d' : Doc)
  (coll : Collection) :
  ID d' = id ->
  findById id' (replace_first (fun e => eqb (ID e) id) (fun _ => d') coll)
  = if eqb id' id
    then match findById id coll with Some _ => Some d' | None => None end
    else findById id' coll.
Proof.
  intros Ed. unfold findById, findOne.
  induction coll as [|h t IH]; simpl.
  - destruct (eqb id' id); reflexivity.
  - destruct (eqb (ID h) id) eqn:E1; simpl.
    + rewrite Ed. apply eqb_eq in E1. rewrite E1.
      destruct (eqb id' id) eqn:E2.
      * apply eqb_eq in E2. subst id'. rewrite eqb_refl. reflexivity.
      * assert (E3 : eqb id id' = false)
          by (apply eqb_neq; intros ->; rewrite eqb_refl in E2; discriminate).
        rewrite E3. reflexivity.
    + destruct (eqb (ID h) id') eqn:E3.
      * destruct (eqb id' id) eqn:E2; auto.
        apply eqb_eq in E2, E3. apply eqb_neq in E1. congruence.
      * exact IH.
Qed.

Lemma replace_first_length (q : Doc -> bool) (f : Doc -> Doc)
  (coll : Collection) :
  List.length (replace_first q f coll) = List.length coll.
Proof.
  induction coll as [|h t IH]; simpl; auto.
  destruct (q h); simpl; auto.
Qed.

(** X8.  [archiveContent] changes the status and nothing else: after
    [publishContent] at time [now] and then [archiveContent], the
    document is archived, still carries the publication date [now] and
    all its other fields, and every other document of the collection is
    found as before.  An unknown ID is rejected. *)
Theorem archive_keeps_the_rest :
  forall (toLowerCase : jsstring -> jsstring) (now : Z) (coll : Collection)
         (id : jsstring),
    (findById id coll = None ->
     archiveContent toLowerCase coll id = Throw DocumentNotFound)
    /\ (forall d,
          findById id coll = Some d ->
          exists d1 c1 d2 c2,
            publishContent toLowerCase now coll id = Ok (d1, c1)
            /\ archiveContent toLowerCase c1 id = Ok (d2, c2)
            /\ status d2 = archived
            /\ published_at (timestamps d2) = Some now
            /\ created_at (timestamps d2) = created_at (timestamps d)
            /\ updated_at (timestamps d2) = updated_at (timestamps d)
            /\ (ID d2, type d2, title d2, slug d2)
               = (ID d, type d, title d, slug d)
            /\ (content d2, visibility d2, author d2)
               = (content d, visibility d, author d)
            /\ List.length c2 = List.length coll
            /\ findById id c2 = Some d2
            /\ (forall id', id' <> id -> findById id' c2 = findById id' coll)).
Proof.
  intros tl now coll id. split.
  - intros F. rewrite archiveContent_unfold, F. reflexivity.
  - intros d F. destruct (findById_ID _ _ _ F) as [Ed _].
    rewrite ContentFacts.publishContent_unfold, F.
    set (d1 := stamped now d).
    set (c1 := replace_first (fun e => eqb (ID e) id) (fun _ => d1) coll).
    assert (F1 : findById id c1 = Some d1).
    { unfold c1. rewrite (findById_replace_first id id d1 coll Ed).
      rewrite eqb_refl, F. reflexivity. }
    exists d1, c1. rewrite archiveContent_unfold, F1.
    set (d2 := set_status d1 archived).
    eexists; eexists. split; [reflexivity|]. split; [reflexivity|].
    do 6 (split; [reflexivity|]).
    split; [|split].
    + unfold c1. rewrite !replace_first_length. reflexivity.
    + rewrite (findById_replace_first id id d2 c1 Ed).
      rewrite eqb_refl, F1. reflexivity.
    + intros id' Hne.
      rewrite (findById_replace_first id id' d2 c1 Ed).
      assert (E : eqb id' id = false) by (apply eqb_neq; exact Hne).
      rewrite E. unfold c1.
      rewrite (findById_replace_first id id' d1 coll Ed), E. reflexivity.
Qed.

Lemma remove_first_others (id id' : jsstring) (coll : Collection) :
  id' <> id ->
  findById id' (remove_first (fun e => eqb (ID e) id) coll)
  = findById id' coll.
Proof.
  intros Hne. unfold findById, findOne.
  induction coll as [|h t IH]; simpl; auto.
  destruct (eqb (ID h) id) eqn:E1; simpl.
  - destruct (eqb (ID h) id') eqn:E2; auto.
    apply eqb_eq in E1, E2. congruence.
  - rewrite IH. reflexivity.
Qed.

Lemma remove_first_snoc (q : Doc -> bool) (coll : Collection) (d : Doc) :
  existsb q coll = false -> q d = true ->
  remove_first q (coll ++ [d]) = coll.
Proof.
  induction coll as [|h t IH]; simpl; intros E Q.
  - rewrite Q. reflexivity.
  - apply orb_false_iff in E as [-> E]. f_equal. auto.
Qed.

(** X9.  [remove] rejects an ID that is not there; otherwise it returns
    the document, the collection has one document less, the other
    documents are found as before, and with distinct IDs the removed one
    is no longer found.  Removing a document right after inserting it
    gives back the collection as it was. *)
Theorem remove_undoes_insert :
  forall (coll : Collection) (id : jsstring),
    (findById id coll = None -> remove coll id = Throw DocumentNotFound)
    /\ (forall d,
          findById id coll = Some d ->
          exists c',
            remove coll id = Ok (d, c')
            /\ S (List.length c') = List.length coll
            /\ (forall id', id' <> id -> findById id' c' = findById id' coll)
            /\ (NoDup (map ID coll) -> findById id c' = None))
    /\ (forall toLowerCase now data d c',
          insert toLowerCase now id coll data = Ok (d, c') ->
          remove c' id = Ok (d, coll)).
Proof.
  intros coll id. split; [|split].
  - intros F. unfold remove. rewrite F. reflexivity.
  - intros d F. unfold remove. rewrite F. eexists. split; [reflexivity|].
    destruct (replace_first_split (fun e => eqb (ID e) id) (fun e => e)
                coll d F) as (pre & post & E & Hpre & _ & R).
    rewrite R. split; [|split].
    + rewrite E, !length_app. simpl. lia.
    + intros id' Hne. rewrite <- R. apply remove_first_others; exact Hne.
    + intros Hnd. destruct (findById_ID _ _ _ F) as [Ed _].
      unfold findById, findOne.
      destruct (find (fun e => eqb (ID e) id) (pre ++ post)) as [e|] eqn:Fe;
        auto.
      exfalso. apply find_some in Fe as [He Ee]. apply eqb_eq in Ee.
      rewrite E in Hnd. apply (others_differ pre post d e Hnd He).
      congruence.
  - intros tl now data d c' H.
    destruct (content_insert_inv _ _ _ _ _ _ _ H)
      as (-> & Ed & _ & _ & Hf & _ & _ & _ & _ & _ & _ & _ & Fd).
    unfold remove. rewrite <- Ed at 1. rewrite Fd. f_equal. f_equal.
    apply remove_first_snoc.
    + apply ContentFacts.existsb_none. intros e He. apply eqb_neq.
      rewrite <- Ed. exact (proj1 (Hf e He)).
    + apply eqb_eq. exact Ed.
Qed.

(** X10.  [findByType] returns exactly the published documents of the
    given type and [findPublished] exactly the published documents, each
    once, never a draft or an archived one, ordered from the latest
    publication date to the earliest with undated documents last. *)
Theorem finders_return_published :
  forall (ty : ctype) (coll : Collection),
    Permutation (findByType ty coll)
      (filter (fun d => type_eqb (type d) ty && is_published d) coll)
    /\ Forall (fun d => type d = ty /\ status d = published)
         (findByType ty coll)
    /\ Sorted.Sorted
         (fun a b => date_geb (published_at (timestamps a))
                       (published_at (timestamps b)) = true)
         (findByType ty coll)
    /\ Permutation (findPublished coll) (filter is_published coll)
    /\ Forall (fun d => status d = published) (findPublished coll)
    /\ Sorted.Sorted
         (fun a b => date_geb (published_at (timestamps a))
                       (published_at (timestamps b)) = true)
         (findPublished coll).
Proof.
  intros ty coll.
  assert (Tot : forall a b : Doc,
             date_geb (published_at (timestamps a))
               (published_at (timestamps b)) = false ->
             date_geb (published_at (timestamps b))
               (published_at (timestamps a)) = true).
  { intros a b. destruct (published_at (timestamps a)) as [x|],
                         (published_at (timestamps b)) as [y|];
      simpl; try discriminate; auto.
    rewrite Z.leb_gt, Z.leb_le. lia. }
  assert (St : forall d, is_published d = true -> status d = published)
    by (intros d; unfold is_published; destruct (status d); discriminate
                                                             || reflexivity).
  unfold findByType, findPublished, Repository.getlist,
         newest_published_first. cbn [Nat.eqb].
  repeat split.
  - apply RepositoryFacts.sort_by_perm.
  - apply Forall_forall. intros d Hd.
    apply (Permutation_in _ (RepositoryFacts.sort_by_perm _ _ _)) in Hd.
    apply filter_In in Hd as [_ Hd]. apply andb_true_iff in Hd as [H1 H2].
    split; [|exact (St d H2)].
    destruct (type d), ty; try discriminate H1; reflexivity.
  - apply RepositoryFacts.sort_by_sorted. exact Tot.
  - apply RepositoryFacts.sort_by_perm.
  - apply Forall_forall. intros d Hd.
    apply (Permutation_in _ (RepositoryFacts.sort_by_perm _ _ _)) in Hd.
    apply filter_In in Hd as [_ Hd]. exact (St d Hd).
  - apply RepositoryFacts.sort_by_sorted. exact Tot.
Qed.

End ContentOpsFacts.

(** ** The settings repository: reading back, validity, reset *)

Module SettingsOpsFacts.
Import Settings SettingsOps.

Lemma update_first_keys (k : jsstring) (f : Setting -> Setting)
  (coll : Collection) :
  (forall s, key (f s) = key s) ->
  map key (update_first k f coll) = map key coll.
Proof.
  intros Hf. induction coll as [|s t IH]; simpl; auto.
  destruct (eqb (key s) k); simpl; [rewrite Hf|rewrite IH]; reflexivity.
Qed.

Lemma getSetting_update_first (k k' : jsstring) (f : Setting -> Setting)
  (coll : Collection) :
  (forall s, key (f s) = key s) ->
  k' <> k ->
  getSetting (update_first k f coll) k' = getSetting coll k'.
Proof.
  intros Hf Hne. unfold getSetting.
  rewrite (SettingsFacts.findOne_update_first k k' f coll Hf).
  assert (E : eqb k' k = false) by (apply eqb_neq; exact Hne).
  rewrite E. reflexivity.
Qed.

Lemma setSetting_inv (R : jsstring -> jsstring -> option bool)
  (S2N : jsstring -> option Z) (TP : nat -> jsvalue)
  (coll : Collection) (k : jsstring) (v : jsvalue)
  (userId : option jsstring) (s' : Setting) (c' : Collection) :
  setSetting R S2N TP coll k v userId = Ok (s', c') ->
  exists s,
    findOne k coll = Some s
    /\ validateValue R S2N TP s v = Ok true
    /\ s' = set_value v userId s
    /\ c' = update_first k (set_value v userId) coll.
Proof.
  unfold setSetting. intros H.
  destruct (findOne k coll) as [s|] eqn:F; [|discriminate].
  destruct (validateValue R S2N TP s v) as [[|]|e|] eqn:V; cbn [bind negb] in H;
    try discriminate.
  injection H as <- <-. exists s. auto.
Qed.

Lemma setSetting_reads (R : jsstring -> jsstring -> option bool)
  (S2N : jsstring -> option Z) (TP : nat -> jsvalue)
  (coll : Collection) (k : jsstring) (v : jsvalue)
  (userId : option jsstring) (s' : Setting) (c' : Collection) :
  setSetting R S2N TP coll k v userId = Ok (s', c') ->
  getSetting c' k = written v (getSetting coll k)
  /\ findOne k c' = Some s'
  /\ key s' = k
  /\ updated_by s' = userId
  /\ (forall k', k' <> k -> getSetting c' k' = getSetting coll k')
  /\ map key c' = map key coll.
Proof.
  intros H.
  destruct (setSetting_inv R S2N TP coll k v userId s' c' H)
    as (s & F & V & -> & ->).
  assert (Fk : findOne k (update_first k (set_value v userId) coll)
               = Some (set_value v userId s)).
  { rewrite SettingsFacts.findOne_update_first by reflexivity.
    rewrite eqb_refl, F. reflexivity. }
  split; [unfold getSetting; rewrite Fk, F; reflexivity|].
  split; [exact Fk|].
  split; [exact (@SettingsFacts.findOne_key k coll s F)|].
  split; [reflexivity|].
  split.
  - intros k' Hne. apply getSetting_update_first; [reflexivity|exact Hne].
  - apply update_first_keys. reflexivity.
Qed.

(** X11.  After a successful [setSetting(key, value, userId)],
    [getSetting(key)] is [value], or what it was before when [value] is
    [undefined]; the record remembers who changed it, every other key
    reads as before, and no key has been added or removed. *)
Theorem setSetting_then_getSetting :
  forall (RegExp_test : jsstring -> jsstring -> option bool)
         (StringToNumber : jsstring -> option Z)
         (ToPrimitive : nat -> jsvalue)
         (coll : Collection) (k : jsstring) (v : jsvalue)
         (userId : option jsstring) (s' : Setting) (c' : Collection),
    setSetting RegExp_test StringToNumber ToPrimitive coll k v userId
    = Ok (s', c') ->
    (v <> VUndefined -> getSetting c' k = v)
    /\ (v = VUndefined -> getSetting c' k = getSetting coll k)
    /\ getSetting c' k = written v (getSetting coll k)
    /\ findOne k c' = Some s'
    /\ key s' = k
    /\ updated_by s' = userId
    /\ (forall k', k' <> k -> getSetting c' k' = getSetting coll k')
    /\ map key c' = map key coll.
Proof.
  intros R S2N TP coll k v userId s' c' H.
  destruct (setSetting_reads R S2N TP coll k v userId s' c' H)
    as (G & rest).
  split; [|split; [|split; [exact G | exact rest]]].
  - intros Hv. rewrite G. destruct v; try reflexivity. contradiction.
  - intros ->. exact G.
Qed.

Lemma setSetting_then_getSetting_witness :
  exists s' c',
    setSetting always_matches decimal_digits plain_object [zero_max]
      (js "code") (VString (js "a")) None
    = Ok (s', c')
    /\ getSetting c' (js "code") = VString (js "a").
Proof.
  eexists; eexists. split; [reflexivity|].
  apply (proj1 (setSetting_then_getSetting always_matches decimal_digits
                  plain_object [zero_max] (js "code") (VString (js "a"))
                  None _ _ eq_refl)).
  discriminate.
Defined.

Lemma Forall_update_first (P : Setting -> Prop) (k : jsstring)
  (f : Setting -> Setting) (coll : Collection) (s : Setting) :
  findOne k coll = Some s -> P (f s) -> Forall P coll ->
  Forall P (update_first k f coll).
Proof.
  unfold findOne. induction coll as [|h t IH]; simpl; [discriminate|].
  intros F Pf HP. inversion HP; subst.
  destruct (eqb (key h) k).
  - injection F as ->. constructor; assumption.
  - constructor; auto.
Qed.

Lemma defaults_valid (R : jsstring -> jsstring -> option bool)
  (S2N : jsstring -> option Z) (TP : nat -> jsvalue) :
  all_valid R S2N TP defaultSettings.
Proof. unfold all_valid, defaultSettings. repeat constructor. Qed.

(** X12.  Writes that go through the checks keep every stored value
    valid: if each record's value passes [validateValue] of its own
    record, this still holds after a successful [setSetting], after a
    successful [createSetting], and after [initializeDefaults]. *)
Theorem stored_values_stay_valid :
  forall (RegExp_test : jsstring -> jsstring -> option bool)
         (StringToNumber : jsstring -> option Z)
         (ToPrimitive : nat -> jsvalue)
         (coll : Collection),
    all_valid RegExp_test StringToNumber ToPrimitive coll ->
    (forall k v userId s' c',
        setSetting RegExp_test StringToNumber ToPrimitive coll k v userId
        = Ok (s', c') ->
        all_valid RegExp_test StringToNumber ToPrimitive c')
    /\ (forall d s' c',
          createSetting RegExp_test StringToNumber ToPrimitive coll d
          = Done (s', c') ->
          all_valid RegExp_test StringToNumber ToPrimitive c')
    /\ all_valid RegExp_test StringToNumber ToPrimitive
         (initializeDefaults coll).
Proof.
  intros R S2N TP coll Hv. split; [|split].
  - intros k v userId s' c' H.
    destruct (setSetting_inv R S2N TP coll k v userId s' c' H)
      as (s & F & V & -> & ->).
    unfold all_valid.
    apply (Forall_update_first _ k (set_value v userId) coll s F);
      [|exact Hv].
    change (validateValue R S2N TP s (written v (value s)) = Ok true).
    destruct v; try exact V.
    cbn [written]. unfold all_valid in Hv. rewrite Forall_forall in Hv.
    apply Hv. unfold findOne in F. apply find_some in F. tauto.
  - intros d s' c' H. unfold createSetting in H.
    destruct (findOne (sd_key d) coll); [discriminate|].
    destruct (sd_label d) as [l|]; [|discriminate].
    destruct (sd_type d) as [t|]; [|discriminate].
    destruct (sd_category d) as [c|]; [|discriminate].
    destruct (negb (truthy (sd_key d)) || negb (truthy l)); [discriminate|].
    destruct (sd_value d) as [[| |b|z|str|r]|]; try discriminate;
      match type of H with
      | context [validateValue R S2N TP ?s ?v] =>
          destruct (validateValue R S2N TP s v) as [[|]|e|] eqn:V
      end; try discriminate; injection H as <- <-;
      apply Forall_app; split; auto; constructor; auto.
  - rewrite SettingsFacts.initializeDefaults_spec.
    apply Forall_app. split; [exact Hv|].
    apply Forall_forall. intros s Hs. apply filter_In in Hs as [Hs _].
    pose proof (defaults_valid R S2N TP) as D. unfold all_valid in D.
    rewrite Forall_forall in D. auto.
Qed.

Lemma stored_values_stay_valid_witness :
  all_valid always_matches decimal_digits plain_object [theme]
  /\ all_valid always_matches decimal_digits plain_object
       (initializeDefaults [theme]).
Proof.
  assert (H : all_valid always_matches decimal_digits plain_object [theme])
    by (repeat constructor).
  split; [exact H|].
  exact (proj2 (proj2 (stored_values_stay_valid always_matches
                         decimal_digits plain_object [theme] H))).
Defined.

(** X13.  [resetSettingToDefault] rejects an unknown key and a record
    without a default; otherwise the key reads as its default afterwards,
    the other keys read as before, and a second reset changes nothing.
    The default is written without being validated: the setting [motto],
    required and with the empty string as default, is left holding a
    value that [validateValue] rejects. *)
Theorem resetSettingToDefault_behaviour :
  forall (coll : Collection) (k : jsstring),
    (findOne k coll = None ->
     resetSettingToDefault coll k = Failed (Base SettingNotFound))
    /\ (forall s,
          findOne k coll = Some s ->
          default_value s = None \/ default_value s = Some VUndefined ->
          resetSettingToDefault coll k = Failed NoDefaultValue)
    /\ (forall s dv,
          findOne k coll = Some s ->
          default_value s = Some dv -> dv <> VUndefined ->
          exists s' c',
            resetSettingToDefault coll k = Done (s', c')
            /\ getSetting c' k = dv
            /\ (forall k', k' <> k -> getSetting c' k' = getSetting coll k')
            /\ resetSettingToDefault c' k = Done (s', c'))
    /\ (exists s' c',
          resetSettingToDefault [motto] (js "motto") = Done (s', c')
          /\ validateValue always_matches decimal_digits plain_object motto
               (value motto) = Ok true
          /\ validateValue always_matches decimal_digits plain_object s'
               (value s') = Ok false).
Proof.
  intros coll k. split; [|split; [|split]].
  - intros F. unfold resetSettingToDefault. rewrite F. reflexivity.
  - intros s F [D|D]; unfold resetSettingToDefault; rewrite F, D; reflexivity.
  - intros s dv F D Hdv.
    assert (R1 : resetSettingToDefault coll k
                 = Done (set_only_value dv s,
                         update_first k (set_only_value dv) coll)).
    { unfold resetSettingToDefault. rewrite F, D.
      destruct dv; try reflexivity. contradiction. }
    assert (Fk : findOne k (update_first k (set_only_value dv) coll)
                 = Some (set_only_value dv s)).
    { rewrite SettingsFacts.findOne_update_first by reflexivity.
      rewrite eqb_refl, F. reflexivity. }
    eexists; eexists. split; [exact R1|].
    split; [unfold getSetting; rewrite Fk; reflexivity|].
    split.
    + intros k' Hne. apply getSetting_update_first; [reflexivity|exact Hne].
    + unfold resetSettingToDefault. rewrite Fk.
      cbn [default_value set_only_value]. rewrite D.
      assert (Same : update_first k (set_only_value dv)
                       (update_first k (set_only_value dv) coll)
                     = update_first k (set_only_value dv) coll).
      { clear. induction coll as [|h t IH]; simpl; auto.
        destruct (eqb (key h) k) eqn:E; simpl.
        - rewrite E. reflexivity.
        - rewrite E, IH. reflexivity. }
      rewrite Same. destruct dv; try reflexivity. contradiction.
  - eexists; eexists. split; [reflexivity|]. split; reflexivity.
Qed.

(** X14.  [validateSettingValue] predicts [setSetting]: it reports
    [valid] exactly when [setSetting] with the same key and value would
    succeed, it reports an error exactly when it does not, and it does
    so without changing the store, also for a key that does not
    exist. *)
Theorem validateSettingValue_predicts :
  forall (RegExp_test : jsstring -> jsstring -> option bool)
         (StringToNumber : jsstring -> option Z)
         (ToPrimitive : nat -> jsvalue)
         (coll : Collection) (k : jsstring) (v : jsvalue)
         (userId : option jsstring),
    valid (validateSettingValue RegExp_test StringToNumber ToPrimitive coll
             k v)
    = succeeded (setSetting RegExp_test StringToNumber ToPrimitive coll k v
                   userId)
    /\ (valid (validateSettingValue RegExp_test StringToNumber ToPrimitive
                 coll k v) = false
        <-> verdict_error (validateSettingValue RegExp_test StringToNumber
                             ToPrimitive coll k v)
            <> None)
    /\ (findOne k coll = None ->
        verdict_error (validateSettingValue RegExp_test StringToNumber
                         ToPrimitive coll k v)
        = Some SettingNotFound).
Proof.
  intros R S2N TP coll k v userId.
  unfold validateSettingValue, setSetting.
  destruct (findOne k coll) as [s|]; cbn.
  - pose proof (SettingsFacts.validateValue_total R S2N TP s v) as T.
    destruct (validateValue R S2N TP s v) as [[|]|e|]; cbn;
      repeat split; try discriminate; try congruence; try contradiction.
  - repeat split; try discriminate; auto.
Qed.

(** ** The settings repository: batches *)

Section Batches.

Variable R : jsstring -> jsstring -> option bool.
Variable S2N : jsstring -> option Z.
Variable TP : nat -> jsvalue.
Variable userId : option jsstring.

(** One step of the batch: the store an entry leaves behind. *)
Lemma bulk_cons (coll : Collection) (k : jsstring) (v : jsvalue)
  (rest : list (jsstring * jsvalue)) :
  exists r c1,
    bulkUpdateSettings R S2N TP coll ((k, v) :: rest) userId
    = (r :: fst (bulkUpdateSettings R S2N TP c1 rest userId),
       snd (bulkUpdateSettings R S2N TP c1 rest userId))
    /\ br_key r = k
    /\ br_success r = succeeded (setSetting R S2N TP coll k v userId)
    /\ map key c1 = map key coll
    /\ (forall k', k' <> k -> findOne k' c1 = findOne k' coll)
    /\ getSetting c1 k
       = (if br_success r then written v (getSetting coll k)
          else getSetting coll k).
Proof.
  cbn [bulkUpdateSettings].
  destruct (setSetting R S2N TP coll k v userId) as [[s c']|e|] eqn:E.
  - destruct (setSetting_reads R S2N TP coll k v userId s c' E)
      as (G & _ & _ & _ & _ & K).
    destruct (setSetting_inv R S2N TP coll k v userId s c' E)
      as (s0 & _ & _ & _ & Ec).
    exists (mkBulkResult k true (Some s) None), c'.
    destruct (bulkUpdateSettings R S2N TP c' rest userId) as [rs c].
    repeat split; auto.
    intros k' Hne. rewrite Ec.
    rewrite SettingsFacts.findOne_update_first by reflexivity.
    assert (X : eqb k' k = false) by (apply eqb_neq; exact Hne).
    rewrite X. reflexivity.
  - exists (mkBulkResult k false None (Some e)), coll.
    destruct (bulkUpdateSettings R S2N TP coll rest userId) as [rs c].
    repeat split; auto.
  - exists (mkBulkResult k false None None), coll.
    destruct (bulkUpdateSettings R S2N TP coll rest userId) as [rs c].
    repeat split; auto.
Qed.

Lemma setSetting_same_record (c1 c2 : Collection) (k : jsstring)
  (v : jsvalue) :
  findOne k c1 = findOne k c2 ->
  succeeded (setSetting R S2N TP c1 k v userId)
  = succeeded (setSetting R S2N TP c2 k v userId).
Proof.
  intros E. unfold setSetting. rewrite E.
  destruct (findOne k c2) as [s|]; [|reflexivity].
  destruct (validateValue R S2N TP s v) as [[|]|e|]; reflexivity.
Qed.

Lemma bulk_keys (entries : list (jsstring * jsvalue)) (coll : Collection) :
  map br_key (fst (bulkUpdateSettings R S2N TP coll entries userId))
  = map fst entries
  /\ map key (snd (bulkUpdateSettings R S2N TP coll entries userId))
     = map key coll
  /\ (forall k, ~ In k (map fst entries) ->
        findOne k (snd (bulkUpdateSettings R S2N TP coll entries userId))
        = findOne k coll).
Proof.
  revert coll. induction entries as [|[k v] rest IH]; intros coll.
  - repeat split.
  - destruct (bulk_cons coll k v rest)
      as (r & c1 & -> & Hk & _ & K1 & F1 & _).
    destruct (IH c1) as (I1 & I2 & I3). cbn [fst snd map].
    split; [rewrite Hk, I1; reflexivity|].
    split; [rewrite I2; exact K1|].
    intros k' Hn. rewrite I3 by (intros X; apply Hn; right; exact X).
    apply F1. intros ->. apply Hn. left. reflexivity.
Qed.

Lemma bulk_entries (entries : list (jsstring * jsvalue)) (coll : Collection) :
  NoDup (map fst entries) ->
  forall k v,
    In (k, v) entries ->
    exists r,
      In r (fst (bulkUpdateSettings R S2N TP coll entries userId))
      /\ br_key r = k
      /\ br_success r = succeeded (setSetting R S2N TP coll k v userId)
      /\ getSetting (snd (bulkUpdateSettings R S2N TP coll entries userId)) k
         = (if br_success r then written v (getSetting coll k)
            else getSetting coll k).
Proof.
  revert coll. induction entries as [|[k0 v0] rest IH]; intros coll Hnd k v Hin.
  - contradiction.
  - cbn [map fst] in Hnd. inversion Hnd as [|? ? Hk0 Hrest]; subst.
    destruct (bulk_cons coll k0 v0 rest)
      as (r0 & c1 & -> & Hk & Hs & K1 & F1 & G1).
    cbn [fst snd]. destruct Hin as [[= <- <-]|Hin].
    + exists r0. split; [left; reflexivity|]. split; [exact Hk|].
      split; [exact Hs|].
      destruct (bulk_keys rest c1) as (_ & _ & I3).
      unfold getSetting at 1. rewrite (I3 k0 Hk0).
      exact G1.
    + assert (Hne : k <> k0).
      { intros ->. apply Hk0. apply (in_map fst) in Hin. exact Hin. }
      destruct (IH c1 Hrest k v Hin) as (r & Hr & Rk & Rs & Rg).
      exists r. split; [right; exact Hr|]. split; [exact Rk|].
      split.
      * rewrite Rs. apply setSetting_same_record. apply F1. exact Hne.
      * rewrite Rg. unfold getSetting. rewrite (F1 k Hne). reflexivity.
Qed.

End Batches.

(** X15.  [bulkUpdateSettings] reports one result per entry, in order and
    under the entry's key; it adds and removes no key and leaves the
    keys it was not given as they were.  When the entries have distinct
    keys, each entry succeeds exactly if [setSetting] alone would have
    succeeded on the original store, a successful key reads afterwards
    as its new value (as its old one when the new value is [undefined])
    and a failed key as its old one: a failure neither stops nor undoes
    the others. *)
Theorem bulkUpdateSettings_independent :
  forall (RegExp_test : jsstring -> jsstring -> option bool)
         (StringToNumber : jsstring -> option Z)
         (ToPrimitive : nat -> jsvalue)
         (userId : option jsstring) (entries : list (jsstring * jsvalue))
         (coll : Collection),
    map br_key
      (fst (bulkUpdateSettings RegExp_test StringToNumber ToPrimitive coll
              entries userId))
    = map fst entries
    /\ map key
         (snd (bulkUpdateSettings RegExp_test StringToNumber ToPrimitive
                 coll entries userId))
       = map key coll
    /\ (forall k, ~ In k (map fst entries) ->
          getSetting
            (snd (bulkUpdateSettings RegExp_test StringToNumber ToPrimitive
                    coll entries userId)) k
          = getSetting coll k)
    /\ (NoDup (map fst entries) ->
        forall k v,
          In (k, v) entries ->
          exists r,
            In r (fst (bulkUpdateSettings RegExp_test StringToNumber
                         ToPrimitive coll entries userId))
            /\ br_key r = k
            /\ br_success r
               = succeeded (setSetting RegExp_test StringToNumber
                              ToPrimitive coll k v userId)
            /\ getSetting
                 (snd (bulkUpdateSettings RegExp_test StringToNumber
                         ToPrimitive coll entries userId)) k
               = (if br_success r then written v (getSetting coll k)
                  else getSetting coll k)
            /\ (br_success r = true -> v <> VUndefined ->
                getSetting
                  (snd (bulkUpdateSettings RegExp_test StringToNumber
                          ToPrimitive coll entries userId)) k
                = v)).
Proof.
  intros R S2N TP userId entries coll.
  destruct (bulk_keys R S2N TP userId entries coll) as (K1 & K2 & K3).
  split; [exact K1|]. split; [exact K2|]. split.
  - intros k Hk. unfold getSetting. rewrite (K3 k Hk). reflexivity.
  - intros Hnd k v Hin.
    destruct (bulk_entries R S2N TP userId entries coll Hnd k v Hin)
      as (r & Hr & Rk & Rs & Rg).
    exists r. split; [exact Hr|]. split; [exact Rk|]. split; [exact Rs|].
    split; [exact Rg|].
    intros Hs Hv. rewrite Rg, Hs. destruct v; try reflexivity. contradiction.
Qed.

(** ** The settings repository: the public view *)

Lemma obj_own_put (k k' : jsstring) (v : jsvalue) (o : jsobject) :
  obj_own k (obj_put k' v o)
  = if eqb k' k then Some v else obj_own k o.
Proof.
  unfold obj_own. induction o as [|[a b] t IH]; simpl.
  - destruct (eqb k' k); reflexivity.
  - destruct (eqb a k') eqn:E1; simpl.
    + apply eqb_eq in E1. subst a. destruct (eqb k' k); reflexivity.
    + destruct (eqb a k) eqn:E2.
      * destruct (eqb k' k) eqn:E3; auto.
        apply eqb_eq in E2, E3. apply eqb_neq in E1. congruence.
      * exact IH.
Qed.

Lemma obj_own_fold (k : jsstring) (l : list Setting) (o : jsobject) :
  NoDup (map key l) ->
  k <> js "__proto__" ->
  obj_own k (fold_left (fun o s => obj_set (key s) (value s) o) l o)
  = match find (fun s => eqb (key s) k) l with
    | Some s => Some (value s)
    | None => obj_own k o
    end.
Proof.
  intros Hnd Hk. revert o. induction l as [|s t IH]; intros o; simpl; auto.
  inversion Hnd as [|? ? Hs Ht]; subst. rewrite (IH Ht).
  destruct (eqb (key s) k) eqn:E.
  - apply eqb_eq in E.
    assert (F : find (fun x => eqb (key x) k) t = None).
    { destruct (find (fun x => eqb (key x) k) t) as [x|] eqn:Fx; auto.
      exfalso. apply find_some in Fx as [Hx Ex]. apply eqb_eq in Ex.
      apply Hs. rewrite E, <- Ex. apply in_map. exact Hx. }
    rewrite F. unfold obj_set.
    assert (P : eqb (key s) (js "__proto__") = false)
      by (apply eqb_neq; congruence).
    rewrite P, obj_own_put, E, eqb_refl. reflexivity.
  - destruct (find (fun x => eqb (key x) k) t); auto.
    unfold obj_set. destruct (eqb (key s) (js "__proto__")); auto.
    rewrite obj_own_put, E. reflexivity.
Qed.

Lemma obj_own_fold_proto (l : list Setting) (o : jsobject) :
  obj_own (js "__proto__")
    (fold_left (fun o s => obj_set (key s) (value s) o) l o)
  = obj_own (js "__proto__") o.
Proof.
  revert o. induction l as [|s t IH]; intros o; simpl; auto.
  rewrite IH. unfold obj_set.
  destruct (eqb (key s) (js "__proto__")) eqn:E; auto.
  rewrite obj_own_put, E. reflexivity.
Qed.

Lemma find_unique (k : jsstring) (l : list Setting) (s : Setting) :
  NoDup (map key l) ->
  (find (fun x => eqb (key x) k) l = Some s <-> In s l /\ key s = k).
Proof.
  intros Hnd. split.
  - intros F. apply find_some in F as [H1 H2]. apply eqb_eq in H2. auto.
  - intros [Hin Hk].
    destruct (find (fun x => eqb (key x) k) l) as [x|] eqn:F.
    + apply find_some in F as [Hx Ex]. apply eqb_eq in Ex. f_equal.
      apply (ContentOpsFacts.nodup_map_inj key l x s Hnd Hx Hin).
      congruence.
    + exfalso. pose proof (find_none _ _ F s Hin) as N. simpl in N.
      rewrite Hk, eqb_refl in N. discriminate.
Qed.

(** X16.  On a store with distinct keys, the flat object of
    [getPublicSettings] has an own property [k] with value [v] exactly
    when the record stored under [k] is public and holds [v]: nothing of
    an admin or super_admin record shows, and no property is invented.
    The key ["__proto__"] never becomes an own property. *)
Theorem getPublicSettings_public_only :
  forall (coll : Collection),
    NoDup (map key coll) ->
    forall (k : jsstring) (v : jsvalue),
      obj_own k (getPublicSettings coll) = Some v
      <-> k <> js "__proto__"
          /\ exists s, findOne k coll = Some s
                       /\ access_level s = public
                       /\ value s = v.
Proof.
  intros coll Hnd k v. unfold getPublicSettings, Repository.getlist.
  cbn [Nat.eqb].
  set (l := sort (filter is_public coll)).
  assert (Pl : Permutation l (filter is_public coll))
    by apply SettingsFacts.sort_perm.
  assert (Hl : NoDup (map key l)).
  { apply (Permutation_NoDup (l := map key (filter is_public coll))).
    - apply Permutation_map, Permutation_sym, Pl.
    - clear -Hnd. induction coll as [|h t IH]; simpl; [constructor|].
      simpl in Hnd. inversion Hnd as [|? ? Hh Ht]; subst.
      destruct (is_public h); simpl; auto.
      constructor; auto. intros Hin. apply Hh.
      apply in_map_iff in Hin as (x & Ex & Hx).
      apply filter_In in Hx as [Hx _]. rewrite <- Ex. apply in_map.
      exact Hx. }
  assert (Pub : forall s, is_public s = true <-> access_level s = public)
    by (intros s; unfold is_public; destruct (access_level s); split;
        congruence).
  destruct (JsString.eqb k (js "__proto__")) eqn:EP.
  - apply eqb_eq in EP. subst k. rewrite obj_own_fold_proto. cbn.
    split; [discriminate|]. intros [X _]. contradiction.
  - apply eqb_neq in EP. rewrite (obj_own_fold k l [] Hl EP). cbn.
    split.
    + intros H. split; [exact EP|].
      destruct (find (fun s => eqb (key s) k) l) as [s|] eqn:F;
        [|discriminate].
      injection H as <-. exists s.
      apply (find_unique k l s Hl) in F as [Hin Hk].
      apply (Permutation_in _ Pl) in Hin.
      apply filter_In in Hin as [Hin Hp].
      split; [|split; [apply Pub; exact Hp | reflexivity]].
      apply (find_unique k coll s Hnd). auto.
    + intros (_ & s & F & Ha & <-).
      apply (find_unique k coll s Hnd) in F as [Hin Hk].
      assert (F' : find (fun x => eqb (key x) k) l = Some s).
      { apply (find_unique k l s Hl). split; [|exact Hk].
        apply (Permutation_in _ (Permutation_sym Pl)).
        apply filter_In. split; [exact Hin | apply Pub; exact Ha]. }
      rewrite F'. reflexivity.
Qed.

Lemma getPublicSettings_public_only_witness :
  NoDup (map key [theme; zero_max])
  /\ obj_own (js "theme") (getPublicSettings [theme; zero_max])
     = Some (VString (js "light"))
  /\ obj_own (js "code") (getPublicSettings [theme; zero_max]) = None.
Proof.
  assert (H : NoDup (map key [theme; zero_max]))
    by (repeat constructor; simpl; intuition discriminate).
  split; [exact H|]. split.
  - apply (getPublicSettings_public_only [theme; zero_max] H).
    split; [vm_compute; discriminate|].
    exists theme. repeat split.
  - reflexivity.
Defined.

(** ** The settings repository: creating and importing *)

Lemma createSetting_inv (R : jsstring -> jsstring -> option bool)
  (S2N : jsstring -> option Z) (TP : nat -> jsvalue)
  (coll : Collection) (d : SettingData) (s : Setting) (c' : Collection) :
  createSetting R S2N TP coll d = Done (s, c') ->
  c' = coll ++ [s]
  /\ key s = sd_key d
  /\ truthy (key s) = true
  /\ truthy (label s) = true
  /\ findOne (sd_key d) coll = None
  /\ sd_value d = Some (value s)
  /\ sd_label d = Some (label s)
  /\ access_level s
     = match sd_access_level d with Some a => a | None => admin end
  /\ editable s = match sd_editable d with Some e => e | None => true end
  /\ updated_by s = None
  /\ validateValue R S2N TP s (value s) = Ok true.
Proof.
  unfold createSetting. intros H.
  destruct (findOne (sd_key d) coll); [discriminate|].
  destruct (sd_label d) as [l|]; [|discriminate].
  destruct (sd_type d) as [t|]; [|discriminate].
  destruct (sd_category d) as [c|]; [|discriminate].
  destruct (truthy (sd_key d)) eqn:Tk; cbn [negb orb] in H; [|discriminate].
  destruct (truthy l) eqn:Tl; cbn [negb] in H; [|discriminate].
  destruct (sd_value d) as [[| |b|z|str|r]|]; try discriminate;
    match type of H with
    | context [validateValue R S2N TP ?x ?v] =>
        destruct (validateValue R S2N TP x v) as [[|]|e|] eqn:V
    end; try discriminate; injection H as <- <-;
    repeat split; auto.
Qed.

Lemma findOne_absent (k : jsstring) (coll : Collection) :
  findOne k coll = None <-> ~ In k (map key coll).
Proof.
  split.
  - intros F Hin. apply in_map_iff in Hin as (s & Es & Hs).
    exact (@SettingsFacts.findOne_none k coll F s Hs Es).
  - intros Hn. destruct (findOne k coll) as [s|] eqn:F; auto.
    exfalso. apply Hn. unfold findOne in F.
    apply find_some in F as [Hs Es]. apply eqb_eq in Es.
    rewrite <- Es. apply in_map. exact Hs.
Qed.

(** X17.  [createSetting] refuses a key that is already stored.  When it
    succeeds the store has grown by exactly the new record, which has
    the given key, label and value, access level [admin] and
    [editable] unless given otherwise, and a value that passes its own
    validation; the key reads as the new value, the other keys as
    before, and keys that were distinct stay distinct. *)
Theorem createSetting_adds_new_key :
  forall (RegExp_test : jsstring -> jsstring -> option bool)
         (StringToNumber : jsstring -> option Z)
         (ToPrimitive : nat -> jsvalue)
         (coll : Collection) (d : SettingData),
    (findOne (sd_key d) coll <> None ->
     createSetting RegExp_test StringToNumber ToPrimitive coll d
     = Failed SettingExists)
    /\ (forall s c',
          createSetting RegExp_test StringToNumber ToPrimitive coll d
          = Done (s, c') ->
          c' = coll ++ [s]
          /\ key s = sd_key d /\ key s <> []
          /\ sd_label d = Some (label s) /\ label s <> []
          /\ sd_value d = Some (value s)
          /\ access_level s
             = match sd_access_level d with Some a => a | None => admin end
          /\ editable s
             = match sd_editable d with Some e => e | None => true end
          /\ validateValue RegExp_test StringToNumber ToPrimitive s (value s)
             = Ok true
          /\ getSetting c' (key s) = value s
          /\ (forall k, k <> key s -> getSetting c' k = getSetting coll k)
          /\ (NoDup (map key coll) -> NoDup (map key c'))).
Proof.
  intros R S2N TP coll d. split.
  - intros H. unfold createSetting.
    destruct (findOne (sd_key d) coll); [reflexivity | contradiction].
  - intros s c' H.
    destruct (createSetting_inv R S2N TP coll d s c' H)
      as (-> & K & Tk & Tl & F & V & L & A & E & _ & Val).
    rewrite <- K in F.
    split; [reflexivity|]. split; [exact K|].
    split; [destruct (key s); [discriminate|discriminate]|].
    split; [exact L|].
    split; [destruct (label s); [discriminate|discriminate]|].
    split; [exact V|]. split; [exact A|]. split; [exact E|].
    split; [exact Val|].
    split; [|split].
    + unfold getSetting. rewrite SettingsFacts.findOne_app, F.
      unfold findOne. simpl. rewrite eqb_refl. reflexivity.
    + intros k Hne. unfold getSetting. rewrite SettingsFacts.findOne_app.
      destruct (findOne k coll); auto.
      unfold findOne. simpl.
      assert (X : eqb (key s) k = false)
        by (apply eqb_neq; congruence).
      rewrite X. reflexivity.
    + intros Hnd. rewrite map_app. simpl.
      apply ContentOpsFacts.NoDup_snoc; auto.
      apply findOne_absent. exact F.
Qed.

Section Importing.

Variable R : jsstring -> jsstring -> option bool.
Variable S2N : jsstring -> option Z.
Variable TP : nat -> jsvalue.

Lemma import_keys (overwrite : bool) (items : list SettingData)
  (coll : Collection) :
  map ir_key (fst (importSettings R S2N TP coll items overwrite))
  = map sd_key items.
Proof.
  revert coll. induction items as [|d rest IH]; intros coll; auto.
  cbn [importSettings].
  destruct (findOne (sd_key d) coll).
  - destruct overwrite.
    + specialize (IH (update_first (sd_key d) (overwrite_with d) coll)).
      destruct (importSettings R S2N TP _ rest true). simpl in *. congruence.
    + specialize (IH coll).
      destruct (importSettings R S2N TP coll rest false). simpl in *.
      congruence.
  - destruct (createSetting R S2N TP coll d) as [[s c1]|f].
    + specialize (IH c1).
      destruct (importSettings R S2N TP c1 rest overwrite). simpl in *.
      congruence.
    + specialize (IH coll).
      destruct (importSettings R S2N TP coll rest overwrite). simpl in *.
      congruence.
Qed.

Lemma import_appends (items : list SettingData) (coll : Collection) :
  exists added,
    snd (importSettings R S2N TP coll items false) = coll ++ added
    /\ (NoDup (map key coll) -> NoDup (map key (coll ++ added)))
    /\ Forall (fun s => exists d, In d items /\ key s = sd_key d
                                  /\ sd_value d = Some (value s)) added.
Proof.
  revert coll. induction items as [|d rest IH]; intros coll.
  - exists []. rewrite app_nil_r. repeat split; auto.
  - cbn [importSettings].
    destruct (findOne (sd_key d) coll) as [ex|] eqn:F.
    + destruct (IH coll) as (added & E & N & A).
      destruct (importSettings R S2N TP coll rest false) as [rs c].
      exists added. repeat split; auto.
      eapply Forall_impl; [|exact A].
      intros y (x & Hx & Hk). exists x. split; [right; exact Hx | exact Hk].
    + destruct (createSetting R S2N TP coll d) as [[s c1]|f] eqn:C.
      * destruct (createSetting_inv R S2N TP coll d s c1 C)
          as (-> & K & _ & _ & _ & V & _).
        assert (N1 : NoDup (map key coll) -> NoDup (map key (coll ++ [s]))).
        { intros Hnd. rewrite map_app. simpl.
          apply ContentOpsFacts.NoDup_snoc; auto.
          apply findOne_absent. rewrite K. exact F. }
        destruct (IH (coll ++ [s])) as (added & E & N & A).
        destruct (importSettings R S2N TP (coll ++ [s]) rest false) as [rs c].
        exists (s :: added). simpl in *.
        rewrite <- app_assoc in E, N. simpl in E, N.
        repeat split; auto.
        constructor.
        -- exists d. split; [left; reflexivity|]. split; auto.
        -- eapply Forall_impl; [|exact A].
           intros y (x & Hx & Hk). exists x.
           split; [right; exact Hx | exact Hk].
      * destruct (IH coll) as (added & E & N & A).
        destruct (importSettings R S2N TP coll rest false) as [rs c].
        exists added. repeat split; auto.
        eapply Forall_impl; [|exact A].
        intros y (x & Hx & Hk). exists x.
        split; [right; exact Hx | exact Hk].
Qed.

End Importing.

(** X18.  [importSettings] reports one result per item, in order and
    under the item's key.  With overwriting off it never touches what is
    stored: the store afterwards is the old store followed by the
    records it created, each created from one of the items, every
    record found under a key before is found unchanged, and keys that
    were distinct stay distinct. *)
Theorem importSettings_keeps_existing :
  forall (RegExp_test : jsstring -> jsstring -> option bool)
         (StringToNumber : jsstring -> option Z)
         (ToPrimitive : nat -> jsvalue)
         (items : list SettingData) (coll : Collection),
    (forall overwrite,
        map ir_key
          (fst (importSettings RegExp_test StringToNumber ToPrimitive coll
                  items overwrite))
        = map sd_key items)
    /\ exists added,
         snd (importSettings RegExp_test StringToNumber ToPrimitive coll
                items false)
         = coll ++ added
         /\ Forall (fun s => exists d, In d items /\ key s = sd_key d
                                       /\ sd_value d = Some (value s)) added
         /\ (forall k s, findOne k coll = Some s ->
               findOne k
                 (snd (importSettings RegExp_test StringToNumber ToPrimitive
                         coll items false))
               = Some s)
         /\ (NoDup (map key coll) ->
             NoDup (map key
                      (snd (importSettings RegExp_test StringToNumber
                              ToPrimitive coll items false)))).
Proof.
  intros R S2N TP items coll. split.
  - intros overwrite. apply import_keys.
  - destruct (import_appends R S2N TP items coll) as (added & E & N & A).
    exists added. rewrite E. repeat split; auto.
    intros k s F. rewrite SettingsFacts.findOne_app, F. reflexivity.
Qed.

(** ** The settings repository: grouping *)

Lemma category_eqb_eq (a b : category) : category_eqb a b = true <-> a = b.
Proof.
  unfold category_eqb. rewrite eqb_eq. split; [|congruence].
  destruct a, b; intros H; try reflexivity; vm_compute in H; discriminate H.
Qed.

Lemma group_of_push (c : category) (s : Setting)
  (g : list (category * list Setting)) :
  group_of c (group_push s g)
  = if category_eqb (cat s) c
    then Some (match group_of c g with Some l => l ++ [s] | None => [s] end)
    else group_of c g.
Proof.
  unfold group_of. induction g as [|[c0 l0] t IH]; simpl.
  - destruct (category_eqb (cat s) c); reflexivity.
  - destruct (category_eqb c0 (cat s)) eqn:E1; simpl.
    + apply category_eqb_eq in E1. subst c0.
      destruct (category_eqb (cat s) c); reflexivity.
    + destruct (category_eqb c0 c) eqn:E2; simpl.
      * destruct (category_eqb (cat s) c) eqn:E3; auto.
        apply category_eqb_eq in E2, E3.
        assert (X : category_eqb c0 (cat s) = true)
          by (apply category_eqb_eq; congruence).
        congruence.
      * exact IH.
Qed.

Lemma group_of_fold (c : category) (l : list Setting)
  (g : list (category * list Setting)) :
  group_of c (fold_left (fun g s => group_push s g) l g)
  = match group_of c g, filter (fun s => category_eqb (cat s) c) l with
    | Some x, more => Some (x ++ more)
    | None, [] => None
    | None, more => Some more
    end.
Proof.
  revert g. induction l as [|s t IH]; intros g; simpl.
  - destruct (group_of c g); [rewrite app_nil_r|]; reflexivity.
  - rewrite IH, group_of_push.
    destruct (category_eqb (cat s) c).
    + destruct (group_of c g); [rewrite <- app_assoc|]; reflexivity.
    + reflexivity.
Qed.

(** X19.  [getSettingsGroupedByCategory] puts every setting the access
    level may see into the array of its own category, in the order of
    the sorted list: the array of a category is exactly the visible
    settings of that category, and a category without visible settings
    has no array.  It fails exactly when the underlying level query
    does. *)
Theorem grouped_by_category :
  forall (driver : jsstring -> Collection -> outcome (list Setting))
         (coll : Collection) (accessLevel : jsstring),
    (forall l,
        getSettingsByAccessLevel driver coll accessLevel = Ok l ->
        exists g,
          getSettingsGroupedByCategory driver coll accessLevel = Ok g
          /\ forall c,
               group_of c g
               = match filter (fun s => category_eqb (cat s) c) l with
                 | [] => None
                 | more => Some more
                 end)
    /\ (forall e,
          getSettingsByAccessLevel driver coll accessLevel = Throw e ->
          getSettingsGroupedByCategory driver coll accessLevel = Throw e).
Proof.
  intros driver coll lvl. unfold getSettingsGroupedByCategory. split.
  - intros l E. rewrite E. cbn [bind]. eexists. split; [reflexivity|].
    intros c. rewrite group_of_fold. reflexivity.
  - intros e E. rewrite E. reflexivity.
Qed.

End SettingsOpsFacts.

(** ** Sessions: the lifetime cap, destroying, sweeping *)

Module SessionOpsFacts.
Import Sessions SessionOps.

Lemma pre_save_min (s : Session) :
  expires_at (pre_save s)
  = Z.min (expires_at s) (created_at s + maxLifetime)
  /\ created_at (pre_save s) = created_at s
  /\ session_id (pre_save s) = session_id s
  /\ user_id (pre_save s) = user_id s
  /\ is_active (pre_save s) = is_active s
  /\ last_accessed (pre_save s) = last_accessed s.
Proof.
  unfold pre_save. cbv zeta.
  destruct (Z.ltb_spec (created_at s + maxLifetime) (expires_at s));
    cbn [expires_at created_at session_id user_id is_active last_accessed
         set_expires_at];
    repeat split; try reflexivity; lia.
Qed.

Lemma pre_save_capped (s : Session) : capped (pre_save s).
Proof.
  unfold capped. destruct (pre_save_min s) as (E & C & _).
  rewrite E, C. lia.
Qed.

Lemma Forall_replace_first (P : Session -> Prop) (sid : jsstring)
  (s' : Session) (coll : Collection) :
  P s' -> Forall P coll -> Forall P (replace_first sid s' coll).
Proof.
  intros Ps. induction 1 as [|h t Ph Ht IH]; simpl; [constructor|].
  destruct (eqb (session_id h) sid); constructor; auto.
Qed.

Lemma createSession_inv (t0 t1 : Z) (coll : Collection) (d : SessionData)
  (s : Session) (c' : Collection) :
  createSession t0 t1 coll d = Ok (s, c') ->
  c' = coll ++ [s]
  /\ existsb (fun e => eqb (session_id e) (session_id s)) coll = false
  /\ is_active s = true
  /\ created_at s = t1
  /\ d_session_id d = Some (session_id s)
  /\ session_id s <> []
  /\ expires_at s
     = Z.min (t0 + match d_expires_in d with Some e => e | None => 86400 end
                   * 1000)
         (t1 + maxLifetime)
  /\ capped s.
Proof.
  unfold createSession. intros H.
  destruct (required_errors d) eqn:Rq; [|discriminate].
  match type of H with
  | context [pre_save ?x] => set (s0 := x) in *
  end.
  destruct (existsb _ coll) eqn:E; [discriminate|].
  injection H as <- <-.
  destruct (pre_save_min s0) as (Ex & Cr & Si & _ & Ac & _).
  assert (G : Content.given (d_session_id d) = true).
  { unfold required_errors in Rq.
    apply app_eq_nil in Rq as [Rq _].
    destruct (Content.given (d_session_id d)); [reflexivity|discriminate]. }
  split; [reflexivity|]. split; [exact E|].
  split; [rewrite Ac; reflexivity|].
  split; [rewrite Cr; reflexivity|].
  rewrite Si. cbn [session_id s0].
  destruct (d_session_id d) as [[|c sid]|]; try discriminate.
  split; [reflexivity|]. split; [discriminate|].
  split; [rewrite Ex; reflexivity|].
  apply pre_save_capped.
Qed.

(** X20.  No stored session outlives thirty days from its creation: if
    every session of the store has [expires_at] at most [created_at]
    plus thirty days, so it has after [createSession], [touch],
    [extend], [destroy] and [destroyAllUserSessions].  In particular
    [extend] sets the expiry to the requested time or to the cap,
    whichever is earlier, however often it is called. *)
Theorem session_lifetime_capped :
  forall (coll : Collection),
    Forall capped coll ->
    (forall t0 t1 d s c',
        createSession t0 t1 coll d = Ok (s, c') -> Forall capped c')
    /\ (forall now s, Forall capped (snd (touch now coll s)))
    /\ (forall now additionalSeconds s,
          Forall capped (snd (extend now additionalSeconds coll s))
          /\ expires_at (fst (extend now additionalSeconds coll s))
             = Z.min (now + additionalSeconds * 1000)
                 (created_at s + maxLifetime))
    /\ (forall s, Forall capped (snd (destroy coll s)))
    /\ (forall userId, Forall capped (destroyAllUserSessions coll userId)).
Proof.
  intros coll H. split; [|split; [|split; [|split]]].
  - intros t0 t1 d s c' E.
    destruct (createSession_inv t0 t1 coll d s c' E)
      as (-> & _ & _ & _ & _ & _ & _ & C).
    apply Forall_app. split; [exact H|]. constructor; [exact C|constructor].
  - intros now s. unfold touch, save. cbn [snd].
    apply Forall_replace_first; [apply pre_save_capped | exact H].
  - intros now add s. unfold extend, save. cbn [snd fst]. split.
    + apply Forall_replace_first; [apply pre_save_capped | exact H].
    + destruct (pre_save_min
                  (set_last_accessed
                     (set_expires_at s (now + add * 1000)) now))
        as (E & _). rewrite E. reflexivity.
  - intros s. unfold destroy, save. cbn [snd].
    apply Forall_replace_first; [apply pre_save_capped | exact H].
  - intros userId. unfold destroyAllUserSessions.
    apply Forall_forall. intros x Hx.
    apply in_map_iff in Hx as (y & <- & Hy).
    rewrite Forall_forall in H. specialize (H y Hy).
    destruct (eqb (user_id y) userId && is_active y); exact H.
Qed.

Lemma session_lifetime_capped_witness :
  Forall capped [short_session]
  /\ expires_at (fst (extend 1000 (60 * 24 * 3600) [short_session]
                        short_session))
     = maxLifetime.
Proof.
  assert (H : Forall capped [short_session]).
  { constructor; [|constructor]. unfold capped. cbn. lia. }
  split; [exact H|].
  destruct (session_lifetime_capped [short_session] H)
    as (_ & _ & E & _).
  rewrite (proj2 (E 1000%Z (60 * 24 * 3600)%Z short_session)).
  reflexivity.
Defined.

Lemma find_none_all {A} (q : A -> bool) (l : list A) :
  (forall x, In x l -> q x = false) -> find q l = None.
Proof.
  intros H. destruct (find q l) as [x|] eqn:F; auto.
  apply find_some in F as [Hx Qx]. rewrite (H x Hx) in Qx. discriminate.
Qed.

Lemma filter_nil_all {A} (q : A -> bool) (l : list A) :
  (forall x, In x l -> q x = false) -> filter q l = [].
Proof.
  induction l as [|h t IH]; simpl; auto.
  intros H. rewrite (H h) by auto. apply IH. auto.
Qed.

Lemma destroy_not_found (now : Z) (coll : Collection) (s : Session) :
  NoDup (map session_id coll) ->
  findBySessionId now (snd (destroy coll s)) (session_id s) = None.
Proof.
  intros Hnd. unfold destroy, save, findBySessionId. cbn [snd].
  set (s' := pre_save (set_is_active s false)).
  assert (Hs' : live now s' = false).
  { unfold live. destruct (pre_save_min (set_is_active s false))
      as (_ & _ & _ & _ & A & _). fold s' in A. rewrite A. reflexivity. }
  change (session_id (set_is_active s false)) with (session_id s).
  apply find_none_all. intros x Hx.
  induction coll as [|h t IH]; simpl in Hx; [contradiction|].
  simpl in Hnd. inversion Hnd as [|? ? Hh Ht]; subst.
  destruct (eqb (session_id h) (session_id s)) eqn:E.
  - destruct Hx as [<-|Hx].
    + rewrite Hs'. apply andb_false_r.
    + apply eqb_eq in E. apply andb_false_iff. left. apply eqb_neq.
      intros Ex. apply Hh. rewrite E, <- Ex. apply in_map. exact Hx.
  - destruct Hx as [<-|Hx].
    + rewrite E. reflexivity.
    + apply IH; assumption.
Qed.

(** X21.  A destroyed session is gone for the application: with distinct
    session ids, [findBySessionId] no longer returns a session after
    [destroy]; after [destroyAllUserSessions(u)] the user [u] has no
    active session and a session count of [0], while every other user's
    active sessions and count are as before.  [getUserSessionCount]
    always equals the number of sessions [findActiveByUser] returns. *)
Theorem destroyed_sessions_not_found :
  forall (now : Z) (coll : Collection),
    (forall s, NoDup (map session_id coll) ->
       findBySessionId now (snd (destroy coll s)) (session_id s) = None)
    /\ (forall userId,
          findActiveByUser now (destroyAllUserSessions coll userId) userId
          = []
          /\ getUserSessionCount now (destroyAllUserSessions coll userId)
               userId = 0)
    /\ (forall userId other,
          other <> userId ->
          findActiveByUser now (destroyAllUserSessions coll userId) other
          = findActiveByUser now coll other
          /\ getUserSessionCount now (destroyAllUserSessions coll userId)
               other
             = getUserSessionCount now coll other)
    /\ (forall userId,
          getUserSessionCount now coll userId
          = List.length (findActiveByUser now coll userId)).
Proof.
  intros now coll. split; [|split; [|split]].
  - intros s Hnd. apply destroy_not_found; exact Hnd.
  - intros userId.
    assert (E : filter (fun s => eqb (user_id s) userId && live now s)
                  (destroyAllUserSessions coll userId) = []).
    { apply filter_nil_all. intros x Hx. unfold destroyAllUserSessions in Hx.
      apply in_map_iff in Hx as (y & <- & _).
      destruct (eqb (user_id y) userId) eqn:U; cbn [andb].
      - destruct (is_active y) eqn:A.
        + cbn. rewrite U. reflexivity.
        + rewrite U. unfold live. rewrite A. reflexivity.
      - rewrite U. reflexivity. }
    unfold findActiveByUser, getUserSessionCount. rewrite E. split; reflexivity.
  - intros userId other Hne.
    assert (E : filter (fun s => eqb (user_id s) other && live now s)
                  (destroyAllUserSessions coll userId)
                = filter (fun s => eqb (user_id s) other && live now s) coll).
    { unfold destroyAllUserSessions.
      induction coll as [|h t IH]; simpl; auto.
      rewrite IH.
      destruct (eqb (user_id h) userId) eqn:U; cbn [andb]; auto.
      apply eqb_eq in U.
      assert (X : eqb (user_id h) other = false)
        by (apply eqb_neq; congruence).
      destruct (is_active h); cbn; rewrite X; reflexivity. }
    unfold findActiveByUser, getUserSessionCount. rewrite E. split; reflexivity.
  - intros userId. unfold getUserSessionCount, findActiveByUser,
      recently_accessed_first.
    rewrite RepositoryFacts.sort_by_length. reflexivity.
Qed.

Lemma find_filter {A} (q p : A -> bool) (l : list A) :
  (forall x, q x = true -> p x = true) ->
  find q (filter p l) = find q l.
Proof.
  intros H. induction l as [|h t IH]; simpl; auto.
  destruct (p h) eqn:P; simpl.
  - destruct (q h); auto.
  - destruct (q h) eqn:Q; auto. rewrite (H h Q) in P. discriminate.
Qed.

(** X22.  The sweeps remove only what the application no longer serves:
    [destroyExpiredSessions] keeps exactly the sessions whose expiry is
    not before the current time, [cleanupOldSessions] keeps a part of
    those, and neither changes what [findBySessionId] returns.  A
    session whose expiry is exactly the current time is not expired for
    [isExpired], is kept by the sweep, and is not returned by
    [findBySessionId]. *)
Theorem sweeps_keep_live_sessions :
  forall (now : Z) (coll : Collection),
    (forall s, In s (destroyExpiredSessions now coll)
               <-> In s coll /\ (now <= expires_at s)%Z)
    /\ (forall sessionId,
          findBySessionId now (destroyExpiredSessions now coll) sessionId
          = findBySessionId now coll sessionId)
    /\ (forall olderThanDays sessionId,
          findBySessionId now (cleanupOldSessions now olderThanDays coll)
            sessionId
          = findBySessionId now coll sessionId)
    /\ (forall olderThanDays s,
          In s (cleanupOldSessions now olderThanDays coll) ->
          In s (destroyExpiredSessions now coll))
    /\ (forall s, expires_at s = now ->
          isExpired now s = false
          /\ live now s = false
          /\ (In s coll -> In s (destroyExpiredSessions now coll))).
Proof.
  intros now coll. split; [|split; [|split; [|split]]].
  - intros s. unfold destroyExpiredSessions. rewrite filter_In.
    rewrite negb_true_iff, Z.ltb_ge. tauto.
  - intros sid. unfold findBySessionId, destroyExpiredSessions.
    apply find_filter. intros x Hx.
    apply andb_true_iff in Hx as [_ Hx]. unfold live in Hx.
    apply andb_true_iff in Hx as [_ Hx].
    apply Z.ltb_lt in Hx. apply negb_true_iff, Z.ltb_ge. lia.
  - intros days sid. unfold findBySessionId, cleanupOldSessions.
    apply find_filter. intros x Hx.
    apply andb_true_iff in Hx as [_ Hx]. unfold live in Hx.
    apply andb_true_iff in Hx as [Ha Hx].
    apply Z.ltb_lt in Hx. rewrite Ha. cbn [negb andb].
    rewrite andb_false_r, orb_false_r.
    apply negb_true_iff, Z.ltb_ge. lia.
  - intros days s. unfold cleanupOldSessions, destroyExpiredSessions.
    rewrite !filter_In. intros [Hin H]. split; [exact Hin|].
    apply negb_true_iff, orb_false_iff in H as [H _].
    rewrite H. reflexivity.
  - intros s E. unfold isExpired, live. rewrite E.
    rewrite Z.ltb_irrefl, andb_false_r. repeat split.
    intros Hin. unfold destroyExpiredSessions. apply filter_In.
    split; [exact Hin|]. rewrite E, Z.ltb_irrefl. reflexivity.
Qed.

Lemma find_after {A} (q : A -> bool) (l1 l2 : list A) :
  find q l1 = None -> find q (l1 ++ l2) = find q l2.
Proof.
  induction l1 as [|h t IH]; simpl; auto.
  destruct (q h); [discriminate | exact IH].
Qed.

(** X23.  A session that [createSession] stored is the one
    [findBySessionId] returns under its id for as long as the current
    time is before its expiry, and once the time has reached the expiry
    it is not returned.  Without [expires_in] the session lasts
    twenty-four hours from the call. *)
Theorem created_session_found :
  forall (t0 t1 now : Z) (coll : Collection) (d : SessionData)
         (s : Session) (c' : Collection),
    createSession t0 t1 coll d = Ok (s, c') ->
    ((now < expires_at s)%Z ->
     findBySessionId now c' (session_id s) = Some s)
    /\ ((expires_at s <= now)%Z ->
        findBySessionId now c' (session_id s) = None)
    /\ (d_expires_in d = None -> (t0 <= t1)%Z ->
        expires_at s = (t0 + 24 * 60 * 60 * 1000)%Z).
Proof.
  intros t0 t1 now coll d s c' H.
  destruct (createSession_inv t0 t1 coll d s c' H)
    as (-> & Ex & Ac & _ & _ & _ & Exp & _).
  assert (N : find (fun x => eqb (session_id x) (session_id s) && live now x)
                coll = None).
  { apply find_none_all. intros x Hx.
    pose proof (ContentOpsFacts.existsb_false_all _ _ Ex x Hx) as X.
    cbn in X. rewrite X. reflexivity. }
  unfold findBySessionId. split; [|split].
  - intros Hlt. rewrite (find_after _ _ _ N). simpl.
    unfold live. rewrite eqb_refl, Ac.
    apply Z.ltb_lt in Hlt. rewrite Hlt. reflexivity.
  - intros Hge. rewrite (find_after _ _ _ N). simpl.
    unfold live. rewrite eqb_refl, Ac.
    apply Z.ltb_ge in Hge. rewrite Hge. reflexivity.
  - intros Hn Hmono. rewrite Exp, Hn. unfold maxLifetime. lia.
Qed.

Lemma created_session_found_witness :
  exists s c',
    createSession 1000000 1000002 [] forty_days = Ok (s, c')
    /\ findBySessionId 2000000 c' (session_id s) = Some s.
Proof.
  eexists; eexists. split; [reflexivity|].
  apply (proj1 (created_session_found 1000000 1000002 2000000 [] forty_days
                  _ _ eq_refl)).
  reflexivity.
Defined.

End SessionOpsFacts.

(** ** Users: registration and verification tokens *)

Module UserOpsFacts.
Import Users UserOps.

Lemma given_some (o : option jsstring) :
  Content.given o = true -> exists s, o = Some s /\ s <> [].
Proof.
  destruct o as [[|c s]|]; simpl; try discriminate.
  intros _. eexists. split; [reflexivity | discriminate].
Qed.

Lemma insert_inv (tl op : jsstring -> jsstring) (newID newToken : jsstring)
  (coll : Collection) (d : UserData) (u : User) (c' : Collection) :
  insert tl op newID newToken coll d = Done (u, c') ->
  c' = coll ++ [u]
  /\ ID u = newID
  /\ ud_username d = Some (username u)
  /\ (exists em, ud_email d = Some em /\ email u = tl em)
  /\ status u = match ud_status d with Some s => s | None => pending end
  /\ email_verified_at u = None
  /\ email_verification_token u <> None
  /\ username_ok (username u) = true
  /\ email_ok (email u) = true
  /\ (forall e, In e coll ->
        ID e <> ID u /\ username e <> username u /\ email e <> email u).
Proof.
  unfold insert. intros H.
  destruct (Content.given (ud_username d)) eqn:G1; cbn [negb orb] in H;
    [|discriminate].
  destruct (Content.given (ud_email d)) eqn:G2; cbn [negb orb] in H;
    [|discriminate].
  destruct (Content.given (ud_password_hash d)) eqn:G3; cbn [negb] in H;
    [|discriminate].
  apply given_some in G1 as (un & Un & _).
  apply given_some in G2 as (em & Em & _).
  rewrite Un, Em in H. cbn [str_or_empty] in H.
  match type of H with
  | match ?c with Some _ => _ | None => _ end = _ => destruct c
  end; [discriminate|].
  match type of H with
  | context [user_validation_errors ?x d] =>
      set (u0 := x) in *; destruct (user_validation_errors u0 d) eqn:V
  end; [|discriminate].
  destruct (existsb _ coll) eqn:E1; [discriminate|].
  destruct (existsb _ coll) eqn:E2 in H; [discriminate|].
  destruct (existsb _ coll) eqn:E3 in H; [discriminate|].
  injection H as <- <-.
  unfold user_validation_errors in V.
  repeat (apply app_eq_nil in V as [?V V]).
  rewrite ContentOpsFacts.check_nil in *.
  split; [reflexivity|]. split; [reflexivity|]. split; [exact Un|].
  split; [exists em; split; [exact Em | reflexivity]|].
  split; [reflexivity|]. split; [reflexivity|].
  split; [cbn; destruct (Content.given (ud_token d)) eqn:T;
          [destruct (ud_token d); [discriminate | discriminate T]
          | discriminate]|].
  split; [exact V1|]. split; [exact V2|].
  intros e He. repeat split; apply eqb_neq.
  - exact (ContentOpsFacts.existsb_false_all _ _ E1 e He).
  - exact (ContentOpsFacts.existsb_false_all _ _ E2 e He).
  - exact (ContentOpsFacts.existsb_false_all _ _ E3 e He).
Qed.

(** X24.  Registration never stores a second account under a username or
    an email that is taken.  Without a username, an email or a password
    hash the call is rejected at once.  For an email operand that
    queries compare as it is, a stored user with the username or the
    email makes the call fail as a conflict, with 'Email already exists'
    when only the email is taken.  However queries treat the operand, a
    call that succeeds appends the new account with status [pending]
    unless given, a verification token, no verification date, and an
    ID, a username and a lowered email that no stored account has, so
    distinct IDs, usernames and emails stay distinct. *)
Theorem user_insert_keeps_accounts_unique :
  forall (toLowerCase emailOperand : jsstring -> jsstring)
         (newID newToken : jsstring) (coll : Collection) (d : UserData),
    (Content.given (ud_username d) = false
     \/ Content.given (ud_email d) = false
     \/ Content.given (ud_password_hash d) = false ->
     insert toLowerCase emailOperand newID newToken coll d
     = Failed CredentialsRequired)
    /\ (forall un em,
          ud_username d = Some un -> un <> [] ->
          ud_email d = Some em -> em <> [] ->
          Content.given (ud_password_hash d) = true ->
          emailOperand em = em ->
          (In un (map username coll) \/ In em (map email coll) ->
           insert toLowerCase emailOperand newID newToken coll d
           = Failed UsernameExists
           \/ insert toLowerCase emailOperand newID newToken coll d
              = Failed EmailExists)
          /\ (~ In un (map username coll) -> In em (map email coll) ->
              insert toLowerCase emailOperand newID newToken coll d
              = Failed EmailExists))
    /\ (forall u c',
          insert toLowerCase emailOperand newID newToken coll d
          = Done (u, c') ->
          c' = coll ++ [u]
          /\ ID u = newID
          /\ ud_username d = Some (username u)
          /\ (exists em, ud_email d = Some em /\ email u = toLowerCase em)
          /\ status u
             = match ud_status d with Some s => s | None => pending end
          /\ email_verified_at u = None
          /\ email_verification_token u <> None
          /\ ~ In (ID u) (map ID coll)
          /\ ~ In (username u) (map username coll)
          /\ ~ In (email u) (map email coll)
          /\ (unique_users coll -> unique_users c')).
Proof.
  intros tl op newID newToken coll d. split; [|split].
  - intros H. unfold insert.
    destruct (Content.given (ud_username d)), (Content.given (ud_email d)),
             (Content.given (ud_password_hash d));
      cbn; try reflexivity.
    destruct H as [H|[H|H]]; discriminate.
  - intros un em Un Hun Em Hem Pw Op.
    assert (Start : forall f,
               match find (fun u => eqb (username u) un || eqb (email u) em)
                       coll with
               | Some existingUser =>
                   if eqb (username existingUser) un then Some UsernameExists
                   else if eqb (email existingUser) em then Some EmailExists
                   else None
               | None => None
               end = Some f ->
               insert tl op newID newToken coll d = Failed f).
    { intros f Hf. unfold insert. rewrite Un, Em, Pw.
      assert (G1 : Content.given (Some un) = true)
        by (destruct un; [contradiction | reflexivity]).
      assert (G2 : Content.given (Some em) = true)
        by (destruct em; [contradiction | reflexivity]).
      rewrite G1, G2. cbn [negb orb str_or_empty]. rewrite Op, Hf.
      reflexivity. }
    assert (Found : In un (map username coll) \/ In em (map email coll) ->
              exists e, find (fun u => eqb (username u) un
                                        || eqb (email u) em) coll = Some e).
    { intros H.
      destruct (find (fun u => eqb (username u) un || eqb (email u) em) coll)
        as [e|] eqn:F; [eauto|]. exfalso.
      destruct H as [H|H]; apply in_map_iff in H as (x & Ex & Hx);
        pose proof (find_none _ _ F x Hx) as N; cbn in N;
        rewrite Ex, eqb_refl in N; [|rewrite orb_true_r in N]; discriminate. }
    split.
    + intros H. destruct (Found H) as [e F].
      pose proof (find_some _ _ F) as [He Q].
      destruct (eqb (username e) un) eqn:E1.
      * left. apply Start. rewrite F, E1. reflexivity.
      * right. apply Start. rewrite F, E1. cbn [orb] in Q. rewrite Q.
        reflexivity.
    + intros Hn H. destruct (Found (or_intror H)) as [e F].
      pose proof (find_some _ _ F) as [He Q].
      apply Start. rewrite F.
      assert (E1 : eqb (username e) un = false).
      { apply eqb_neq. intros X. apply Hn. rewrite <- X. apply in_map.
        exact He. }
      rewrite E1 in *. cbn [orb] in Q. rewrite Q. reflexivity.
  - intros u c' H.
    destruct (insert_inv tl op newID newToken coll d u c' H)
      as (-> & I & Un & Em & St & Ve & To & _ & _ & Fr).
    assert (F1 : ~ In (ID u) (map ID coll)).
    { intros Hin. apply in_map_iff in Hin as (e & Ee & He).
      destruct (Fr e He) as (X & _ & _). contradiction. }
    assert (F2 : ~ In (username u) (map username coll)).
    { intros Hin. apply in_map_iff in Hin as (e & Ee & He).
      destruct (Fr e He) as (_ & X & _). contradiction. }
    assert (F3 : ~ In (email u) (map email coll)).
    { intros Hin. apply in_map_iff in Hin as (e & Ee & He).
      destruct (Fr e He) as (_ & _ & X). contradiction. }
    split; [reflexivity|]. split; [exact I|]. split; [exact Un|].
    split; [exact Em|].
    split; [exact St|]. split; [exact Ve|]. split; [exact To|].
    split; [exact F1|]. split; [exact F2|]. split; [exact F3|].
    intros (N1 & N2 & N3). unfold unique_users. rewrite !map_app. simpl.
    repeat split; apply ContentOpsFacts.NoDup_snoc; assumption.
Qed.

Lemma update_first_IDs (id : jsstring) (f : User -> User)
  (coll : Collection) :
  (forall u, ID (f u) = ID u) ->
  map ID (update_first id f coll) = map ID coll.
Proof.
  intros Hf. induction coll as [|h t IH]; simpl; auto.
  destruct (eqb (ID h) id); simpl; [rewrite Hf|rewrite IH]; reflexivity.
Qed.

Lemma update_first_split (id : jsstring) (f : User -> User)
  (coll : Collection) (u : User) :
  findById id coll = Some u ->
  exists pre post,
    coll = pre ++ u :: post
    /\ (forall e, In e pre -> eqb (ID e) id = false)
    /\ update_first id f coll = pre ++ f u :: post.
Proof.
  unfold findById. induction coll as [|h t IH]; simpl; [discriminate|].
  destruct (eqb (ID h) id) eqn:E.
  - intros [= <-]. exists [], t. repeat split; auto. intros e [].
  - intros F. destruct (IH F) as (pre & post & -> & Hp & R).
    exists (h :: pre), post. simpl. rewrite R. repeat split; auto.
    intros e [<-|He]; auto.
Qed.

(** X25.  A verification token works once.  With distinct IDs and a token
    no stored account holds, after [createEmailVerificationToken] the
    token finds exactly that account, and after [verifyEmail] no token
    finds it any more. *)
Theorem verification_token_single_use :
  forall (now : Z) (coll : Collection) (id token : jsstring) (u : User),
    NoDup (map ID coll) ->
    findById id coll = Some u ->
    (forall x, In x coll -> email_verification_token x <> Some token) ->
    exists c1 u1 u2 c2,
      createEmailVerificationToken token coll id = Ok (token, c1)
      /\ findByEmailVerificationToken c1 token = Some u1
      /\ ID u1 = id
      /\ verifyEmail now c1 id = Ok (u2, c2)
      /\ forall t x, findByEmailVerificationToken c2 t = Some x -> ID x <> id.
Proof.
  intros now coll id token u Hnd F Fresh.
  assert (Eu : ID u = id).
  { unfold findById in F. apply find_some in F as [_ F].
    apply eqb_eq; exact F. }
  destruct (update_first_split id (set_token (Some token)) coll u F)
    as (pre & post & Ec & Hpre & R1).
  set (u1 := set_token (Some token) u).
  set (c1 := update_first id (set_token (Some token)) coll).
  assert (F1 : findById id c1 = Some u1).
  { unfold c1, findById. rewrite R1. rewrite (SessionOpsFacts.find_after).
    - simpl. unfold u1. cbn [ID set_token]. rewrite Eu, eqb_refl. reflexivity.
    - apply SessionOpsFacts.find_none_all. exact Hpre. }
  exists c1, u1.
  destruct (update_first_split id (set_verified_active now) c1 u1 F1)
    as (pre2 & post2 & Ec2 & Hpre2 & R2).
  exists (set_verified_active now u1),
         (update_first id (set_verified_active now) c1).
  split; [unfold createEmailVerificationToken, base_update; rewrite F;
          reflexivity|].
  split.
  { unfold findByEmailVerificationToken, c1. rewrite R1.
    rewrite SessionOpsFacts.find_after.
    - simpl. rewrite eqb_refl. reflexivity.
    - apply SessionOpsFacts.find_none_all. intros x Hx.
      assert (Hin : In x coll) by (rewrite Ec; apply in_or_app; auto).
      specialize (Fresh x Hin).
      destruct (email_verification_token x) as [t|]; auto.
      apply eqb_neq. congruence. }
  split; [exact Eu|].
  split; [unfold verifyEmail; rewrite F1; reflexivity|].
  intros t x Fx Ex.
  unfold findByEmailVerificationToken in Fx.
  apply find_some in Fx as [Hx Tx].
  assert (Hnd2 : NoDup (map ID (update_first id (set_verified_active now) c1))).
  { rewrite update_first_IDs by reflexivity. unfold c1.
    rewrite update_first_IDs by reflexivity. exact Hnd. }
  rewrite R2 in Hx, Hnd2.
  assert (X : x = set_verified_active now u1).
  { apply (ContentOpsFacts.nodup_map_inj ID
             (pre2 ++ set_verified_active now u1 :: post2) x
             (set_verified_active now u1) Hnd2 Hx).
    - apply in_or_app. right. left. reflexivity.
    - rewrite Ex. unfold u1. cbn. exact (eq_sym Eu). }
  rewrite X in Tx. cbn in Tx. discriminate Tx.
Qed.

Lemma verification_token_single_use_witness :
  exists c1 u1,
    createEmailVerificationToken (js "t1") [alice] (js "u1")
    = Ok (js "t1", c1)
    /\ findByEmailVerificationToken c1 (js "t1") = Some u1
    /\ ID u1 = js "u1".
Proof.
  destruct (verification_token_single_use 5 [alice] (js "u1") (js "t1") alice)
    as (c1 & u1 & _ & _ & A & B & C & _).
  - repeat constructor. intros [].
  - reflexivity.
  - intros x [<-|[]]. discriminate.
  - exists c1, u1. auto.
Defined.

End UserOpsFacts.

(** ** Media: back-references and file extensions *)

Module MediaFacts.
Import Media.

Lemma same_usage_eq (cid : jsstring) (ut : usage_type) (u : Usage) :
  same_usage cid ut u = true <-> u = mkUsage cid ut.
Proof.
  unfold same_usage. rewrite andb_true_iff, eqb_eq.
  destruct u as [c t]. cbn. split.
  - intros [-> H]. f_equal. destruct t, ut; try discriminate; reflexivity.
  - intros [= -> ->]. split; [reflexivity|]. destruct ut; reflexivity.
Qed.

Lemma find_usage_none (cid : jsstring) (ut : usage_type) (l : list Usage) :
  find (same_usage cid ut) l = None <-> ~ In (mkUsage cid ut) l.
Proof.
  split.
  - intros F Hin. pose proof (find_none _ _ F _ Hin) as N.
    assert (same_usage cid ut (mkUsage cid ut) = true)
      by (apply same_usage_eq; reflexivity).
    congruence.
  - intros Hn. destruct (find (same_usage cid ut) l) as [u|] eqn:F; auto.
    exfalso. apply find_some in F as [Hu Su].
    apply same_usage_eq in Su. subst u. contradiction.
Qed.

Lemma filter_other_usages (cid : jsstring) (ut : usage_type)
  (l : list Usage) :
  ~ In (mkUsage cid ut) l ->
  filter (fun u => negb (same_usage cid ut u)) l = l.
Proof.
  induction l as [|h t IH]; simpl; auto.
  intros Hn. destruct (same_usage cid ut h) eqn:S.
  - apply same_usage_eq in S. exfalso. apply Hn. left. exact S.
  - simpl. f_equal. apply IH. intros X. apply Hn. right. exact X.
Qed.

(** X26.  The back-references of a media document never repeat: after
    [addUsage] the pair is among them, a list without repetitions stays
    without, and a document that already has the pair is left as it is.
    After [removeUsage] the pair is gone and every other back-reference
    is still there, in the same order; removing a pair that was just
    added to a document that did not have it gives the old list back. *)
Theorem usage_tracking :
  forall (cid : jsstring) (ut : usage_type) (d : Doc),
    In (mkUsage cid ut) (used_in (addUsage cid ut d))
    /\ (NoDup (used_in d) -> NoDup (used_in (addUsage cid ut d)))
    /\ (In (mkUsage cid ut) (used_in d) -> addUsage cid ut d = d)
    /\ ~ In (mkUsage cid ut) (used_in (removeUsage cid ut d))
    /\ (forall u, In u (used_in (removeUsage cid ut d))
                  <-> In u (used_in d) /\ u <> mkUsage cid ut)
    /\ (forall cid' ut',
          mkUsage cid' ut' <> mkUsage cid ut ->
          filter (same_usage cid' ut') (used_in (removeUsage cid ut d))
          = filter (same_usage cid' ut') (used_in d))
    /\ (~ In (mkUsage cid ut) (used_in d) ->
        used_in (removeUsage cid ut (addUsage cid ut d)) = used_in d).
Proof.
  intros cid ut d.
  assert (A : In (mkUsage cid ut) (used_in (addUsage cid ut d))).
  { unfold addUsage. destruct (find (same_usage cid ut) (used_in d)) eqn:F.
    - apply find_some in F as [Hu Su]. apply same_usage_eq in Su.
      subst. exact Hu.
    - cbn. apply in_or_app. right. left. reflexivity. }
  assert (Rm : forall u, In u (used_in (removeUsage cid ut d))
                         <-> In u (used_in d) /\ u <> mkUsage cid ut).
  { intros u. unfold removeUsage. cbn. rewrite filter_In, negb_true_iff.
    split; intros [H1 H2]; split; auto.
    - intros X. apply same_usage_eq in X. congruence.
    - destruct (same_usage cid ut u) eqn:S; auto.
      apply same_usage_eq in S. contradiction. }
  split; [exact A|].
  split; [|split; [|split; [|split; [exact Rm|split]]]].
  - intros Hnd. unfold addUsage.
    destruct (find (same_usage cid ut) (used_in d)) eqn:F; [exact Hnd|].
    cbn. apply ContentOpsFacts.NoDup_snoc; [exact Hnd|].
    apply find_usage_none. exact F.
  - intros Hin. unfold addUsage.
    destruct (find (same_usage cid ut) (used_in d)) eqn:F; [reflexivity|].
    apply find_usage_none in F. contradiction.
  - intros H. apply Rm in H as [_ H]. apply H. reflexivity.
  - intros cid' ut' Hne. unfold removeUsage. cbn. clear A Rm.
    induction (used_in d) as [|h t IH]; simpl; [reflexivity|].
    destruct (same_usage cid ut h) eqn:S1; simpl.
    + destruct (same_usage cid' ut' h) eqn:S2; [|exact IH].
      apply same_usage_eq in S1, S2. congruence.
    + rewrite IH. reflexivity.
  - intros Hn. unfold addUsage.
    apply find_usage_none in Hn as F. rewrite F.
    unfold removeUsage. cbn. rewrite filter_app. simpl.
    assert (S : same_usage cid ut (mkUsage cid ut) = true)
      by (apply same_usage_eq; reflexivity).
    rewrite S. simpl. rewrite app_nil_r.
    exact (filter_other_usages cid ut (used_in d) Hn).
Qed.

Lemma split_dots_nonempty (s : jsstring) : split_dots s <> [].
Proof.
  destruct s as [|c t]; simpl; [discriminate|].
  destruct (N.eqb c 46); [discriminate|].
  destruct (split_dots t); discriminate.
Qed.

Lemma split_dots_single (s seg : jsstring) :
  split_dots s = [seg] -> s = seg /\ ~ In 46%N s.
Proof.
  revert seg. induction s as [|c t IH]; intros seg; simpl.
  - intros [= <-]. auto.
  - destruct (N.eqb_spec c 46) as [->|Hc].
    + intros [= _ H]. exfalso. exact (split_dots_nonempty t H).
    + destruct (split_dots t) as [|seg0 rest] eqn:E.
      * exfalso. exact (split_dots_nonempty t E).
      * intros [= <- ->]. destruct (IH seg0 eq_refl) as [-> Hn].
        split; [reflexivity|]. intros [X|X]; auto.
Qed.

Lemma split_dots_no_dot (s : jsstring) :
  ~ In 46%N s -> split_dots s = [s].
Proof.
  induction s as [|c t IH]; simpl; auto.
  intros Hn. destruct (N.eqb_spec c 46) as [->|Hc].
  - exfalso. apply Hn. left. reflexivity.
  - rewrite IH; [reflexivity|]. intros X. apply Hn. right. exact X.
Qed.

Lemma pop_cons (x : list N) (l : list (list N)) :
  l <> [] -> pop (x :: l) = pop l.
Proof. unfold pop. destruct l; [contradiction | reflexivity]. Qed.

Lemma pop_split (s : jsstring) :
  (~ In 46%N s /\ pop (split_dots s) = s)
  \/ (exists stem,
        s = stem ++ 46%N :: pop (split_dots s)
        /\ ~ In 46%N (pop (split_dots s))).
Proof.
  induction s as [|c t IH].
  - left. split; [intros []|reflexivity].
  - cbn [split_dots]. destruct (N.eqb_spec c 46) as [->|Hc]; cbv iota.
    + right. rewrite (pop_cons [] _ (split_dots_nonempty t)).
      destruct IH as [[Hn Hp]|(stem & E & Hn)].
      * exists []. rewrite Hp. split; [reflexivity | exact Hn].
      * exists (46%N :: stem). split; [simpl; f_equal; exact E | exact Hn].
    + destruct IH as [[Hn Hp]|(stem & E & Hn)].
      * left. rewrite (split_dots_no_dot t Hn). split.
        -- intros [X|X]; auto.
        -- reflexivity.
      * right. destruct (split_dots t) as [|seg rest] eqn:Es.
        -- exfalso. exact (split_dots_nonempty t Es).
        -- destruct rest as [|r rs].
           ++ destruct (split_dots_single t seg Es) as [_ Hnd].
              exfalso. apply Hnd. rewrite E. apply in_or_app. right. left.
              reflexivity.
           ++ exists (c :: stem).
              change (pop ((c :: seg) :: r :: rs)) with (pop (seg :: r :: rs)).
              split; [simpl; f_equal; exact E | exact Hn].
Qed.

Lemma join_split (s : jsstring) : join_dots (split_dots s) = s.
Proof.
  induction s as [|c t IH]; simpl; auto.
  destruct (N.eqb_spec c 46) as [->|Hc].
  - pose proof (split_dots_nonempty t) as N.
    destruct (split_dots t) as [|seg rest]; [contradiction|].
    rewrite <- IH. reflexivity.
  - destruct (split_dots t) as [|seg rest] eqn:E.
    + exfalso. exact (split_dots_nonempty t E).
    + destruct rest as [|r rs]; simpl in *; rewrite <- IH; reflexivity.
Qed.

Lemma pop_trailing_dot (stem : jsstring) :
  pop (split_dots (stem ++ [46%N])) = [].
Proof.
  induction stem as [|c t IH]; [reflexivity|].
  change ((c :: t) ++ [46%N]) with (c :: (t ++ [46%N])).
  cbn [split_dots]. destruct (N.eqb c 46); cbv iota.
  - rewrite pop_cons by apply split_dots_nonempty. exact IH.
  - destruct (split_dots (t ++ [46%N])) as [|seg rest] eqn:E.
    + exfalso. exact (split_dots_nonempty _ E).
    + destruct rest as [|r rs]; [|exact IH].
      destruct (split_dots_single _ _ E) as [_ Hn].
      exfalso. apply Hn. apply in_or_app. right. left. reflexivity.
Qed.

Lemma derive_extension_idem (tl : jsstring -> jsstring) (d : Doc) :
  derive_extension tl (derive_extension tl d) = derive_extension tl d.
Proof.
  destruct d as [fn fe mt u ui pr].
  unfold derive_extension. cbv zeta.
  cbn [filename file_extension mime_type url used_in processing].
  destruct (Content.given fe) eqn:G1, (truthy fn) eqn:G2; cbn [negb andb];
    cbn [filename file_extension]; rewrite ?G1, ?G2; cbn [negb andb];
    try reflexivity.
  destruct (truthy (pop (split_dots fn))
            && negb (eqb (pop (split_dots fn)) fn)) eqn:C;
    cbn [filename file_extension]; rewrite ?G1, ?G2, ?C; cbn [negb andb];
    rewrite ?C; try reflexivity.
  destruct (Content.given (Some (tl (tl (pop (split_dots fn))))));
    cbn [negb andb]; rewrite ?G2, ?C; reflexivity.
Qed.

Lemma derive_extension_rest (tl : jsstring -> jsstring) (d : Doc) :
  mime_type (derive_extension tl d) = mime_type d
  /\ processing (derive_extension tl d) = processing d
  /\ forall p, derive_extension tl (set_processing d p)
               = set_processing (derive_extension tl d) p.
Proof.
  unfold derive_extension, set_processing. cbv zeta.
  cbn [filename file_extension].
  destruct (negb (Content.given (file_extension d)) && truthy (filename d));
    [|repeat split].
  destruct (truthy (pop (split_dots (filename d)))
            && negb (eqb (pop (split_dots (filename d))) (filename d)));
    repeat split.
Qed.

Lemma pre_save_loaded (tl : jsstring -> jsstring) (isNew : bool) (d : Doc) :
  isNew && isImage d = false ->
  pre_save tl isNew d = Ok (derive_extension tl d).
Proof.
  intros H. unfold pre_save. cbv zeta. unfold isImage in *.
  rewrite (proj1 (derive_extension_rest tl d)), H. reflexivity.
Qed.

(** X27.  [MediaSchema.pre('save')].  Its first statement changes the
    document only when [file_extension] is unset and the file name is a
    stem, a dot and a non-empty rest without dots; [file_extension] then
    becomes that rest, lowered by the hook and by the schema's setter,
    and nothing else changes.  A document that has an extension, a file
    name without a dot, and a file name that ends in a dot are left as
    they are.  Its second statement concerns a new image only: the hook
    throws when the document has no [processing], and sets a status
    that is unset to ['pending']; for a loaded document and for a
    document that is not an image the hook does not throw and is the
    first statement alone.  Running the hook a second time on what it
    returned changes nothing. *)
Theorem media_save_hook :
  forall (toLowerCase : jsstring -> jsstring) (d : Doc),
    (Content.given (file_extension d) = true ->
     derive_extension toLowerCase d = d)
    /\ (~ In 46%N (filename d) -> derive_extension toLowerCase d = d)
    /\ (forall stem, filename d = stem ++ [46%N] ->
          derive_extension toLowerCase d = d)
    /\ (derive_extension toLowerCase d <> d ->
        exists stem rest,
          filename d = stem ++ 46%N :: rest
          /\ rest <> []
          /\ ~ In 46%N rest
          /\ derive_extension toLowerCase d
             = mkDoc (filename d) (Some (toLowerCase (toLowerCase rest)))
                 (mime_type d) (url d) (used_in d) (processing d))
    /\ pre_save toLowerCase false d = Ok (derive_extension toLowerCase d)
    /\ (isImage d = false ->
        pre_save toLowerCase true d = Ok (derive_extension toLowerCase d))
    /\ (isImage d = true -> processing d = None ->
        pre_save toLowerCase true d = Throw TypeError)
    /\ (forall p st,
          isImage d = true -> processing d = Some p ->
          p_status p = Some st ->
          pre_save toLowerCase true d = Ok (derive_extension toLowerCase d))
    /\ (forall p,
          isImage d = true -> processing d = Some p -> p_status p = None ->
          pre_save toLowerCase true d
          = Ok (set_processing (derive_extension toLowerCase d)
                  (mkProcessing (Some pending) (thumbnails p)
                     (processed_at p))))
    /\ (forall isNew d',
          pre_save toLowerCase isNew d = Ok d' ->
          pre_save toLowerCase isNew d' = Ok d').
Proof.
  intros tl d.
  destruct (derive_extension_rest tl d) as (Mt & Pr & Sp).
  assert (Img : isImage (derive_extension tl d) = isImage d)
    by (unfold isImage; rewrite Mt; reflexivity).
  split; [|split; [|split; [|split; [|split; [|split; [|split;
    [|split; [|split]]]]]]]].
  - intros G. unfold derive_extension. rewrite G. reflexivity.
  - intros Hn. unfold derive_extension.
    rewrite (split_dots_no_dot _ Hn). cbn [pop last].
    rewrite eqb_refl, andb_false_r.
    destruct (negb (Content.given (file_extension d)) && truthy (filename d));
      reflexivity.
  - intros stem E. unfold derive_extension.
    rewrite E, pop_trailing_dot. cbn [truthy andb].
    destruct (negb (Content.given (file_extension d))
              && truthy (stem ++ [46%N]));
      reflexivity.
  - intros Hd. unfold derive_extension in *.
    destruct (negb (Content.given (file_extension d)) && truthy (filename d));
      [|contradiction].
    cbv zeta in *.
    destruct (truthy (pop (split_dots (filename d)))) eqn:T;
      cbn [andb] in *; [|contradiction].
    destruct (eqb (pop (split_dots (filename d))) (filename d)) eqn:E;
      cbn [negb] in *; [contradiction|].
    apply eqb_neq in E.
    destruct (pop_split (filename d)) as [[_ Hp]|(stem & Es & Hn)];
      [contradiction|].
    exists stem, (pop (split_dots (filename d))).
    split; [exact Es|]. split; [|split; [exact Hn | reflexivity]].
    destruct (pop (split_dots (filename d))); [discriminate T | discriminate].
  - apply pre_save_loaded. reflexivity.
  - intros H. apply pre_save_loaded. rewrite H. reflexivity.
  - intros H P. unfold pre_save. cbv zeta. rewrite Img, H, Pr, P. reflexivity.
  - intros p st H P S. unfold pre_save. cbv zeta.
    rewrite Img, H, Pr, P, S. reflexivity.
  - intros p H P S. unfold pre_save. cbv zeta.
    rewrite Img, H, Pr, P, S. reflexivity.
  - intros isNew d' H. unfold pre_save in *. cbv zeta in *.
    rewrite Img, Pr in H.
    destruct (isNew && isImage d) eqn:C.
    + destruct (processing d) as [p|] eqn:P; [|discriminate].
      destruct (p_status p) as [st|] eqn:S; injection H as <-.
      * rewrite derive_extension_idem, Img, C, Pr, S. reflexivity.
      * rewrite (proj2 (proj2 (derive_extension_rest tl
                                 (derive_extension tl d)))),
                derive_extension_idem.
        unfold isImage at 1. cbn [mime_type set_processing processing].
        fold (isImage (derive_extension tl d)). rewrite Img, C.
        cbn [p_status]. reflexivity.
    + injection H as <-.
      rewrite derive_extension_idem, Img, C. reflexivity.
Qed.

End MediaFacts.

(** ** Paginated listings and thumbnails *)

Module ListingFacts.
Import Content ContentOps.

Lemma published_status (d : Doc) :
  is_published d = true -> status d = published.
Proof. unfold is_published. destruct (status d); discriminate || reflexivity. Qed.

Lemma firstn_skipn_incl {A} (n k : nat) (l : list A) (x : A) :
  In x (firstn n (skipn k l)) -> In x l.
Proof.
  intros H. rewrite <- (firstn_skipn k l). apply in_or_app. right.
  rewrite <- (firstn_skipn n (skipn k l)). apply in_or_app. left. exact H.
Qed.

(** X28.  The paginated listings agree with the plain ones: for a page
    size of at least one, the pages [1] to [total_pages] of
    [getPublishedPaginated], read one after the other, are the list that
    [findPublished] returns, and those of [getByTypePaginated] the list
    of [findByType]; no page shows a document that is not published, or
    that is of another type. *)
Theorem paginated_listing_is_the_finder_in_pages :
  forall (limit : nat) (coll : Collection),
    1 <= limit ->
    List.concat
      (map (fun p => Repository.documents (getPublishedPaginated p limit coll))
         (seq 1 (Repository.ceil_div
                   (Repository.count is_published coll) limit)))
    = findPublished coll
    /\ (forall ty,
          List.concat
            (map (fun p => Repository.documents
                             (getByTypePaginated ty p limit coll))
               (seq 1 (Repository.ceil_div
                         (Repository.count
                            (fun d => type_eqb (type d) ty && is_published d)
                            coll) limit)))
          = findByType ty coll)
    /\ (forall p d,
          In d (Repository.documents (getPublishedPaginated p limit coll)) ->
          status d = published)
    /\ (forall ty p d,
          In d (Repository.documents (getByTypePaginated ty p limit coll)) ->
          type d = ty /\ status d = published).
Proof.
  intros limit coll Hl.
  assert (Len : forall l : list Doc,
             List.length (newest_published_first l) = List.length l)
    by (intros l; apply RepositoryFacts.sort_by_length).
  assert (Pg : forall (q : Doc -> bool) p d,
             In d (Repository.documents
                     (Repository.paginate q newest_published_first p limit
                        coll)) ->
             q d = true).
  { intros q p d Hd. unfold Repository.paginate in Hd.
    destruct ((p =? 0) && negb (limit =? 0)); [destruct Hd|].
    cbn [Repository.documents] in Hd.
    rewrite RepositoryFacts.getlist_page in Hd by exact Hl.
    apply firstn_skipn_incl in Hd.
    apply (Permutation_in _ (RepositoryFacts.sort_by_perm _ _ _)) in Hd.
    apply filter_In in Hd as [_ Hd]. exact Hd. }
  split; [|split; [|split]].
  - unfold getPublishedPaginated, findPublished.
    rewrite RepositoryFacts.pages_in_order by assumption. reflexivity.
  - intros ty. unfold getByTypePaginated, findByType.
    rewrite RepositoryFacts.pages_in_order by assumption. reflexivity.
  - intros p d Hd. apply published_status. exact (Pg _ p d Hd).
  - intros ty p d Hd. apply Pg in Hd. apply andb_true_iff in Hd as [T P].
    split; [|exact (published_status d P)].
    destruct (type d), ty; try discriminate T; reflexivity.
Qed.

(** Three published documents among four, two to a page: the pages are
    the dated ones, latest first, and then the undated one. *)
Lemma paginated_listing_is_the_finder_in_pages_witness :
  List.concat
    (map (fun p => Repository.documents
                     (getPublishedPaginated p 2
                        [article; about_page; news_page; terms_page]))
       (seq 1 (Repository.ceil_div
                 (Repository.count is_published
                    [article; about_page; news_page; terms_page]) 2)))
  = findPublished [article; about_page; news_page; terms_page]
  /\ findPublished [article; about_page; news_page; terms_page]
     = [news_page; article; terms_page]
  /\ Repository.documents
       (getPublishedPaginated 2 2
          [article; about_page; news_page; terms_page])
     = [terms_page].
Proof.
  split; [|split; reflexivity].
  exact (proj1 (paginated_listing_is_the_finder_in_pages 2
                  [article; about_page; news_page; terms_page]
                  (le_S 1 1 (le_n 1)))).
Defined.

End ListingFacts.

Module ThumbnailFacts.
Import Media.

Lemma size_eqb_eq (a b : thumb_size) : size_eqb a b = true <-> a = b.
Proof. destruct a, b; simpl; split; intros H; congruence. Qed.

Lemma find_first {A} (p : A -> bool) (l : list A) (x : A) :
  find p l = Some x ->
  exists pre post,
    l = pre ++ x :: post /\ p x = true
    /\ Forall (fun y => p y = false) pre.
Proof.
  induction l as [|h t IH]; simpl; [discriminate|].
  destruct (p h) eqn:E.
  - intros [= <-]. exists [], t. repeat split; auto.
  - intros F. destruct (IH F) as (pre & post & -> & Px & Hpre).
    exists (h :: pre), post. repeat split; auto.
Qed.

(** X29.  [getThumbnail] answers [null] for a document that is not an
    image, before and after processing.  On a document without
    [processing], [markProcessingComplete] throws, and so does
    [getThumbnail] when the document is an image.  On an image with
    [processing] that [markProcessingComplete] has given the thumbnails
    [thumbs], [getThumbnail] answers the URL of the first thumbnail of
    the requested size, never one of another size, and the URL of the
    original exactly when [thumbs] has none of that size; the
    thumbnails the document had before play no part. *)
Theorem getThumbnail_after_processing :
  forall (now : Z) (thumbs : list Thumbnail) (sz : thumb_size) (d : Doc),
    (isImage d = false ->
     getThumbnail sz d = Ok None
     /\ forall d', markProcessingComplete now thumbs d = Ok d' ->
                   getThumbnail sz d' = Ok None)
    /\ (processing d = None ->
        markProcessingComplete now thumbs d = Throw TypeError
        /\ (isImage d = true -> getThumbnail sz d = Throw TypeError))
    /\ (forall p,
          processing d = Some p ->
          exists d',
            markProcessingComplete now thumbs d = Ok d'
            /\ processing d'
               = Some (mkProcessing (Some completed) thumbs (Some now))
            /\ (isImage d = true ->
                (exists pre t post,
                    thumbs = pre ++ t :: post
                    /\ size t = sz
                    /\ Forall (fun x => size x <> sz) pre
                    /\ getThumbnail sz d' = Ok (Some (thumb_url t)))
                \/ (Forall (fun x => size x <> sz) thumbs
                    /\ getThumbnail sz d' = Ok (Some (url d))))).
Proof.
  intros now thumbs sz d. split; [|split].
  - intros H. split.
    + unfold getThumbnail. rewrite H. reflexivity.
    + intros d' M. unfold markProcessingComplete in M.
      destruct (processing d); [|discriminate]. injection M as <-.
      unfold getThumbnail, isImage in *.
      cbn [mime_type set_processing]. rewrite H. reflexivity.
  - intros P. split.
    + unfold markProcessingComplete. rewrite P. reflexivity.
    + intros H. unfold getThumbnail. rewrite H, P. reflexivity.
  - intros p P. unfold markProcessingComplete. rewrite P.
    eexists. split; [reflexivity|]. split; [reflexivity|].
    intros H. unfold getThumbnail, isImage in *.
    cbn [mime_type set_processing processing thumbnails url]. rewrite H.
    cbn [negb].
    destruct (find (fun t => size_eqb (size t) sz) thumbs) as [t|] eqn:F.
    + left. destruct (find_first _ _ _ F) as (pre & post & E & St & Hpre).
      exists pre, t, post. split; [exact E|].
      split; [apply size_eqb_eq; exact St|].
      split; [|reflexivity].
      eapply Forall_impl; [|exact Hpre]. cbn. intros x Hx Ex.
      apply size_eqb_eq in Ex. congruence.
    + right. split; [|reflexivity].
      apply Forall_forall. intros x Hx Ex.
      pose proof (find_none _ _ F x Hx) as N. cbn in N.
      apply size_eqb_eq in Ex. congruence.
Qed.

End ThumbnailFacts.
